(** * StatSor service supervisor and chatbot endpoint

    A shallow embedding of [start_services.py] (the supervisor that launches
    the services, polls their health URLs and tears them down) and of
    [backend/chatbot/app.py] (the Flask application with its single
    [/chat] route), followed by the properties of both.

    Effects are explicit.  The supervisor runs in a small state-and-exception
    monad: the state carries the wall clock, the log of every effect performed
    so far and the pending user interrupt.

    The script is read twice.  The first reading has it on a console that
    can print every line, with what [Popen] and [requests.get] raise handed
    to the script as values: there the only exception is [KeyboardInterrupt].
    The second reading, the module [Console], raises the exceptions of
    [Popen], [requests.get] and [print] and catches them where the script
    has its [try] blocks; the two agree on a console that can encode every
    line. *)

(** The two one-off scripts [fix_lint.py] and [fix_lint_v2.py] are embedded
    too, as far as they go without a regular-expression engine: a run of
    [fix_lint.py] over the files it reads and writes, and the loop of
    [fix_lint_v2.py] over the lines of redis.js. *)

From Stdlib Require Import ZArith List String Ascii Bool Lia DecimalString.
From Stdlib Require Import SpecFloat.
Import ListNotations.
Local Open Scope string_scope.
Local Open Scope Z_scope.

#[local] Set Warnings "-register-all".

(** ** Strings of the script *)

(** ["\n"] *)
Definition nl : string := String (ascii_of_nat 10) EmptyString.

(** [c * n] for a one-character string [c]. *)
Fixpoint str_times (c : ascii) (n : nat) : string :=
  match n with
  | O => EmptyString
  | S k => String c (str_times c k)
  end.

(** [str(n)] for an integer. *)
Definition str_of_Z (z : Z) : string := NilZero.string_of_int (Z.to_int z).

(** [s.replace(old, new)] for a non-empty [old]: every non-overlapping
    occurrence, left to right.  [skip] counts the characters of a match that
    are still to be dropped. *)
Fixpoint replace_from (old new s : string) (skip : nat) : string :=
  match s with
  | EmptyString => EmptyString
  | String c rest =>
      match skip with
      | S k => replace_from old new rest k
      | O =>
          if prefix old s
          then new ++ replace_from old new rest (Nat.pred (String.length old))
          else String c (replace_from old new rest O)
      end
  end.

Definition str_replace (s old new : string) : string :=
  match old with
  | EmptyString => s
  | _ => replace_from old new s O
  end.

(** ** Data of the supervisor *)

(** An entry of [services_to_start]: a dict with the keys
    ["name"], ["command"], ["dir"] and ["url"]. *)
Record Service : Type := {
  name : string;
  command : list string;
  dir : string;
  url : string
}.

(** A [subprocess.Popen] object, identified by its process id. *)
Definition Process : Type := nat.

(** An entry of [processes]: [{"process": process, "name": name}]. *)
Record PInfo : Type := {
  process : Process;
  pname : string
}.

(** What one [requests.get(url, timeout=5)] does. *)
Inductive Reply : Type :=
| Status (status_code : Z)       (* a response came back *)
| ConnectionError                (* requests.exceptions.ConnectionError *)
| OtherException (e : string).   (* any other Exception, e.g. ReadTimeout *)

(** One attempt: its reply and the clock ticks it took. *)
Record Attempt : Type := {
  reply : Reply;
  cost : Z
}.

(** The effects the script performs, in the order it performs them. *)
Inductive Event : Type :=
| EPrint (line : string)
| EPopen (cmd : list string) (cwd : string) (spawned : option Process)
| EGet (target : string)
| ESleep (seconds : Z)
| ETerminate (p : Process).

(** The environment of a run: the resolution of the clock, what [Popen]
    does for a command in a directory (a process, or the message of the
    exception it raises), and the replies a URL gives to the successive
    requests of one health check. *)
Record World : Type := {
  ticks_per_second : Z;
  popen : list string -> string -> Process + string;
  http : string -> list Attempt
}.

(** ** The monad *)

Record State : Type := {
  now : Z;                   (* time.time(), in ticks *)
  trace : list Event;        (* effects performed so far *)
  sigint : option nat        (* effects left before Ctrl+C arrives, if it does *)
}.

(** The exceptions of a run.  [Exception] stands for any class below
    Python's [Exception] other than the connection error of requests, with
    the text [str(e)] gives. *)
Inductive Exn : Type :=
| KeyboardInterrupt
| ConnectionFailure              (* requests.exceptions.ConnectionError *)
| Exception (message : string).

Inductive Result (A : Type) : Type :=
| Ok (a : A) (st : State)
| Raise (e : Exn) (st : State)
| Unfinished.                (* the run needs more script or more fuel *)

Arguments Ok {A} a st.
Arguments Raise {A} e st.
Arguments Unfinished {A}.

Definition M (A : Type) : Type := State -> Result A.

Definition ret {A} (a : A) : M A := fun st => Ok a st.

Definition bind {A B} (m : M A) (f : A -> M B) : M B :=
  fun st =>
    match m st with
    | Ok a st' => f a st'
    | Raise e st' => Raise e st'
    | Unfinished => Unfinished
    end.

Notation "x <- m ;; k" := (bind m (fun x => k))
  (at level 61, m at next level, right associativity).
Notation "m ;; k" := (bind m (fun _ => k))
  (at level 61, right associativity).

(** [try: m except KeyboardInterrupt: h] *)
Definition try_except {A} (m : M A) (h : M A) : M A :=
  fun st =>
    match m st with
    | Raise KeyboardInterrupt st' => h st'
    | r => r
    end.

Definition unfinished {A} : M A := fun _ => Unfinished.

(** An effect that takes [dt] ticks.  A pending interrupt is delivered in
    place of the effect when its countdown has reached zero. *)
Definition effect (e : Event) (dt : Z) : M unit :=
  fun st =>
    match sigint st with
    | Some O =>
        Raise KeyboardInterrupt
          {| now := now st; trace := trace st; sigint := None |}
    | Some (S k) =>
        Ok tt {| now := now st + dt; trace := trace st ++ [e];
                 sigint := Some k |}
    | None =>
        Ok tt {| now := now st + dt; trace := trace st ++ [e];
                 sigint := None |}
    end.

(** [print(line)] on a console that can encode the line; [Console.print]
    is [print] on any console. *)
Definition print (line : string) : M unit := effect (EPrint line) 0.

Definition time_time : M Z := fun st => Ok (now st) st.

Section Script.

Variable w : World.

Definition time_sleep (seconds : Z) : M unit :=
  effect (ESleep seconds) (seconds * ticks_per_second w).

Definition Popen (cmd : list string) (cwd : string) : M (Process + string) :=
  let r := popen w cmd cwd in
  effect (EPopen cmd cwd (match r with inl p => Some p | inr _ => None end)) 0 ;;
  ret r.

Definition requests_get (a : Attempt) (target : string) : M Reply :=
  effect (EGet target) (cost a) ;; ret (reply a).

Definition terminate (p : Process) : M unit := effect (ETerminate p) 0.

(** ** start_service *)

Definition start_service (cmd : list string) (working_dir service_name : string)
  : M (option Process) :=
  print ("Starting " ++ service_name ++ " service...") ;;
  r <- Popen cmd working_dir ;;
  match r with
  | inl p => ret (Some p)
  | inr e =>
      print ("Error starting " ++ service_name ++ ": " ++ e) ;;
      ret None
  end.

(** ** check_service *)

(** The [while] loop of [check_service]; [script] holds the replies still to
    come from the URL. *)
Fixpoint poll (script : list Attempt) (target service_name : string)
    (timeout start_time : Z) : M bool :=
  t <- time_time ;;
  if t - start_time <? timeout * ticks_per_second w then
    match script with
    | [] => unfinished
    | a :: rest =>
        r <- requests_get a target ;;
        match r with
        | Status status_code =>
            if status_code =? 200 then
              print ("✓ " ++ service_name ++ " is running") ;;
              ret true
            else poll rest target service_name timeout start_time
        | ConnectionError =>
            time_sleep 2 ;;
            poll rest target service_name timeout start_time
        | OtherException e =>
            print ("An error occurred while checking " ++ service_name
                   ++ ": " ++ e) ;;
            time_sleep 2 ;;
            poll rest target service_name timeout start_time
        end
    end
  else
    print ("✗ " ++ service_name ++ " failed to start within "
           ++ str_of_Z timeout ++ " seconds") ;;
    ret false.

Definition check_service (target service_name : string) (timeout : Z) : M bool :=
  start_time <- time_time ;;
  print ("Checking " ++ service_name ++ " at " ++ target ++ "...") ;;
  poll (http w target) target service_name timeout start_time.

(** ** main *)

(** [for p_info in processes: p_info["process"].terminate()] *)
Fixpoint terminate_loop (processes : list PInfo) : M unit :=
  match processes with
  | [] => ret tt
  | p_info :: rest => terminate (process p_info) ;; terminate_loop rest
  end.

(** The launch loop (lines 55-63).  [inl] is the [return] of line 63, reached
    after the processes launched so far have been terminated, with the name
    of the service that did not start; [inr] is [processes] when the loop
    ends. *)
Fixpoint launch_loop (todo : list Service) (processes : list PInfo)
  : M (string + list PInfo) :=
  match todo with
  | [] => ret (inr processes)
  | service :: rest =>
      p <- start_service (command service) (dir service) (name service) ;;
      match p with
      | Some p =>
          launch_loop rest
            (processes ++ [ {| process := p; pname := name service |} ])
      | None =>
          terminate_loop processes ;;
          print ("Failed to start " ++ name service ++ ". Aborting.") ;;
          ret (inl (name service))
      end
  end.

(** The probe loop (lines 68-72); its value is [all_ready]. *)
Fixpoint probe_loop (todo : list Service) : M bool :=
  match todo with
  | [] => ret true
  | service :: rest =>
      ok <- check_service (url service) (name service) 30 ;;
      if ok then probe_loop rest else ret false
  end.

(** How the startup phase of [main] ends: with the [return] of line 63, or
    past the probe loop with [processes] and [all_ready]. *)
Inductive Startup : Type :=
| Aborted (service_name : string)
| Probed (processes : list PInfo) (all_ready : bool).

(** The startup phase of [main], lines 45-72. *)
Definition startAll (services : list Service) : M Startup :=
  print "Starting StatSor Services..." ;;
  print (str_times "=" 50) ;;
  launched <- launch_loop services [] ;;
  match launched with
  | inl service_name => ret (Aborted service_name)
  | inr processes =>
      print (nl ++ "Waiting for services to start...") ;;
      print (str_times "-" 30) ;;
      all_ready <- probe_loop services ;;
      ret (Probed processes all_ready)
  end.

(** The lines printed for each service under "Service URLs:" (lines 78-79). *)
Fixpoint print_urls (services : list Service) : M unit :=
  match services with
  | [] => ret tt
  | service :: rest =>
      print ("  " ++ name service ++ ": "
             ++ str_replace (url service) "/health" "") ;;
      print_urls rest
  end.

(** Lines 76-80. *)
Definition announce (services : list Service) : M unit :=
  print "🎉 All services are running successfully!" ;;
  print (nl ++ "Service URLs:") ;;
  print_urls services ;;
  print (nl ++ "Press Ctrl+C to stop services").

(** [while True: time.sleep(1)], cut off after [fuel] rounds. *)
Fixpoint idle_wait (fuel : nat) : M unit :=
  match fuel with
  | O => unfinished
  | S k => time_sleep 1 ;; idle_wait k
  end.

(** [main] over a list of services; [fuel] bounds the idle wait. *)
Definition main_with (services : list Service) (fuel : nat) : M unit :=
  started <- startAll services ;;
  match started with
  | Aborted _ => ret tt
  | Probed processes all_ready =>
      print (nl ++ str_times "=" 50) ;;
      if all_ready then
        announce services ;;
        try_except (idle_wait fuel)
          (print (nl ++ nl ++ "Stopping services...") ;;
           terminate_loop processes ;;
           print "Services stopped.")
      else
        print "❌ Some services failed to start" ;;
        print "Check the logs above for more information" ;;
        terminate_loop processes
  end.

End Script.

(** [services_to_start] *)
Definition services_to_start : list Service :=
  [ {| name := "Chatbot"; command := ["python"; "app.py"];
       dir := "backend/chatbot"; url := "http://localhost:5000/health" |};
    {| name := "Backend"; command := ["npm"; "start"];
       dir := "backend"; url := "http://localhost:8080/health" |} ].

Definition main (w : World) (fuel : nat) : M unit :=
  main_with w services_to_start fuel.


(** How the interpreter exits once [main()] is over: status 0 after a normal
    return, the traceback of an exception nobody caught otherwise. *)
Inductive Exit : Type :=
| ExitCode (code : Z)
| Traceback (e : Exn).

Definition exit_of (r : Result unit) : option Exit :=
  match r with
  | Ok _ _ => Some (ExitCode 0)
  | Raise e _ => Some (Traceback e)
  | Unfinished => None
  end.

(** The state a run has reached when it is over. *)
Definition final_state {A} (r : Result A) : State :=
  match r with
  | Ok _ st => st
  | Raise _ st => st
  | Unfinished => {| now := 0; trace := []; sigint := None |}
  end.

(** ** Reading a log *)

(** The processes that were started, in the order of their [Popen]. *)
Fixpoint launched (tr : list Event) : list Process :=
  match tr with
  | [] => []
  | EPopen _ _ (Some p) :: rest => p :: launched rest
  | _ :: rest => launched rest
  end.

(** The [Popen] calls that were made, whether they succeeded or not. *)
Fixpoint popen_calls (tr : list Event) : list (list string * string) :=
  match tr with
  | [] => []
  | EPopen cmd cwd _ :: rest => (cmd, cwd) :: popen_calls rest
  | _ :: rest => popen_calls rest
  end.

(** The processes that were sent [terminate()], in the order of the calls. *)
Fixpoint terminated (tr : list Event) : list Process :=
  match tr with
  | [] => []
  | ETerminate p :: rest => p :: terminated rest
  | _ :: rest => terminated rest
  end.

(** The URLs that were requested, one entry per request. *)
Fixpoint requested (tr : list Event) : list string :=
  match tr with
  | [] => []
  | EGet target :: rest => target :: requested rest
  | _ :: rest => requested rest
  end.

(** ** A service on its own *)

(** The state of a run that has done nothing yet and will not be interrupted. *)
Definition fresh : State := {| now := 0; trace := []; sigint := None |}.

(** Whether [Popen] starts the service in the world [w]. *)
Definition starts (w : World) (s : Service) : bool :=
  match popen w (command s) (dir s) with
  | inl _ => true
  | inr _ => false
  end.

(** The entry [main] appends to [processes] for a service that started. *)
Definition pinfo_of (w : World) (s : Service) : PInfo :=
  {| process := match popen w (command s) (dir s) with
                | inl p => p
                | inr _ => O
                end;
     pname := name s |}.

(** The log of [start_service] for a service. *)
Definition start_events (w : World) (s : Service) : list Event :=
  match popen w (command s) (dir s) with
  | inl p =>
      [ EPrint ("Starting " ++ name s ++ " service...");
        EPopen (command s) (dir s) (Some p) ]
  | inr e =>
      [ EPrint ("Starting " ++ name s ++ " service...");
        EPopen (command s) (dir s) None;
        EPrint ("Error starting " ++ name s ++ ": " ++ e) ]
  end.

(** [check_service] on the service, run from [fresh]: the verdict it returns,
    the log it leaves and the ticks it takes. *)
Definition probe (w : World) (s : Service) : Result bool :=
  check_service w (url s) (name s) 30 fresh.

Definition probe_verdict (w : World) (s : Service) : option bool :=
  match probe w s with
  | Ok b _ => Some b
  | _ => None
  end.

Definition probe_events (w : World) (s : Service) : list Event :=
  match probe w s with
  | Ok _ st => trace st
  | _ => []
  end.

Definition probe_ticks (w : World) (s : Service) : Z :=
  match probe w s with
  | Ok _ st => now st
  | _ => 0
  end.

(** The ticks an attempt may take on the clock of [w]: at most the five
    seconds of [timeout=5]. *)
Definition charged (w : World) (a : Attempt) : Prop :=
  0 <= cost a <= 5 * ticks_per_second w.

(** The ticks the attempts of a script take together. *)
Fixpoint total_cost (script : list Attempt) : Z :=
  match script with
  | [] => 0
  | a :: rest => cost a + total_cost rest
  end.

(** ** backend/chatbot/app.py *)

(** A decoded JSON value, as [request.json] hands it over: a number
    written without fraction and exponent is an [int], any other number a
    [float]. *)
Inductive JSON : Type :=
| JNull
| JBool (b : bool)
| JInt (z : Z)
| JFloat (x : spec_float)
| JStr (s : string)
| JList (items : list JSON)
| JDict (items : list (string * JSON)).

(** [d.get(key)]: the value bound to the key, [None] without one. *)
Fixpoint dict_get (d : list (string * JSON)) (key : string) : JSON :=
  match d with
  | [] => JNull
  | (k, v) :: rest => if String.eqb k key then v else dict_get rest key
  end.

(** Python's truth value of a decoded JSON value. *)
Definition truthy (v : JSON) : bool :=
  match v with
  | JNull => false
  | JBool b => b
  | JInt z => negb (z =? 0)
  | JFloat x => match x with S754_zero _ => false | _ => true end
  | JStr s => negb (String.eqb s "")
  | JList items => match items with [] => false | _ => true end
  | JDict items => match items with [] => false | _ => true end
  end.

(** The keyword arguments of [client.chat.completions.create]. *)
Record ChatRequest : Type := {
  model : string;
  messages : list (list (string * JSON));
  temperature : Z * Z;           (* 0.7, as numerator and denominator *)
  max_tokens : Z
}.

(** What lines 28-39 get from the client: the call of lines 28-38 raises
    an exception; or it returns a completion from which line 39 reads the
    content of the first choice; or it returns one from which line 39
    cannot read it (no first choice, say) and raises itself.  [e] is the
    text [str] gives for the exception. *)
Inductive Answer : Type :=
| Content (text : string)
| Raises (e : string)
| Unreadable (e : string).

Definition Client : Type := ChatRequest -> Answer.

(** What the view function hands back to Flask: a body with a status, or an
    exception it did not catch. *)
Inductive ViewResult : Type :=
| Respond (status : Z) (body : JSON)
| Uncaught (e : string).

(** [chat] on the decoded body of the request.  The second component lists
    the calls made to the client. *)
Definition chat (client : Client) (data : JSON)
  : ViewResult * list ChatRequest :=
  match data with
  | JDict d =>
      let prompt := dict_get d "prompt" in
      if negb (truthy prompt) then
        (Respond 400 (JDict [("error", JStr "Prompt is required")]), [])
      else
        let request :=
          {| model := "gemma2-9b-it";
             messages := [ [("role", JStr "user"); ("content", prompt)] ];
             temperature := (7, 10);
             max_tokens := 1000 |} in
        match client request with
        | Content response =>
            (Respond 200 (JDict [("response", JStr response)]), [request])
        | Raises e =>
            (Respond 500 (JDict [("error", JStr e)]), [request])
        | Unreadable e =>
            (Respond 500 (JDict [("error", JStr e)]), [request])
        end
  | _ => (Uncaught "AttributeError", [])
  end.



(** A rule of the URL map. [Subtree p] stands for [p + "<path:filename>"]. *)
Inductive Rule : Type :=
| Exact (path : string)
| Subtree (root : string).

Record Route : Type := {
  rule : Rule;
  methods : list string;
  endpoint : string
}.

(** The routes the module registers with [@app.route]. *)
Definition routes : list Route :=
  [ {| rule := Exact "/chat"; methods := ["POST"]; endpoint := "chat" |} ].

(** [app.add_url_rule]: a rule also answers OPTIONS, and HEAD when it
    answers GET. *)
Definition add_url_rule (r : Route) : Route :=
  {| rule := rule r;
     methods :=
       methods r
       ++ (if existsb (String.eqb "GET") (methods r) then ["HEAD"] else [])
       ++ ["OPTIONS"];
     endpoint := endpoint r |}.

(** The URL map of [app]: the rule Flask adds for static files, then the
    routes of the module. *)
Definition url_map : list Route :=
  map add_url_rule
    ({| rule := Subtree "/static/"; methods := ["GET"]; endpoint := "static" |}
     :: routes).

(** [app.run(port=5001)] *)
Definition run_port : Z := 5001.

Definition rule_matches (r : Rule) (path : string) : bool :=
  match r with
  | Exact p => String.eqb p path
  | Subtree root =>
      prefix root path && (String.length root <? String.length path)%nat
  end.

Inductive Dispatch : Type :=
| Handled (view : string)
| MethodNotAllowed
| NotFound.

(** Dispatching a request over a URL map: the first rule that matches the
    path and allows the method; 405 when only the path matched; else 404. *)
Fixpoint dispatch (m : list Route) (method path : string) : Dispatch :=
  match m with
  | [] => NotFound
  | r :: rest =>
      if rule_matches (rule r) path then
        if existsb (String.eqb method) (methods r) then Handled (endpoint r)
        else match dispatch rest method path with
             | Handled v => Handled v
             | _ => MethodNotAllowed
             end
      else dispatch rest method path
  end.

(** The part of a URL after ["http://"]. *)
Definition url_rest (u : string) : string :=
  if prefix "http://" u then substring 7 (String.length u - 7) u else u.

(** The path of a URL: from the first ["/"] after the host on. *)
Definition url_path (u : string) : string :=
  let r := url_rest u in
  match index 0 "/" r with
  | Some i => substring i (String.length r - i) r
  | None => "/"
  end.

(** The port of a URL, when it names one. *)
Definition url_port (u : string) : option Z :=
  let r := url_rest u in
  let host :=
    match index 0 "/" r with
    | Some i => substring 0 i r
    | None => r
    end in
  match index 0 ":" host with
  | Some i =>
      option_map Z.of_uint
        (NilZero.uint_of_string
           (substring (S i) (String.length host - S i) host))
  | None => None
  end.

(** ** Worlds to run the script in *)

(** A clock in milliseconds; both commands start; each URL refuses the first
    connection and answers 200 to the second request. *)
Definition healthy_world : World :=
  {| ticks_per_second := 1000;
     popen := fun cmd _ =>
       match cmd with
       | "python" :: _ => inl 101%nat
       | _ => inl 102%nat
       end;
     http := fun _ =>
       [ {| reply := ConnectionError; cost := 3 |};
         {| reply := Status 200; cost := 40 |} ] |}.

(** As [healthy_world], but [npm start] cannot be started. *)
Definition bad_backend_world : World :=
  {| ticks_per_second := 1000;
     popen := fun cmd _ =>
       match cmd with
       | "python" :: _ => inl 101%nat
       | _ => inr "[Errno 2] No such file or directory: 'backend'"
       end;
     http := http healthy_world |}.

(** As [healthy_world], but port 8080 refuses every connection, each time
    after 5 milliseconds. *)
Definition deaf_backend_world : World :=
  {| ticks_per_second := 1000;
     popen := popen healthy_world;
     http := fun target =>
       if String.eqb target "http://localhost:8080/health"
       then repeat {| reply := ConnectionError; cost := 5 |} 20
       else http healthy_world target |}.

(** Every connection attempt runs into the five seconds of [timeout=5]. *)
Definition slow_world : World :=
  {| ticks_per_second := 1000;
     popen := popen healthy_world;
     http := fun _ => repeat {| reply := ConnectionError; cost := 5000 |} 8 |}.

(** The service answers 503 while it warms up, then 200. *)
Definition warming_world : World :=
  {| ticks_per_second := 1000;
     popen := popen healthy_world;
     http := fun _ =>
       [ {| reply := Status 503; cost := 10 |};
         {| reply := Status 503; cost := 10 |};
         {| reply := Status 200; cost := 10 |} ] |}.

(** A run in which Ctrl+C arrives in place of the effect number [k]. *)
Definition interrupted_at (k : nat) : State :=
  {| now := 0; trace := []; sigint := Some k |}.

(** The state [st] after [dt] more ticks and the effects [evs]. *)
Definition advance (st : State) (dt : Z) (evs : list Event) : State :=
  {| now := now st + dt; trace := trace st ++ evs; sigint := sigint st |}.

(** The state [st] seen from a run that began [d] ticks and the effects
    [pre] earlier. *)
Definition shift (d : Z) (pre : list Event) (st : State) : State :=
  {| now := now st + d; trace := pre ++ trace st; sigint := sigint st |}.

Definition shift_result {A} (d : Z) (pre : list Event) (r : Result A)
  : Result A :=
  match r with
  | Ok a st => Ok a (shift d pre st)
  | Raise e st => Raise e (shift d pre st)
  | Unfinished => Unfinished
  end.

(** [m], run without an interrupt, returns [a] after [dt] ticks and the
    effects [evs], whatever happened before. *)
Definition runs {A} (m : M A) (a : A) (dt : Z) (evs : list Event) : Prop :=
  forall st, sigint st = None -> m st = Ok a (advance st dt evs).

(** The log of [terminate_loop]. *)
Definition stops (processes : list PInfo) : list Event :=
  map (fun p_info => ETerminate (process p_info)) processes.

(** A result an uninterrupted run can have: no exception, and no interrupt
    pending afterwards. *)
Definition quiet {A} (r : Result A) : Prop :=
  match r with
  | Ok _ st => sigint st = None
  | Raise _ _ => False
  | Unfinished => True
  end.

(** Whenever [m] returns, interrupted or not along the way, the effects
    [evs] it has added to the log and the value [a] it returns satisfy
    [P a evs]. *)
Definition yields {A} (m : M A) (P : A -> list Event -> Prop) : Prop :=
  forall st a st',
    m st = Ok a st' ->
    exists evs, trace st' = (trace st ++ evs)%list /\ P a evs.

(** A piece of log that starts and terminates nothing. *)
Definition silent (evs : list Event) : Prop :=
  launched evs = [] /\ terminated evs = [].

(** [m] starts and terminates nothing. *)
Definition quietly {A} (m : M A) : Prop := yields m (fun _ evs => silent evs).

(** What the startup phase has started and terminated when it returns. *)
Definition startAll_post (r : Startup) (evs : list Event) : Prop :=
  match r with
  | Aborted _ => terminated evs = launched evs
  | Probed processes _ =>
      terminated evs = [] /\ map process processes = launched evs
  end.

(** ** fix_lint.py and fix_lint_v2.py *)

(** [s.split('\n')] *)
Fixpoint split_nl (s : string) : list string :=
  match s with
  | EmptyString => [EmptyString]
  | String c rest =>
      if Ascii.eqb c (ascii_of_nat 10) then EmptyString :: split_nl rest
      else
        match split_nl rest with
        | line :: lines => String c line :: lines
        | [] => [String c EmptyString]
        end
  end.

(** ['\n'.join(lines)] *)
Fixpoint join_nl (lines : list string) : string :=
  match lines with
  | [] => EmptyString
  | [line] => line
  | line :: rest => line ++ nl ++ join_nl rest
  end.

(** [sub in s] *)
Fixpoint contains (sub s : string) : bool :=
  prefix sub s
  || match s with
     | EmptyString => false
     | String _ rest => contains sub rest
     end.

(** [del lines[i]]; [None] is the IndexError. *)
Fixpoint del_at {A} (i : nat) (l : list A) : option (list A) :=
  match l, i with
  | [], _ => None
  | _ :: rest, O => Some rest
  | x :: rest, S k => option_map (cons x) (del_at k rest)
  end.

Inductive LintError : Type :=
| FileNotFoundError (path : string)
| IndexError.

(** Lines 8-14 of fix_lint.py on the text read from redis.js. *)
Definition fix_redis (content : string) : string + LintError :=
  let lines := split_nl content in
  match nth_error lines 24 with
  | None => inr IndexError
  | Some line24 =>
      if contains "retryDelayOnFailover: 100" line24 then
        match nth_error lines 25 with
        | None => inr IndexError
        | Some line25 =>
            if contains "maxRetriesPerRequest: 3" line25 then
              match del_at 25 lines with
              | None => inr IndexError
              | Some lines1 =>
                  match del_at 24 lines1 with
                  | None => inr IndexError
                  | Some lines2 => inl (join_nl lines2)
                  end
              end
            else inl (join_nl lines)
        end
      else inl (join_nl lines)
  end.

(** Line 25 of fix_lint.py. *)
Definition fix_security (content : string) : string + LintError :=
  inl (str_replace content
         ("/(\'|(\\-\\-)|(;)|(\\||\\|)|(\\*|\\*" ++ "))/i")
         ("/('|(\\--)|(;)|(\\||\\|)|(\\*|\\*" ++ "))/i")).

(** Lines 36-43 of fix_lint.py. *)
Definition fix_security_service (content : string) : string + LintError :=
  let content1 :=
    str_replace content
      ("sqlInjection: /('|(\\-\\-)|(;)|(\\||\\|)|(\\*|\\*" ++ "))/i,")
      "sqlInjection: /('|(\\--)|(;)|(\\||\\|))/i," in
  inl (str_replace content1
         "pathTraversal: /(\\.\\.[\\/\\\\]|\\.\\.%2f|\\.\\.%5c)/i,"
         "pathTraversal: /(\\.\\.[\\/\\\\]|\\.\\.\\/|\\.\\..)/i,").

(** Lines 54-57 of fix_lint.py. *)
Definition fix_players (content : string) : string + LintError :=
  inl (str_replace content
         "updateData = restrictedUpdate;"
         "Object.keys(restrictedUpdate).forEach(key => { updateData[key] = restrictedUpdate[key]; });").

(** The files of the run, by path: the text a read returns, if the file
    exists. *)
Definition Disk : Type := string -> option string.

Definition write_file (d : Disk) (path content : string) : Disk :=
  fun p => if String.eqb p path then Some content else d p.

(** A run of a lint script: the files, the lines printed, and the exception
    that stopped it, if one did. *)
Record LintRun : Type := {
  disk : Disk;
  out : list string;
  failure : option LintError
}.

(** One block of the script: read the file, edit the text, write it back,
    print the message.  Nothing happens once an exception has stopped the
    script. *)
Definition rewrite_file (path : string) (edit : string -> string + LintError)
    (message : string) (r : LintRun) : LintRun :=
  match failure r with
  | Some _ => r
  | None =>
      match disk r path with
      | None =>
          {| disk := disk r; out := out r;
             failure := Some (FileNotFoundError path) |}
      | Some content =>
          match edit content with
          | inr e => {| disk := disk r; out := out r; failure := Some e |}
          | inl content' =>
              {| disk := write_file (disk r) path content';
                 out := (out r ++ [message])%list;
                 failure := None |}
          end
      end
  end.

Definition say (message : string) (r : LintRun) : LintRun :=
  match failure r with
  | Some _ => r
  | None =>
      {| disk := disk r; out := (out r ++ [message])%list; failure := None |}
  end.

Definition redis_js : string := "../statsor-backend/src/config/redis.js".
Definition security_js : string :=
  "../statsor-backend/src/middleware/security.js".
Definition security_service_js : string :=
  "../statsor-backend/src/services/securityService.js".
Definition players_js : string :=
  "../statsor-backend/src/routes/playersEnhanced.js".

(** fix_lint.py *)
Definition fix_lint (d : Disk) : LintRun :=
  let r0 := {| disk := d; out := []; failure := None |} in
  let r1 := rewrite_file redis_js fix_redis "Fixed redis.js" r0 in
  let r2 := rewrite_file security_js fix_security "Fixed security.js" r1 in
  let r3 := rewrite_file security_service_js fix_security_service
              "Fixed securityService.js" r2 in
  let r4 := rewrite_file players_js fix_players "Fixed playersEnhanced.js" r3 in
  say "All files fixed!" r4.

(** The four blocks of fix_lint.py, in the order of the script: the file,
    the edit and the line printed. *)
Definition lint_blocks
  : list (string * (string -> string + LintError) * string) :=
  [ (redis_js, fix_redis, "Fixed redis.js");
    (security_js, fix_security, "Fixed security.js");
    (security_service_js, fix_security_service, "Fixed securityService.js");
    (players_js, fix_players, "Fixed playersEnhanced.js") ].

(** On the disk [d'] the file of a block holds the edit of what it held
    on [d]. *)
Definition rewritten (d d' : Disk)
    (b : string * (string -> string + LintError) * string) : Prop :=
  let '(path, edit, _) := b in
  exists content content',
    d path = Some content /\ edit content = inl content'
    /\ d' path = Some content'.

(** On the disk [d'] the file of a block is as it was on [d]. *)
Definition untouched (d d' : Disk)
    (b : string * (string -> string + LintError) * string) : Prop :=
  let '(path, _, _) := b in d' path = d path.

(** [f.readlines()]: the lines of a text, each with its newline. *)
Fixpoint readlines (s : string) : list string :=
  match s with
  | EmptyString => []
  | String c rest =>
      if Ascii.eqb c (ascii_of_nat 10) then
        String c EmptyString :: readlines rest
      else
        match readlines rest with
        | line :: lines => String c line :: lines
        | [] => [String c EmptyString]
        end
  end.

(** The loop of lines 8-22 of fix_lint_v2.py from the line of index [i] on,
    with the flags [seen_retry] and [seen_max]; its value is what the loop
    appends to [output]. *)
Fixpoint dedupe_from (i : nat) (seen_retry seen_max : bool)
    (lines : list string) : list string :=
  match lines with
  | [] => []
  | line :: rest =>
      if (42 <=? i)%nat && (i <=? 53)%nat then
        if contains "retryDelayOnFailover: 100" line && seen_retry then
          dedupe_from (S i) seen_retry seen_max rest
        else if contains "maxRetriesPerRequest: 3" line && seen_max then
          dedupe_from (S i) seen_retry seen_max rest
        else
          line
          :: dedupe_from (S i)
               (if contains "retryDelayOnFailover" line then true
                else seen_retry)
               (if contains "maxRetriesPerRequest" line then true
                else seen_max)
               rest
      else line :: dedupe_from (S i) seen_retry seen_max rest
  end.

(** Lines 8-22 of fix_lint_v2.py: [output] for the [lines] read. *)
Definition dedupe (lines : list string) : list string :=
  dedupe_from 0 false false lines.

(** Lines 4-25 of fix_lint_v2.py on the text of redis.js:
    [f.writelines(output)] writes the lines one after the other. *)
Definition fix_redis_v2 (content : string) : string :=
  String.concat "" (dedupe (readlines content)).

(** [l1] is [l2] with some of its elements left out. *)
Inductive subseq {A} : list A -> list A -> Prop :=
| subseq_nil : subseq [] []
| subseq_keep x l1 l2 : subseq l1 l2 -> subseq (x :: l1) (x :: l2)
| subseq_drop x l1 l2 : subseq l1 l2 -> subseq l1 (x :: l2).

(** A redis.js of 27 lines with the two keys at lines 25 and 26. *)
Definition redis_with_duplicates : string :=
  join_nl (repeat "  host: process.env.REDIS_HOST," 24
           ++ [ "  retryDelayOnFailover: 100,";
                "  maxRetriesPerRequest: 3,";
                "};" ])%list.

(** A redis.js of 27 lines without them. *)
Definition redis_without_duplicates : string :=
  join_nl (repeat "  host: process.env.REDIS_HOST," 26 ++ ["};"])%list.

(** A disk with the four files of fix_lint.py. *)
Definition lint_disk (redis : string) : Disk :=
  fun p =>
    if String.eqb p redis_js then Some redis
    else if String.eqb p security_js then Some "const x = 1;"
    else if String.eqb p security_service_js then Some "const y = 2;"
    else if String.eqb p players_js then Some "updateData = restrictedUpdate;"
    else None.

(** A line has no newline in it. *)
Fixpoint one_line (s : string) : bool :=
  match s with
  | EmptyString => true
  | String c rest => negb (Ascii.eqb c (ascii_of_nat 10)) && one_line rest
  end.

(** ** More ways to read a run *)

(** An attempt that ended in an exception of [requests.get]. *)
Definition raised (a : Attempt) : bool :=
  match reply a with
  | Status _ => false
  | ConnectionError => true
  | OtherException _ => true
  end.

(** The seconds of the [time.sleep] calls of a log, in order. *)
Fixpoint slept (tr : list Event) : list Z :=
  match tr with
  | [] => []
  | ESleep seconds :: rest => seconds :: slept rest
  | _ :: rest => slept rest
  end.

(** [l1] is the beginning of [l2]. *)
Definition prefix_of {A} (l1 l2 : list A) : Prop :=
  exists rest, l2 = (l1 ++ rest)%list.

(** Whenever [m] ends in an exception, the effects [evs] it has added to
    the log by then satisfy [Q evs]. *)
Definition raises {A} (m : M A) (Q : list Event -> Prop) : Prop :=
  forall st e st',
    m st = Raise e st' ->
    exists evs, trace st' = (trace st ++ evs)%list /\ Q evs.

(** The requests, the sleeps and the ticks of a run of the loop that made
    [n] attempts. *)
Definition accounted (w : World) (script : list Attempt) (target : string) (n : nat)
    (st st' : State) : Prop :=
  (n <= List.length script)%nat
  /\ exists evs,
       trace st' = (trace st ++ evs)%list
       /\ requested evs = repeat target n
       /\ slept evs
          = repeat 2 (List.length (filter raised (firstn n script)))
       /\ now st' - now st
          = total_cost (firstn n script)
            + Z.of_nat (List.length (filter raised (firstn n script)))
              * (2 * ticks_per_second w).

(** [m] has started and terminated nothing when it ends in an exception. *)
Definition hushed {A} (m : M A) : Prop := raises m silent.

(** The terminate calls of a log went to processes the log shows started,
    in the order of their start. *)
Definition stops_only_started (evs : list Event) : Prop :=
  prefix_of (terminated evs) (launched evs).

(** What the rollback of the launch loop and the two teardown loops have
    done when Ctrl+C cuts them short: nothing started, and [terminate()]
    sent to the first few entries of [processes]. *)
Definition partly_stopped (processes : list PInfo) (evs : list Event) : Prop :=
  launched evs = []
  /\ exists k, terminated evs = map process (firstn k processes).

(** Whether [m] returns or ends in an exception, the effects it has added
    to the log satisfy [S]. *)
Definition always (S : list Event -> Prop) {A} (m : M A) : Prop :=
  yields m (fun _ evs => S evs) /\ raises m S.

(** The [Popen] call [main] makes for a service. *)
Definition popen_call (s : Service) : list string * string :=
  (command s, dir s).

(** The order [main] keeps between its [Popen] calls and its requests: the
    calls are for the first services of the list, one each and in order, and
    a request is made only when all the services have been started. *)
Definition in_order (services : list Service) (evs : list Event) : Prop :=
  prefix_of (popen_calls evs) (map popen_call services)
  /\ (requested evs <> [] ->
      popen_calls evs = map popen_call services
      /\ List.length (launched evs) = List.length services).

(** A piece of log without a [Popen] call. *)
Definition no_popen (evs : list Event) : Prop := popen_calls evs = [].

(** A piece of log without a [Popen] call and without a request. *)
Definition calm (evs : list Event) : Prop :=
  popen_calls evs = [] /\ requested evs = [].

(** What the launch loop has done when it is over: no request; a [Popen]
    call for every service when it ran through, for the first ones else. *)
Definition launch_post (todo : list Service)
    (r : string + list PInfo) (evs : list Event) : Prop :=
  requested evs = []
  /\ match r with
     | inr _ =>
         popen_calls evs = map popen_call todo
         /\ List.length (launched evs) = List.length todo
     | inl _ => prefix_of (popen_calls evs) (map popen_call todo)
     end.

(** The same when Ctrl+C cuts the launch loop short. *)
Definition launch_cut (todo : list Service) (evs : list Event) : Prop :=
  requested evs = []
  /\ prefix_of (popen_calls evs) (map popen_call todo).

(** What the startup phase has done when it returns. *)
Definition startup_order (services : list Service)
    (r : Startup) (evs : list Event) : Prop :=
  in_order services evs
  /\ match r with
     | Aborted _ => True
     | Probed _ _ =>
         popen_calls evs = map popen_call services
         /\ List.length (launched evs) = List.length services
     end.

(** ** The script with its exceptions *)

(** Above, [print] writes every line, and what [Popen] and [requests.get]
    raise reaches the script as a value.  The module [Console] has the
    script once more with the exceptions raised and caught where Python
    raises and catches them: [Popen] and [requests.get] raise, [print]
    raises UnicodeEncodeError for a line the encoding of [sys.stdout] cannot
    take, and an exception runs through the script up to the first [try]
    block around it that has a clause for it.  On a console that can
    encode every line the two readings of the script agree. *)
Module Console.

(** The environment with its console: for a line, [None] when the encoding
    of [sys.stdout] takes it, else the text of the UnicodeEncodeError that
    [print] raises. *)
Record Env : Type := {
  world :> World;
  stdout : string -> option string
}.

(** [raise x] *)
Definition throw {A} (x : Exn) : M A := fun st => Raise x st.

(** [str(x)].  The worlds give no text for the connection error of
    requests, which no line of the script prints. *)
Definition str (x : Exn) : string :=
  match x with
  | Exception message => message
  | _ => ""
  end.

(** [try: m] followed by [except] clauses: [clauses x] is the block of the
    first clause that takes [x], if one does; without one the exception
    goes on. *)
Definition try_with {A} (m : M A) (clauses : Exn -> option (M A)) : M A :=
  fun st =>
    match m st with
    | Raise x st' =>
        match clauses x with
        | Some block => block st'
        | None => Raise x st'
        end
    | r => r
    end.

Section Script.

Variable e : Env.

Definition print (line : string) : M unit :=
  match stdout e line with
  | None => effect (EPrint line) 0
  | Some message => throw (Exception message)
  end.

Definition Popen (cmd : list string) (cwd : string) : M Process :=
  match popen e cmd cwd with
  | inl p => effect (EPopen cmd cwd (Some p)) 0 ;; ret p
  | inr message => effect (EPopen cmd cwd None) 0 ;; throw (Exception message)
  end.

(** [requests.get(target, timeout=5).status_code] *)
Definition requests_get (a : Attempt) (target : string) : M Z :=
  effect (EGet target) (cost a) ;;
  match reply a with
  | Status status_code => ret status_code
  | ConnectionError => throw ConnectionFailure
  | OtherException message => throw (Exception message)
  end.

(** ** start_service *)

Definition start_service (cmd : list string) (working_dir service_name : string)
  : M (option Process) :=
  print ("Starting " ++ service_name ++ " service...") ;;
  try_with
    (process <- Popen cmd working_dir ;;
     ret (Some process))
    (fun x =>
       match x with
       | KeyboardInterrupt => None
       | _ =>
           Some (print ("Error starting " ++ service_name ++ ": " ++ str x) ;;
                 ret None)
       end).

(** ** check_service *)

(** The [while] loop of [check_service].  The value of the [try] statement
    is [Some b] when its body returns [b] from the function, [None] when the
    loop is to go on. *)
Fixpoint poll (script : list Attempt) (target service_name : string)
    (timeout start_time : Z) : M bool :=
  t <- time_time ;;
  if t - start_time <? timeout * ticks_per_second e then
    match script with
    | [] => unfinished
    | a :: rest =>
        returned <-
          try_with
            (status_code <- requests_get a target ;;
             if status_code =? 200 then
               print ("✓ " ++ service_name ++ " is running") ;;
               ret (Some true)
             else ret None)
            (fun x =>
               match x with
               | KeyboardInterrupt => None
               | ConnectionFailure => Some (time_sleep e 2 ;; ret None)
               | _ =>
                   Some (print ("An error occurred while checking "
                                ++ service_name ++ ": " ++ str x) ;;
                         time_sleep e 2 ;;
                         ret None)
               end) ;;
        match returned with
        | Some b => ret b
        | None => poll rest target service_name timeout start_time
        end
    end
  else
    print ("✗ " ++ service_name ++ " failed to start within "
           ++ str_of_Z timeout ++ " seconds") ;;
    ret false.

Definition check_service (target service_name : string) (timeout : Z) : M bool :=
  start_time <- time_time ;;
  print ("Checking " ++ service_name ++ " at " ++ target ++ "...") ;;
  poll (http e target) target service_name timeout start_time.

(** ** main *)

Fixpoint launch_loop (todo : list Service) (processes : list PInfo)
  : M (string + list PInfo) :=
  match todo with
  | [] => ret (inr processes)
  | service :: rest =>
      p <- start_service (command service) (dir service) (name service) ;;
      match p with
      | Some p =>
          launch_loop rest
            (processes ++ [ {| process := p; pname := name service |} ])
      | None =>
          terminate_loop processes ;;
          print ("Failed to start " ++ name service ++ ". Aborting.") ;;
          ret (inl (name service))
      end
  end.

Fixpoint probe_loop (todo : list Service) : M bool :=
  match todo with
  | [] => ret true
  | service :: rest =>
      ok <- check_service (url service) (name service) 30 ;;
      if ok then probe_loop rest else ret false
  end.

Definition startAll (services : list Service) : M Startup :=
  print "Starting StatSor Services..." ;;
  print (str_times "=" 50) ;;
  launched <- launch_loop services [] ;;
  match launched with
  | inl service_name => ret (Aborted service_name)
  | inr processes =>
      print (nl ++ "Waiting for services to start...") ;;
      print (str_times "-" 30) ;;
      all_ready <- probe_loop services ;;
      ret (Probed processes all_ready)
  end.

Fixpoint print_urls (services : list Service) : M unit :=
  match services with
  | [] => ret tt
  | service :: rest =>
      print ("  " ++ name service ++ ": "
             ++ str_replace (url service) "/health" "") ;;
      print_urls rest
  end.

Definition announce (services : list Service) : M unit :=
  print "🎉 All services are running successfully!" ;;
  print (nl ++ "Service URLs:") ;;
  print_urls services ;;
  print (nl ++ "Press Ctrl+C to stop services").

Definition main_with (services : list Service) (fuel : nat) : M unit :=
  started <- startAll services ;;
  match started with
  | Aborted _ => ret tt
  | Probed processes all_ready =>
      print (nl ++ str_times "=" 50) ;;
      if all_ready then
        announce services ;;
        try_except (idle_wait e fuel)
          (print (nl ++ nl ++ "Stopping services...") ;;
           terminate_loop processes ;;
           print "Services stopped.")
      else
        print "❌ Some services failed to start" ;;
        print "Check the logs above for more information" ;;
        terminate_loop processes
  end.

End Script.

Definition main (e : Env) (fuel : nat) : M unit :=
  main_with e services_to_start fuel.

End Console.

Coercion Console.world : Console.Env >-> World.

(** A console that takes every line, as with UTF-8. *)
Definition utf8 (w : World) : Console.Env :=
  {| Console.world := w; Console.stdout := fun _ => None |}.

(** The characters of the line are all ASCII. *)
Fixpoint ascii_only (line : string) : bool :=
  match line with
  | EmptyString => true
  | String c rest => (nat_of_ascii c <? 128)%nat && ascii_only rest
  end.

(** A console with an encoding of one byte per character, as cp1252, which
    has none of the signs ✓ ✗ 🎉 ❌ of the script. *)
Definition legacy (w : World) : Console.Env :=
  {| Console.world := w;
     Console.stdout := fun line =>
       if ascii_only line then None
       else Some "'charmap' codec can't encode character" |}.

(** The console takes every line. *)
Definition encodes_all (e : Console.Env) : Prop :=
  forall line, Console.stdout e line = None.

(** An exception that comes from a [print] on the console of [e]. *)
Definition from_print (e : Console.Env) (x : Exn) : Prop :=
  exists line message,
    Console.stdout e line = Some message /\ x = Exception message.

(** An exception of a class below [Exception], which [except Exception]
    takes. *)
Definition is_Exception (x : Exn) : Prop := x <> KeyboardInterrupt.

(** What a run of [m] without Ctrl+C can end in: it returns, no interrupt
    pending, or it ends in an exception that satisfies [R]. *)
Definition ends (R : Exn -> Prop) {A} (m : M A) : Prop :=
  forall st, sigint st = None ->
    match m st with
    | Ok _ st' => sigint st' = None
    | Raise x st' => sigint st' = None /\ R x
    | Unfinished => True
    end.

(** Both commands start and every request is answered 200 after 40
    milliseconds. *)
Definition steady_world : World :=
  {| ticks_per_second := 1000;
     popen := popen healthy_world;
     http := fun _ => repeat {| reply := Status 200; cost := 40 |} 20 |}.

(** Both commands start and every connection is refused after 5
    milliseconds. *)
Definition deaf_world : World :=
  {| ticks_per_second := 1000;
     popen := popen healthy_world;
     http := fun _ => repeat {| reply := ConnectionError; cost := 5 |} 20 |}.

(** ** What a URL has to answer *)

(** The attempt gets a response with status 200. *)
Definition answers_200 (a : Attempt) : bool :=
  match reply a with
  | Status status_code => status_code =? 200
  | _ => false
  end.

(** The attempts of a script that come before the first one answered 200. *)
Fixpoint before_200 (script : list Attempt) : list Attempt :=
  match script with
  | [] => []
  | a :: rest => if answers_200 a then [] else a :: before_200 rest
  end.

(** The ticks that attempts without a 200 take: the time of the requests,
    and two seconds of sleep after each that ended in an exception. *)
Definition spent (w : World) (attempts : list Attempt) : Z :=
  total_cost attempts
  + Z.of_nat (List.length (filter raised attempts))
    * (2 * ticks_per_second w).

(** The URL of the service answers 200, to a request that begins less than
    30 seconds after the first one. *)
Definition healthy_in_time (w : World) (s : Service) : Prop :=
  existsb answers_200 (http w (url s)) = true
  /\ Forall (fun a => 0 <= cost a) (before_200 (http w (url s)))
  /\ spent w (before_200 (http w (url s))) < 30 * ticks_per_second w.

(** The URL of the service lets 30 seconds pass without a 200. *)
Definition times_out (w : World) (s : Service) : Prop :=
  30 * ticks_per_second w <= spent w (before_200 (http w (url s))).

(** What [check_service] logs for an attempt that is not answered 200. *)
Definition attempt_events (target service_name : string) (a : Attempt)
  : list Event :=
  EGet target
  :: match reply a with
     | Status _ => []
     | ConnectionError => [ESleep 2]
     | OtherException message =>
         [ EPrint ("An error occurred while checking " ++ service_name
                   ++ ": " ++ message);
           ESleep 2 ]
     end.

(** The log of a health check that sees its 200: a request for every
    attempt before, then the request that is answered 200. *)
Definition healthy_events (w : World) (s : Service) : list Event :=
  (EPrint ("Checking " ++ name s ++ " at " ++ url s ++ "...")
   :: flat_map (attempt_events (url s) (name s))
        (before_200 (http w (url s))))
  ++ [ EGet (url s); EPrint ("✓ " ++ name s ++ " is running") ].


(** * Properties *)

Local Open Scope list_scope.

(** ** The monad *)

Lemma advance_advance st d1 e1 d2 e2 :
  advance (advance st d1 e1) d2 e2 = advance st (d1 + d2) (e1 ++ e2).
Proof.
  unfold advance; simpl. f_equal; [lia | now rewrite app_assoc].
Qed.

Lemma advance_zero st : advance st 0 [] = st.
Proof.
  destruct st; unfold advance; simpl. now rewrite Z.add_0_r, app_nil_r.
Qed.

Lemma runs_ret {A} (a : A) : runs (ret a) a 0 [].
Proof. intros st _. unfold ret. now rewrite advance_zero. Qed.

Lemma runs_effect e dt : runs (effect e dt) tt dt [e].
Proof. intros st H. unfold effect, advance. now rewrite H. Qed.

Lemma runs_bind {A B} (m : M A) (f : A -> M B) a d1 e1 b d2 e2 :
  runs m a d1 e1 -> runs (f a) b d2 e2 ->
  runs (bind m f) b (d1 + d2) (e1 ++ e2).
Proof.
  intros Hm Hf st H. unfold bind. rewrite (Hm st H).
  rewrite (Hf (advance st d1 e1) H). now rewrite advance_advance.
Qed.

Lemma runs_eq {A} (m : M A) a d e d' e' :
  runs m a d e -> d = d' -> e = e' -> runs m a d' e'.
Proof. now intros H <- <-. Qed.

Lemma runs_print line : runs (print line) tt 0 [EPrint line].
Proof. apply runs_effect. Qed.

Lemma bind_Ok {A B} (m : M A) (f : A -> M B) st b st2 :
  bind m f st = Ok b st2 ->
  exists a st1, m st = Ok a st1 /\ f a st1 = Ok b st2.
Proof.
  unfold bind. destruct (m st) as [a st1 | e st1 |]; try discriminate.
  intros H. now exists a, st1.
Qed.

Lemma effect_Ok e dt st u st' :
  effect e dt st = Ok u st' ->
  trace st' = trace st ++ [e] /\ now st' = now st + dt.
Proof.
  unfold effect. destruct (sigint st) as [[|k]|]; try discriminate;
    intros H; injection H as _ <-; now split.
Qed.

Lemma effect_Raise e dt st x st' :
  effect e dt st = Raise x st' -> trace st' = trace st.
Proof.
  unfold effect. destruct (sigint st) as [[|k]|]; try discriminate.
  intros H; now injection H as _ <-.
Qed.

Lemma effect_shift e dt d pre st :
  effect e dt (shift d pre st) = shift_result d pre (effect e dt st).
Proof.
  unfold effect, shift; simpl.
  destruct (sigint st) as [[|k]|]; simpl; unfold shift; simpl;
    rewrite <- ?app_assoc; try reflexivity; do 2 f_equal; lia.
Qed.

Lemma bind_shift {A B} (m m' : M A) (f f' : A -> M B) d pre st :
  m' (shift d pre st) = shift_result d pre (m st) ->
  (forall a st1, f' a (shift d pre st1) = shift_result d pre (f a st1)) ->
  bind m' f' (shift d pre st) = shift_result d pre (bind m f st).
Proof.
  intros Hm Hf. unfold bind. rewrite Hm.
  destruct (m st) as [a st1 | e st1 |]; simpl; auto.
Qed.


Lemma bind_time_time {A} (f : Z -> M A) st :
  bind time_time f st = f (now st) st.
Proof. reflexivity. Qed.

Lemma quiet_effect e dt st : sigint st = None -> quiet (effect e dt st).
Proof. intros H. unfold effect. now rewrite H. Qed.

Lemma quiet_bind {A B} (m : M A) (f : A -> M B) st :
  quiet (m st) ->
  (forall a st1, sigint st1 = None -> quiet (f a st1)) ->
  quiet (bind m f st).
Proof.
  unfold bind. destruct (m st) as [a st1 | e st1 |]; simpl; auto.
Qed.

Lemma quiet_ret {A} (a : A) st : sigint st = None -> quiet (ret a st).
Proof. trivial. Qed.

Lemma quiet_runs {A} (m : M A) a dt evs st :
  runs m a dt evs -> sigint st = None -> quiet (m st).
Proof. intros Hm H. now rewrite (Hm st H). Qed.

Create HintDb quiet.
#[local] Hint Resolve quiet_effect quiet_ret : quiet.

(** ** check_service *)

Section Quiet.

Variable w : World.

Lemma poll_shift script target service_name timeout start_time d pre st :
  poll w script target service_name timeout (start_time + d) (shift d pre st)
  = shift_result d pre
      (poll w script target service_name timeout start_time st).
Proof.
  revert st. induction script as [|a rest IH]; intros st.
  - simpl. rewrite !bind_time_time. simpl.
    replace (now st + d - (start_time + d)) with (now st - start_time) by lia.
    destruct (now st - start_time <? timeout * ticks_per_second w).
    + reflexivity.
    + apply (bind_shift (print _) (print _)); [apply effect_shift | reflexivity].
  - simpl. rewrite !bind_time_time. simpl.
    replace (now st + d - (start_time + d)) with (now st - start_time) by lia.
    destruct (now st - start_time <? timeout * ticks_per_second w).
    + apply bind_shift.
      * unfold requests_get. apply bind_shift; [apply effect_shift | reflexivity].
      * intros [code| |e] st1.
        -- destruct (code =? 200); [|apply IH].
           apply bind_shift; [apply effect_shift | reflexivity].
        -- apply bind_shift; [apply effect_shift | intros; apply IH].
        -- apply bind_shift; [apply effect_shift | intros].
           apply bind_shift; [apply effect_shift | intros; apply IH].
    + apply (bind_shift (print _) (print _)); [apply effect_shift | reflexivity].
Qed.

Lemma check_service_shift target service_name timeout d pre st :
  check_service w target service_name timeout (shift d pre st)
  = shift_result d pre (check_service w target service_name timeout st).
Proof.
  unfold check_service. rewrite !bind_time_time. simpl.
  apply bind_shift; [apply effect_shift | intros; apply poll_shift].
Qed.

Lemma quiet_poll script target service_name timeout start_time st :
  sigint st = None ->
  quiet (poll w script target service_name timeout start_time st).
Proof.
  revert st. induction script as [|a rest IH]; intros st H; simpl;
    rewrite bind_time_time;
    destruct (now st - start_time <? timeout * ticks_per_second w);
    try exact I;
    try (apply quiet_bind; [now apply quiet_effect | now intros]).
  apply quiet_bind.
  - unfold requests_get. apply quiet_bind; [now apply quiet_effect | now intros].
  - intros [code| |e] st1 H1.
    + destruct (code =? 200); [|now apply IH].
      apply quiet_bind; [now apply quiet_effect | now intros].
    + apply quiet_bind; [now apply quiet_effect | auto].
    + apply quiet_bind; [now apply quiet_effect | intros].
      apply quiet_bind; [now apply quiet_effect | auto].
Qed.

Lemma quiet_check_service target service_name timeout st :
  sigint st = None ->
  quiet (check_service w target service_name timeout st).
Proof.
  intros H. unfold check_service. rewrite bind_time_time.
  apply quiet_bind; [now apply quiet_effect | intros].
  now apply quiet_poll.
Qed.

Lemma fresh_shift st : sigint st = None -> shift (now st) (trace st) fresh = st.
Proof.
  destruct st as [t tr sg]; simpl; intros ->. unfold shift, fresh; simpl.
  now rewrite app_nil_r.
Qed.

(** The health check of a service does, from any point of an uninterrupted
    run, what it does on its own. *)
Lemma check_service_runs s b st0 :
  probe w s = Ok b st0 ->
  runs (check_service w (url s) (name s) 30) b (now st0) (trace st0).
Proof.
  intros Hp st H. rewrite <- (fresh_shift st H) at 1.
  rewrite check_service_shift. fold (probe w s).
  assert (Hq : quiet (probe w s)) by now apply quiet_check_service.
  rewrite Hp in *. simpl in *. unfold shift, advance.
  rewrite H, Hq. f_equal. f_equal. lia.
Qed.

Lemma probe_verdict_runs s b :
  probe_verdict w s = Some b ->
  runs (check_service w (url s) (name s) 30) b
    (probe_ticks w s) (probe_events w s).
Proof.
  unfold probe_verdict, probe_ticks, probe_events.
  destruct (probe w s) as [b' st0| |] eqn:Hp; try discriminate.
  intros [= ->]. now apply check_service_runs.
Qed.

End Quiet.

(** ** Uninterrupted runs of the loops of main *)

Section Loops.

Variable w : World.

Lemma start_service_runs s :
  runs (start_service w (command s) (dir s) (name s))
    (match popen w (command s) (dir s) with
     | inl p => Some p
     | inr _ => None
     end)
    0 (start_events w s).
Proof.
  unfold start_service, Popen, start_events.
  destruct (popen w (command s) (dir s)) as [p|e].
  - eapply runs_eq.
    + eapply runs_bind; [apply runs_print|].
      eapply runs_bind;
        [eapply runs_bind; [apply runs_effect | apply runs_ret]|].
      apply runs_ret.
    + reflexivity.
    + reflexivity.
  - eapply runs_eq.
    + eapply runs_bind; [apply runs_print|].
      eapply runs_bind.
      * eapply runs_bind; [apply runs_effect | apply runs_ret].
      * eapply runs_bind; [apply runs_print | apply runs_ret].
    + reflexivity.
    + reflexivity.
Qed.

Lemma terminate_loop_runs processes :
  runs (terminate_loop processes) tt 0 (stops processes).
Proof.
  induction processes as [|p rest IH]; simpl.
  - apply runs_ret.
  - eapply runs_eq; [eapply runs_bind; [apply runs_effect | apply IH] | |];
      reflexivity.
Qed.

Lemma launch_loop_runs todo processes :
  Forall (fun s => starts w s = true) todo ->
  runs (launch_loop w todo processes)
    (inr (processes ++ map (pinfo_of w) todo))
    0 (flat_map (start_events w) todo).
Proof.
  revert processes. induction todo as [|s rest IH]; intros processes Hall.
  - simpl. rewrite app_nil_r. apply runs_ret.
  - inversion Hall as [|? ? Hs Hrest]; subst. simpl.
    pose proof (start_service_runs s) as Hrun.
    unfold starts in Hs. unfold pinfo_of at 1.
    destruct (popen w (command s) (dir s)) as [p|e]; [|discriminate].
    replace (processes ++ {| process := p; pname := name s |}
               :: map (pinfo_of w) rest)
      with ((processes ++ [ {| process := p; pname := name s |} ])
              ++ map (pinfo_of w) rest)
      by now rewrite <- app_assoc.
    eapply runs_eq.
    + eapply runs_bind; [exact Hrun|]. simpl. apply IH, Hrest.
    + reflexivity.
    + reflexivity.
Qed.

Lemma launch_loop_fails pre s post processes :
  Forall (fun s => starts w s = true) pre ->
  starts w s = false ->
  runs (launch_loop w (pre ++ s :: post) processes)
    (inl (name s))
    0 (flat_map (start_events w) pre ++ start_events w s
       ++ stops (processes ++ map (pinfo_of w) pre)
       ++ [EPrint ("Failed to start " ++ name s ++ ". Aborting.")%string]).
Proof.
  revert processes. induction pre as [|s0 rest IH]; intros processes Hall Hs.
  - simpl. rewrite app_nil_r.
    pose proof (start_service_runs s) as Hrun.
    unfold starts in Hs.
    destruct (popen w (command s) (dir s)) as [p|e]; [discriminate|].
    eapply runs_eq.
    + eapply runs_bind; [exact Hrun|]. simpl.
      eapply runs_bind; [apply terminate_loop_runs|].
      eapply runs_bind; [apply runs_print | apply runs_ret].
    + reflexivity.
    + reflexivity.
  - inversion Hall as [|? ? Hs0 Hrest]; subst. simpl.
    pose proof (start_service_runs s0) as Hrun.
    unfold starts in Hs0. unfold pinfo_of at 1.
    destruct (popen w (command s0) (dir s0)) as [p|e]; [|discriminate].
    replace (processes ++ {| process := p; pname := name s0 |}
               :: map (pinfo_of w) rest)
      with ((processes ++ [ {| process := p; pname := name s0 |} ])
              ++ map (pinfo_of w) rest)
      by now rewrite <- app_assoc.
    eapply runs_eq.
    + eapply runs_bind; [exact Hrun|]. simpl. now apply IH.
    + reflexivity.
    + apply app_assoc.
Qed.

Lemma probe_loop_runs todo :
  Forall (fun s => probe_verdict w s = Some true) todo ->
  exists dt,
    runs (probe_loop w todo) true dt (flat_map (probe_events w) todo).
Proof.
  induction todo as [|s rest IH]; intros Hall.
  - exists 0. apply runs_ret.
  - inversion Hall as [|? ? Hs Hrest]; subst.
    destruct (IH Hrest) as [dt Hdt]. simpl.
    exists (probe_ticks w s + dt).
    eapply runs_bind; [apply (probe_verdict_runs w s true Hs) | exact Hdt].
Qed.

Lemma probe_loop_fails pre s post :
  Forall (fun s => probe_verdict w s = Some true) pre ->
  probe_verdict w s = Some false ->
  exists dt,
    runs (probe_loop w (pre ++ s :: post)) false dt
      (flat_map (probe_events w) pre ++ probe_events w s).
Proof.
  induction pre as [|s0 rest IH]; intros Hall Hs.
  - simpl. exists (probe_ticks w s + 0).
    eapply runs_eq.
    + eapply runs_bind;
        [apply (probe_verdict_runs w s false Hs) | apply runs_ret].
    + reflexivity.
    + apply app_nil_r.
  - inversion Hall as [|? ? Hs0 Hrest]; subst.
    destruct (IH Hrest Hs) as [dt Hdt]. simpl.
    exists (probe_ticks w s0 + dt).
    eapply runs_eq.
    + eapply runs_bind;
        [apply (probe_verdict_runs w s0 true Hs0) | exact Hdt].
    + reflexivity.
    + apply app_assoc.
Qed.

End Loops.

(** ** Reading a log, piece by piece *)

Lemma launched_app a b : launched (a ++ b) = launched a ++ launched b.
Proof.
  induction a as [|[l|c d [p|]|t|z|p] a IH]; simpl; auto. now rewrite IH.
Qed.

Lemma terminated_app a b : terminated (a ++ b) = terminated a ++ terminated b.
Proof.
  induction a as [|[l|c d o|t|z|p] a IH]; simpl; auto. now rewrite IH.
Qed.

Lemma popen_calls_app a b :
  popen_calls (a ++ b) = popen_calls a ++ popen_calls b.
Proof.
  induction a as [|[l|c d o|t|z|p] a IH]; simpl; auto. now rewrite IH.
Qed.

Lemma requested_app a b : requested (a ++ b) = requested a ++ requested b.
Proof.
  induction a as [|[l|c d o|t|z|p] a IH]; simpl; auto. now rewrite IH.
Qed.

Lemma terminated_stops ps : terminated (stops ps) = map process ps.
Proof. induction ps as [|p ps IH]; simpl; auto. now rewrite IH. Qed.

Lemma launched_stops ps : launched (stops ps) = [].
Proof. induction ps as [|p ps IH]; simpl; auto. Qed.



Section Starts.

Variable w : World.









End Starts.

(** ** Runs that may be interrupted *)

Lemma yields_ret {A} (a : A) (P : A -> list Event -> Prop) :
  P a [] -> yields (ret a) P.
Proof.
  intros HP st a' st' [= <- <-]. exists []. now rewrite app_nil_r.
Qed.

Lemma yields_effect e dt (P : unit -> list Event -> Prop) :
  P tt [e] -> yields (effect e dt) P.
Proof.
  intros HP st [] st' H. apply effect_Ok in H as [H _]. now exists [e].
Qed.

Lemma yields_unfinished {A} (P : A -> list Event -> Prop) :
  yields unfinished P.
Proof. intros st a st' H. discriminate H. Qed.

Lemma yields_bind {A B} (m : M A) (f : A -> M B) P Q
    (R : B -> list Event -> Prop) :
  yields m P ->
  (forall a, yields (f a) (Q a)) ->
  (forall a b e1 e2, P a e1 -> Q a b e2 -> R b (e1 ++ e2)) ->
  yields (bind m f) R.
Proof.
  intros Hm Hf HR st b st2 H.
  apply bind_Ok in H as (a & st1 & H1 & H2).
  apply Hm in H1 as (e1 & E1 & P1). apply Hf in H2 as (e2 & E2 & Q2).
  exists (e1 ++ e2). split; [|now apply (HR a)].
  now rewrite E2, E1, app_assoc.
Qed.

Lemma yields_weaken {A} (m : M A) (P Q : A -> list Event -> Prop) :
  yields m P -> (forall a evs, P a evs -> Q a evs) -> yields m Q.
Proof.
  intros Hm HPQ st a st' H. apply Hm in H as (evs & E & HP).
  exists evs. auto.
Qed.

Lemma silent_nil : silent [].
Proof. now split. Qed.

Lemma silent_app a b : silent a -> silent b -> silent (a ++ b).
Proof.
  intros [La Ta] [Lb Tb]. split.
  - now rewrite launched_app, La, Lb.
  - now rewrite terminated_app, Ta, Tb.
Qed.

Lemma quietly_ret {A} (a : A) : quietly (ret a).
Proof. apply yields_ret, silent_nil. Qed.

Lemma quietly_bind {A B} (m : M A) (f : A -> M B) :
  quietly m -> (forall a, quietly (f a)) -> quietly (bind m f).
Proof.
  intros Hm Hf. eapply yields_bind; [exact Hm | exact Hf |].
  intros; now apply silent_app.
Qed.

Lemma quietly_print line : quietly (print line).
Proof. apply yields_effect. now split. Qed.

Lemma quietly_sleep w seconds : quietly (time_sleep w seconds).
Proof. apply yields_effect. now split. Qed.

Lemma quietly_get a target : quietly (requests_get a target).
Proof.
  apply quietly_bind; [|intros; apply quietly_ret].
  apply yields_effect. now split.
Qed.

Lemma quietly_time_bind {A} (f : Z -> M A) :
  (forall t, quietly (f t)) -> quietly (bind time_time f).
Proof. intros Hf st a st' H. rewrite bind_time_time in H. now apply Hf in H. Qed.

Create HintDb quietly.
#[local] Hint Resolve quietly_ret quietly_print quietly_sleep quietly_get
  yields_unfinished : quietly.

Lemma quietly_poll w script target service_name timeout start_time :
  quietly (poll w script target service_name timeout start_time).
Proof.
  induction script as [|a rest IH]; simpl; apply quietly_time_bind; intros t;
    destruct (t - start_time <? timeout * ticks_per_second w);
    try (apply quietly_bind; intros; auto with quietly);
    try apply yields_unfinished.
  destruct a0 as [code| |e].
  - destruct (code =? 200); auto.
    apply quietly_bind; intros; auto with quietly.
  - apply quietly_bind; intros; auto with quietly.
  - apply quietly_bind; intros; auto with quietly.
    apply quietly_bind; intros; auto with quietly.
Qed.

Lemma quietly_check_service w target service_name timeout :
  quietly (check_service w target service_name timeout).
Proof.
  unfold check_service. apply quietly_time_bind; intros t.
  apply quietly_bind; intros; auto with quietly. apply quietly_poll.
Qed.

Lemma quietly_probe_loop w todo : quietly (probe_loop w todo).
Proof.
  induction todo as [|s rest IH]; simpl; auto with quietly.
  apply quietly_bind; [apply quietly_check_service|].
  intros [|]; auto with quietly.
Qed.

Lemma quietly_print_urls services : quietly (print_urls services).
Proof.
  induction services as [|s rest IH]; simpl; auto with quietly.
  apply quietly_bind; intros; auto with quietly.
Qed.

Lemma quietly_announce services : quietly (announce services).
Proof.
  unfold announce.
  repeat (apply quietly_bind; intros; auto with quietly).
  apply quietly_print_urls.
Qed.

Section Interrupted.

Variable w : World.

Lemma yields_start_service cmd cwd service_name :
  yields (start_service w cmd cwd service_name)
    (fun r evs =>
       terminated evs = [] /\
       launched evs = match r with Some p => [p] | None => [] end).
Proof.
  unfold start_service, Popen.
  eapply yields_bind with
    (P := fun _ evs => silent evs)
    (Q := fun _ r evs =>
       terminated evs = [] /\
       launched evs = match r with Some p => [p] | None => [] end).
  - apply quietly_print.
  - intros _.
    eapply yields_bind with
      (P := fun r evs =>
         terminated evs = [] /\
         launched evs = match r with inl p => [p] | inr _ => [] end)
      (Q := fun r r' evs =>
         silent evs /\
         r' = match r with inl p => Some p | inr _ => None end).
    + eapply yields_bind with
        (P := fun _ evs =>
           evs = [EPopen cmd cwd
                    match popen w cmd cwd with
                    | inl p => Some p
                    | inr _ => None
                    end])
        (Q := fun _ r evs => evs = [] /\ r = popen w cmd cwd).
      * now apply yields_effect.
      * intros _. now apply yields_ret.
      * intros _ r e1 e2 -> [-> ->]. now destruct (popen w cmd cwd).
    + intros [p|e].
      * apply yields_ret. split; [apply silent_nil | reflexivity].
      * eapply yields_bind with
          (P := fun _ evs => silent evs)
          (Q := fun _ r' evs => evs = [] /\ r' = None).
        -- apply quietly_print.
        -- intros _. now apply yields_ret.
        -- intros _ r' e1 e2 H1 [-> ->]. now rewrite app_nil_r.
    + intros r r' e1 e2 [T1 L1] [[L2 T2] ->].
      rewrite terminated_app, launched_app, T1, T2, L1, L2, app_nil_r.
      now destruct r.
  - intros _ r e1 e2 [L1 T1] [T2 L2].
    now rewrite terminated_app, launched_app, T1, T2, L1, L2.
Qed.

Lemma yields_terminate_loop processes :
  yields (terminate_loop processes) (fun _ evs => evs = stops processes).
Proof.
  induction processes as [|p rest IH]; simpl.
  - now apply yields_ret.
  - eapply yields_bind with
      (P := fun _ evs => evs = [ETerminate (process p)])
      (Q := fun _ _ evs => evs = stops rest).
    + now apply yields_effect.
    + intros _. exact IH.
    + now intros _ _ e1 e2 -> ->.
Qed.

Lemma yields_launch_loop todo processes :
  yields (launch_loop w todo processes)
    (fun r evs =>
       match r with
       | inr processes' =>
           terminated evs = [] /\
           map process processes' = map process processes ++ launched evs
       | inl _ =>
           terminated evs = map process processes ++ launched evs
       end).
Proof.
  revert processes. induction todo as [|s rest IH]; intros processes; simpl.
  - apply yields_ret. now rewrite app_nil_r.
  - eapply yields_bind with
      (Q := fun o r evs =>
         match o, r with
         | Some p, inr processes' =>
             terminated evs = [] /\
             map process processes'
             = (map process processes ++ [p]) ++ launched evs
         | Some p, inl _ =>
             terminated evs = (map process processes ++ [p]) ++ launched evs
         | None, inl _ =>
             launched evs = [] /\ terminated evs = map process processes
         | None, inr _ => False
         end);
      [apply yields_start_service | |].
    + intros [p|].
      * eapply yields_weaken; [apply IH|].
        intros [n|ps] evs; rewrite map_app; simpl; auto.
      * eapply yields_bind with
          (Q := fun _ r evs => silent evs /\ exists n, r = inl n);
          [apply yields_terminate_loop | |].
        -- intros _.
           eapply yields_bind with
             (P := fun _ evs => silent evs)
             (Q := fun _ r evs => evs = [] /\ r = inl (name s));
             [apply quietly_print | intros _; now apply yields_ret |].
           intros _ r e1 e2 H1 [-> ->]. rewrite app_nil_r.
           split; [exact H1 | now exists (name s)].
        -- intros _ r e1 e2 -> [[L2 T2] [n ->]].
           rewrite launched_app, terminated_app, launched_stops,
             terminated_stops, L2, T2, !app_nil_r. now split.
    + intros [p|] [n|ps] e1 e2 [T1 L1]; simpl;
        rewrite ?terminated_app, ?launched_app, T1, L1; simpl.
      * intros H. now rewrite H, <- app_assoc.
      * intros [T2 H]. now rewrite T2, H, <- app_assoc.
      * intros [L2 H]. now rewrite L2, H, app_nil_r.
      * intros [].
Qed.

Lemma yields_after_quiet {A B} (m : M A) (f : A -> M B)
    (R : B -> list Event -> Prop) :
  quietly m ->
  (forall a, yields (f a) R) ->
  (forall b e1 e2, silent e1 -> R b e2 -> R b (e1 ++ e2)) ->
  yields (bind m f) R.
Proof.
  intros Hm Hf HR.
  eapply yields_bind with (P := fun _ evs => silent evs) (Q := fun _ => R);
    [exact Hm | exact Hf |].
  intros _ b e1 e2. apply HR.
Qed.

Lemma silent_prefix e1 e2 :
  silent e1 ->
  launched (e1 ++ e2) = launched e2 /\ terminated (e1 ++ e2) = terminated e2.
Proof. intros [L T]. now rewrite launched_app, terminated_app, L, T. Qed.

Lemma silent_suffix e1 e2 :
  silent e2 ->
  launched (e1 ++ e2) = launched e1 /\ terminated (e1 ++ e2) = terminated e1.
Proof.
  intros [L T]. now rewrite launched_app, terminated_app, L, T, !app_nil_r.
Qed.

Lemma startAll_post_prefix r e1 e2 :
  silent e1 -> startAll_post r e2 -> startAll_post r (e1 ++ e2).
Proof.
  intros H1 H2. destruct (silent_prefix e1 e2 H1) as [L T].
  destruct r; simpl in *; now rewrite L, T.
Qed.

Lemma yields_startAll services : yields (startAll w services) startAll_post.
Proof.
  unfold startAll.
  apply yields_after_quiet;
    [apply quietly_print | intros _ | apply startAll_post_prefix].
  apply yields_after_quiet;
    [apply quietly_print | intros _ | apply startAll_post_prefix].
  eapply yields_bind with
    (Q := fun l r evs =>
       match l, r with
       | inl _, Aborted _ => evs = []
       | inr processes, Probed processes' _ =>
           processes' = processes /\ silent evs
       | _, _ => False
       end);
    [apply (yields_launch_loop services []) | |].
  - intros [n|processes].
    + now apply yields_ret.
    + apply yields_after_quiet; [apply quietly_print | intros _ |].
      * apply yields_after_quiet; [apply quietly_print | intros _ |].
        -- eapply yields_bind with
             (P := fun _ evs => silent evs)
             (Q := fun b r evs => evs = [] /\ r = Probed processes b);
             [apply quietly_probe_loop | intros b; now apply yields_ret |].
           intros b r e1 e2 H1 [-> ->]. rewrite app_nil_r. now split.
        -- intros [n|ps b] e1 e2 H1; [trivial|].
           intros [-> H2]. split; [reflexivity | now apply silent_app].
      * intros [n|ps b] e1 e2 H1; [trivial|].
        intros [-> H2]. split; [reflexivity | now apply silent_app].
  - intros [n|processes] [n'|ps b] e1 e2 H1 H2; try contradiction; simpl.
    + subst e2. rewrite app_nil_r. exact H1.
    + destruct H2 as [-> H2], H1 as [T1 H1].
      destruct (silent_suffix e1 e2 H2) as [L T]. now rewrite L, T.
Qed.

Lemma idle_wait_not_Ok fuel st a st' : idle_wait w fuel st <> Ok a st'.
Proof.
  revert st. induction fuel as [|k IH]; intros st H; simpl in H.
  - discriminate.
  - apply bind_Ok in H as (u & st1 & _ & H). now apply IH in H.
Qed.

Lemma idle_wait_Raise fuel st e st' :
  idle_wait w fuel st = Raise e st' ->
  exists evs, trace st' = trace st ++ evs /\ silent evs.
Proof.
  revert st. induction fuel as [|k IH]; intros st H; simpl in H.
  - discriminate.
  - unfold bind in H.
    destruct (time_sleep w 1 st) as [u st1|e1 st1|] eqn:E; try discriminate.
    + apply IH in H as (evs & Ht & Hs).
      apply effect_Ok in E as [E _].
      exists ([ESleep 1] ++ evs).
      split; [now rewrite Ht, E, <- app_assoc|].
      apply silent_app; [now split | exact Hs].
    + injection H as <- <-. apply effect_Raise in E.
      exists []. rewrite app_nil_r. split; [exact E | apply silent_nil].
Qed.

Lemma yields_try_idle (P R : unit -> list Event -> Prop) fuel (h : M unit) :
  yields h P ->
  (forall a e1 e2, silent e1 -> P a e2 -> R a (e1 ++ e2)) ->
  yields (try_except (idle_wait w fuel) h) R.
Proof.
  intros Hh HR st a st' H. unfold try_except in H.
  destruct (idle_wait w fuel st) as [u st1|[] st1|] eqn:E; try discriminate.
  - now apply idle_wait_not_Ok in E.
  - apply idle_wait_Raise in E as (e1 & E1 & S1).
    apply Hh in H as (e2 & E2 & P2).
    exists (e1 ++ e2). split; [now rewrite E2, E1, app_assoc | auto].
Qed.

(** Whenever [main] returns, it has sent [terminate()] to the processes it
    started, each once, in the order in which it started them. *)
Lemma yields_main_with services fuel :
  yields (main_with w services fuel)
    (fun _ evs => terminated evs = launched evs).
Proof.
  unfold main_with.
  eapply yields_bind with
    (P := startAll_post)
    (Q := fun r _ evs =>
       match r with
       | Aborted _ => evs = []
       | Probed processes _ =>
           launched evs = [] /\ terminated evs = map process processes
       end);
    [apply yields_startAll | |].
  - assert (Hpre : forall processes (b : unit) e1 e2,
               silent e1 ->
               launched e2 = [] /\ terminated e2 = map process processes ->
               launched (e1 ++ e2) = [] /\
               terminated (e1 ++ e2) = map process processes).
    { intros ps _ e1 e2 H1 H2.
      destruct (silent_prefix e1 e2 H1) as [L T]. now rewrite L, T. }
    intros [n|processes all_ready].
    + now apply yields_ret.
    + apply yields_after_quiet;
        [apply quietly_print | intros _ | apply Hpre].
      destruct all_ready.
      * apply yields_after_quiet;
          [apply quietly_announce | intros _ | apply Hpre].
        eapply yields_try_idle with
          (P := fun _ evs =>
             launched evs = [] /\ terminated evs = map process processes);
          [|apply Hpre].
        apply yields_after_quiet;
          [apply quietly_print | intros _ | apply Hpre].
        eapply yields_bind with
          (P := fun _ evs => evs = stops processes)
          (Q := fun _ _ evs => silent evs);
          [apply yields_terminate_loop | intros _; apply quietly_print |].
        intros _ _ e1 e2 -> H2.
        destruct (silent_suffix (stops processes) e2 H2) as [L T].
        now rewrite L, T, launched_stops, terminated_stops.
      * apply yields_after_quiet;
          [apply quietly_print | intros _ | apply Hpre].
        apply yields_after_quiet;
          [apply quietly_print | intros _ | apply Hpre].
        eapply yields_weaken; [apply yields_terminate_loop|].
        intros _ evs ->. now rewrite launched_stops, terminated_stops.
  - intros [n|processes b] _ e1 e2 H1 H2; simpl in H1.
    + subst e2. now rewrite app_nil_r.
    + destruct H1 as [T1 H1], H2 as [L2 T2].
      now rewrite launched_app, terminated_app, T1, L2, T2, app_nil_r.
Qed.

End Interrupted.

(** ** The startup phase *)

Section Startup.

Variable w : World.



(** The startup phase when every service starts: its log ends with the log
    [pe] of the probe loop, whose verdict it hands on. *)
Lemma startAll_runs services b dt pe :
  Forall (fun s => starts w s = true) services ->
  runs (probe_loop w services) b dt pe ->
  runs (startAll w services)
    (Probed (map (pinfo_of w) services) b) dt
    ([EPrint "Starting StatSor Services..."; EPrint (str_times "=" 50)]
     ++ flat_map (start_events w) services
     ++ [EPrint (nl ++ "Waiting for services to start...")%string;
         EPrint (str_times "-" 30)]
     ++ pe).
Proof.
  intros Hall Hp. unfold startAll.
  eapply runs_eq.
  - eapply runs_bind; [apply runs_print|].
    eapply runs_bind; [apply runs_print|].
    eapply runs_bind; [apply (launch_loop_runs w services [] Hall)|].
    simpl.
    eapply runs_bind; [apply runs_print|].
    eapply runs_bind; [apply runs_print|].
    eapply runs_bind; [exact Hp | apply runs_ret].
  - lia.
  - simpl. now rewrite app_nil_r.
Qed.

(** The startup phase when a service does not start. *)
Lemma startAll_aborts pre s post :
  Forall (fun s => starts w s = true) pre ->
  starts w s = false ->
  runs (startAll w (pre ++ s :: post))
    (Aborted (name s)) 0
    ([EPrint "Starting StatSor Services..."; EPrint (str_times "=" 50)]
     ++ flat_map (start_events w) pre ++ start_events w s
     ++ stops (map (pinfo_of w) pre)
     ++ [EPrint ("Failed to start " ++ name s ++ ". Aborting.")%string]).
Proof.
  intros Hall Hs. unfold startAll.
  eapply runs_eq.
  - eapply runs_bind; [apply runs_print|].
    eapply runs_bind; [apply runs_print|].
    eapply runs_bind; [apply (launch_loop_fails w pre s post [] Hall Hs)|].
    apply runs_ret.
  - reflexivity.
  - simpl. now rewrite app_nil_r.
Qed.

(** ** main when the startup fails *)

Lemma main_with_aborts pre s post fuel :
  Forall (fun s => starts w s = true) pre ->
  starts w s = false ->
  runs (main_with w (pre ++ s :: post) fuel) tt 0
    ([EPrint "Starting StatSor Services..."; EPrint (str_times "=" 50)]
     ++ flat_map (start_events w) pre ++ start_events w s
     ++ stops (map (pinfo_of w) pre)
     ++ [EPrint ("Failed to start " ++ name s ++ ". Aborting.")%string]).
Proof.
  intros Hall Hs. unfold main_with.
  eapply runs_eq.
  - eapply runs_bind; [apply (startAll_aborts pre s post Hall Hs)|].
    apply runs_ret.
  - reflexivity.
  - now rewrite app_nil_r.
Qed.

Lemma main_with_unhealthy services fuel dt pe :
  Forall (fun s => starts w s = true) services ->
  runs (probe_loop w services) false dt pe ->
  runs (main_with w services fuel) tt dt
    (([EPrint "Starting StatSor Services..."; EPrint (str_times "=" 50)]
      ++ flat_map (start_events w) services
      ++ [EPrint (nl ++ "Waiting for services to start...")%string;
          EPrint (str_times "-" 30)]
      ++ pe
      ++ [EPrint (nl ++ str_times "=" 50)%string;
          EPrint "❌ Some services failed to start";
          EPrint "Check the logs above for more information"])
     ++ stops (map (pinfo_of w) services)).
Proof.
  intros Hall Hp. unfold main_with.
  eapply runs_eq.
  - eapply runs_bind; [apply (startAll_runs services false dt pe Hall Hp)|].
    eapply runs_bind; [apply runs_print|].
    eapply runs_bind; [apply runs_print|].
    eapply runs_bind; [apply runs_print|].
    apply terminate_loop_runs.
  - lia.
  - simpl. rewrite <- !app_assoc. simpl. rewrite <- !app_assoc. reflexivity.
Qed.


End Startup.

(** ** The idle wait and the interrupt *)

Lemma bind_of_Ok {A B} (m : M A) (f : A -> M B) st a st1 :
  m st = Ok a st1 -> bind m f st = f a st1.
Proof. intros H. unfold bind. now rewrite H. Qed.

Lemma bind_runs {A B} {m : M A} {a dt evs} :
  runs m a dt evs ->
  forall (f : A -> M B) st,
    sigint st = None -> bind m f st = f a (advance st dt evs).
Proof. intros Hm f st Hq. apply bind_of_Ok, Hm, Hq. Qed.

Section Idle.

Variable w : World.

Lemma idle_wait_interrupted j : forall fuel st,
  sigint st = Some j -> (j < fuel)%nat ->
  idle_wait w fuel st
  = Raise KeyboardInterrupt
      {| now := now st + Z.of_nat j * ticks_per_second w;
         trace := trace st ++ repeat (ESleep 1) j;
         sigint := None |}.
Proof.
  induction j as [|j IH]; intros [|fuel] st Hj Hf; try lia;
    change (idle_wait w (S fuel) st)
      with (bind (time_sleep w 1) (fun _ => idle_wait w fuel) st);
    unfold bind, time_sleep, effect; rewrite Hj.
  - cbn [repeat Z.of_nat]. now rewrite Z.mul_0_l, Z.add_0_r, app_nil_r.
  - assert (E : now st + 1 * ticks_per_second w
                + Z.of_nat j * ticks_per_second w
                = now st + Z.of_nat (S j) * ticks_per_second w)
      by (rewrite Nat2Z.inj_succ; ring).
    rewrite IH by (cbn [sigint]; auto; lia).
    cbn [now trace sigint repeat]. rewrite E, <- app_assoc. reflexivity.
Qed.

Lemma idle_wait_forever fuel : forall st,
  sigint st = None -> idle_wait w fuel st = Unfinished.
Proof.
  induction fuel as [|fuel IH]; intros st Hq; simpl; [reflexivity|].
  unfold bind, time_sleep. rewrite (runs_effect _ _ st Hq). now apply IH.
Qed.

(** The [except KeyboardInterrupt] block. *)
Lemma handler_runs processes :
  runs (print (nl ++ nl ++ "Stopping services...") ;;
        terminate_loop processes ;;
        print "Services stopped.") tt 0
    ([EPrint (nl ++ nl ++ "Stopping services...")%string]
     ++ stops processes ++ [EPrint "Services stopped."]).
Proof.
  eapply runs_eq.
  - eapply runs_bind; [apply runs_print|].
    eapply runs_bind; [apply terminate_loop_runs | apply runs_print].
  - reflexivity.
  - reflexivity.
Qed.

(** [main] from the point where the services are ready and the banner is
    printed, when Ctrl+C arrives [j] seconds into the idle wait. *)
Lemma main_with_interrupted_idle services fuel st processes st1 st2 j :
  startAll w services st = Ok (Probed processes true) st1 ->
  (print (nl ++ str_times "=" 50) ;; announce services) st1 = Ok tt st2 ->
  sigint st2 = Some j ->
  (j < fuel)%nat ->
  main_with w services fuel st
  = Ok tt
      {| now := now st2 + Z.of_nat j * ticks_per_second w;
         trace := trace st2 ++ repeat (ESleep 1) j
                  ++ [EPrint (nl ++ nl ++ "Stopping services...")%string]
                  ++ stops processes ++ [EPrint "Services stopped."];
         sigint := None |}.
Proof.
  intros H1 H2 Hj Hf. unfold main_with.
  rewrite (bind_of_Ok _ _ _ _ _ H1).
  apply bind_Ok in H2 as (u & st1' & Hp & Ha).
  rewrite (bind_of_Ok _ _ _ _ _ Hp), (bind_of_Ok _ _ _ _ _ Ha).
  unfold try_except. rewrite (idle_wait_interrupted j fuel st2 Hj Hf).
  rewrite handler_runs by reflexivity.
  unfold advance. simpl. rewrite Z.add_0_r, <- app_assoc. reflexivity.
Qed.

End Idle.

(** ** How long check_service takes *)

Section Bound.

Variable w : World.

Lemma runs_get a target :
  runs (requests_get a target) (reply a) (cost a) [EGet target].
Proof.
  unfold requests_get. eapply runs_eq.
  - eapply runs_bind; [apply runs_effect | apply runs_ret].
  - lia.
  - reflexivity.
Qed.

Lemma runs_sleep seconds :
  runs (time_sleep w seconds) tt (seconds * ticks_per_second w)
    [ESleep seconds].
Proof. apply runs_effect. Qed.

(** The loop, entered [now st - start_time] ticks into the check with replies
    left that reach to the timeout, returns less than seven seconds
    after the timeout: an attempt begun just before the timeout may take five
    seconds and be followed by a wait of two. *)
Ltac clock :=
  unfold advance in *; cbn [now sigint trace] in *; auto; try lia.

Lemma poll_bounded script target service_name timeout start_time : forall st,
  0 < ticks_per_second w ->
  sigint st = None ->
  Forall (charged w) script ->
  0 <= now st - start_time
    < timeout * ticks_per_second w + 7 * ticks_per_second w ->
  timeout * ticks_per_second w - (now st - start_time)
    <= total_cost script ->
  exists b st',
    poll w script target service_name timeout start_time st = Ok b st'
    /\ now st' - start_time
       < timeout * ticks_per_second w + 7 * ticks_per_second w.
Proof.
  induction script as [|a rest IH]; intros st Htps Hq Hc Hel Hlen;
    simpl poll; rewrite bind_time_time;
    destruct (Z.ltb_spec (now st - start_time)
                (timeout * ticks_per_second w)) as [Hlt|Hge].
  - cbn [total_cost] in Hlen. lia.
  - rewrite (bind_runs (runs_print _)) by exact Hq.
    do 2 eexists. split; [reflexivity|]. clock.
  - inversion Hc as [|? ? [Hlo Hhi] Hrest]; subst.
    rewrite (bind_runs (runs_get a target)) by exact Hq.
    cbn [total_cost] in Hlen.
    destruct (reply a) as [code| |e].
    + destruct (code =? 200).
      * rewrite (bind_runs (runs_print _)) by exact Hq.
        do 2 eexists. split; [reflexivity|]. clock.
      * apply IH; clock.
    + rewrite (bind_runs (runs_sleep 2)) by exact Hq.
      apply IH; clock.
    + rewrite (bind_runs (runs_print _)) by exact Hq.
      rewrite (bind_runs (runs_sleep 2)) by exact Hq.
      apply IH; clock.
  - rewrite (bind_runs (runs_print _)) by exact Hq.
    do 2 eexists. split; [reflexivity|]. clock.
Qed.

(** C6, as the code has it: on a clock that charges every attempt its own
    time, at most the five seconds of its timeout, and every wait its two
    seconds, [check_service] with a timeout that is not negative returns less
    than the timeout plus five seconds plus two seconds after it was called
    (the replies of the URL being given as far as the timeout reaches). *)
Theorem check_service_returns_within_timeout_plus_seven
    (target service_name : string) (timeout : Z) (st : State) :
  0 < ticks_per_second w ->
  0 <= timeout ->
  sigint st = None ->
  Forall (charged w) (http w target) ->
  timeout * ticks_per_second w <= total_cost (http w target) ->
  exists b st',
    check_service w target service_name timeout st = Ok b st'
    /\ now st' - now st < (timeout + 5 + 2) * ticks_per_second w.
Proof.
  intros Htps Ht Hq Hc Hlen. unfold check_service.
  rewrite bind_time_time.
  rewrite (bind_runs (runs_print _)) by exact Hq.
  assert (HT : 0 <= timeout * ticks_per_second w) by nia.
  set (st0 := advance st 0 [EPrint ("Checking " ++ service_name ++ " at "
                                     ++ target ++ "...")%string]).
  assert (H0 : now st0 - now st = 0) by (unfold st0; clock).
  destruct (poll_bounded (http w target) target service_name timeout (now st)
              st0 Htps Hq Hc)
    as (b & st' & Hp & Hb).
  - rewrite H0. lia.
  - now rewrite H0, Z.sub_0_r.
  - exists b, st'. split; [exact Hp|].
    replace ((timeout + 5 + 2) * ticks_per_second w)
      with (timeout * ticks_per_second w + 7 * ticks_per_second w) by ring.
    exact Hb.
Qed.

End Bound.

(** ** What check_service does between two requests *)

Section Retry.

Variable w : World.

(** After a connection error the loop waits two seconds before it goes on. *)
Lemma poll_waits_after_connection_error
    a rest target service_name timeout start_time st :
  reply a = ConnectionError ->
  sigint st = None ->
  now st - start_time < timeout * ticks_per_second w ->
  poll w (a :: rest) target service_name timeout start_time st
  = poll w rest target service_name timeout start_time
      (advance st (cost a + 2 * ticks_per_second w) [EGet target; ESleep 2]).
Proof.
  intros Ha Hq Hlt. simpl poll. rewrite bind_time_time.
  apply Z.ltb_lt in Hlt. rewrite Hlt.
  rewrite (bind_runs (runs_get a target)) by exact Hq. rewrite Ha.
  rewrite (bind_runs (runs_sleep w 2)) by exact Hq.
  now rewrite advance_advance.
Qed.

(** After a response whose status is not 200 the loop goes on at once: the
    next request follows with no wait in between. *)
Lemma poll_goes_on_after_other_status
    a rest target service_name timeout start_time st code :
  reply a = Status code ->
  code <> 200 ->
  sigint st = None ->
  now st - start_time < timeout * ticks_per_second w ->
  poll w (a :: rest) target service_name timeout start_time st
  = poll w rest target service_name timeout start_time
      (advance st (cost a) [EGet target]).
Proof.
  intros Ha Hc Hq Hlt. simpl poll. rewrite bind_time_time.
  apply Z.ltb_lt in Hlt. rewrite Hlt.
  rewrite (bind_runs (runs_get a target)) by exact Hq. rewrite Ha.
  apply Z.eqb_neq in Hc. now rewrite Hc.
Qed.

End Retry.

(** C5, at a service that answers 503 twice before it answers 200: the
    three requests follow each other with no [time.sleep(2)] in between. *)
Theorem check_service_retries_other_status_without_wait :
  check_service warming_world "http://localhost:5000/health" "Chatbot" 30 fresh
  = Ok true
      {| now := 30;
         trace :=
           [ EPrint "Checking Chatbot at http://localhost:5000/health...";
             EGet "http://localhost:5000/health";
             EGet "http://localhost:5000/health";
             EGet "http://localhost:5000/health";
             EPrint "✓ Chatbot is running" ];
         sigint := None |}.
Proof. vm_compute. reflexivity. Qed.

(** C6, refuted: with a timeout of 30 seconds, five attempts that each run
    into their five seconds and are each followed by the wait of two make the
    call return after 35 seconds, later than timeout plus one interval. *)
Lemma check_service_exceeds_timeout_plus_interval :
  Forall (charged slow_world) (http slow_world "http://localhost:8080/health")
  /\ exists st',
       check_service slow_world "http://localhost:8080/health" "Backend" 30
         fresh = Ok false st'
       /\ now st' - now fresh = 35 * ticks_per_second slow_world
       /\ ~ (now st' - now fresh <= (30 + 2) * ticks_per_second slow_world).
Proof.
  split.
  - repeat constructor; vm_compute; discriminate.
  - eexists. split; [vm_compute; reflexivity|].
    split; [reflexivity | vm_compute; intros H; apply H; reflexivity].
Qed.

Lemma check_service_returns_within_timeout_plus_seven_witness :
  exists b st',
    check_service slow_world "http://localhost:8080/health" "Backend" 30 fresh
    = Ok b st'
    /\ now st' - now fresh < (30 + 5 + 2) * ticks_per_second slow_world.
Proof.
  apply (check_service_returns_within_timeout_plus_seven slow_world
           "http://localhost:8080/health" "Backend" 30 fresh).
  - reflexivity.
  - lia.
  - reflexivity.
  - repeat constructor; vm_compute; discriminate.
  - vm_compute. discriminate.
Defined.

(** ** The order of termination *)

(** C2, as the code has it: whenever [main] returns, after a rollback or
    after Ctrl+C in the idle wait, the [terminate()] calls it has made went
    to the processes it started, in the order in which it started them:
    first started, first stopped. *)
Theorem terminate_in_startup_order
    (w : World) (services : list Service) (fuel : nat) (st st' : State) :
  main_with w services fuel st = Ok tt st' ->
  exists evs,
    trace st' = trace st ++ evs /\ terminated evs = launched evs.
Proof. intros H. exact (yields_main_with w services fuel st tt st' H). Qed.

Lemma terminate_in_startup_order_witness :
  exists evs,
    trace (final_state (main healthy_world 50 (interrupted_at 25)))
    = trace (interrupted_at 25) ++ evs
    /\ terminated evs = launched evs.
Proof.
  apply (terminate_in_startup_order healthy_world services_to_start 50
           (interrupted_at 25)).
  vm_compute. reflexivity.
Defined.

(** C2, refuted: with both services healthy and Ctrl+C in the idle wait,
    Chatbot (process 101) is terminated before Backend (process 102), which
    is the order of startup and not its reverse. *)
Lemma terminate_not_in_reverse_order :
  exists st1 st',
    startAll healthy_world services_to_start (interrupted_at 25)
    = Ok (Probed [ {| process := 101%nat; pname := "Chatbot" |};
                   {| process := 102%nat; pname := "Backend" |} ] true) st1
    /\ main healthy_world 50 (interrupted_at 25) = Ok tt st'
    /\ launched (trace st') = [101; 102]%nat
    /\ terminated (trace st') = [101; 102]%nat
    /\ terminated (trace st') <> rev (launched (trace st')).
Proof.
  do 2 eexists. split; [vm_compute; reflexivity|].
  split; [vm_compute; reflexivity|].
  split; [reflexivity|]. split; [reflexivity|]. vm_compute. discriminate.
Qed.

(** ** Ctrl+C *)

(** C7, as the code has it: when Ctrl+C arrives during the idle wait, after
    the services were found ready and the banner was printed, the next
    effects of [main] are the terminate calls (after the line that announces
    them) for every process it started, and [main] returns. *)
Theorem interrupt_in_idle_wait_terminates_all
    (w : World) (services : list Service) (fuel : nat)
    (st : State) (processes : list PInfo) (st1 st2 : State) (j : nat) :
  startAll w services st = Ok (Probed processes true) st1 ->
  (print (nl ++ str_times "=" 50) ;; announce services) st1 = Ok tt st2 ->
  sigint st2 = Some j ->
  (j < fuel)%nat ->
  main_with w services fuel st
  = Ok tt
      {| now := now st2 + Z.of_nat j * ticks_per_second w;
         trace := trace st2 ++ repeat (ESleep 1) j
                  ++ [EPrint (nl ++ nl ++ "Stopping services...")%string]
                  ++ stops processes ++ [EPrint "Services stopped."];
         sigint := None |}
  /\ exists evs,
       trace st1 = trace st ++ evs
       /\ launched evs = map process processes
       /\ terminated evs = [].
Proof.
  intros H1 H2 Hj Hf. split.
  - exact (main_with_interrupted_idle w services fuel st processes st1 st2 j
             H1 H2 Hj Hf).
  - apply yields_startAll in H1 as (evs & E & T & L).
    exists evs. auto.
Qed.

Lemma interrupt_in_idle_wait_terminates_all_witness :
  main healthy_world 50 (interrupted_at 27)
  = Ok tt
      {| now := 7086;
         trace :=
           trace (final_state
                    ((startAll healthy_world services_to_start ;;
                      print (nl ++ str_times "=" 50) ;;
                      announce services_to_start) (interrupted_at 27)))
           ++ repeat (ESleep 1) 3
           ++ [EPrint (nl ++ nl ++ "Stopping services...")%string]
           ++ stops [ {| process := 101%nat; pname := "Chatbot" |};
                      {| process := 102%nat; pname := "Backend" |} ]
           ++ [EPrint "Services stopped."];
         sigint := None |}.
Proof.
  refine (proj1 (interrupt_in_idle_wait_terminates_all healthy_world
                   services_to_start 50 (interrupted_at 27)
                   [ {| process := 101%nat; pname := "Chatbot" |};
                     {| process := 102%nat; pname := "Backend" |} ]
                   (final_state
                      (startAll healthy_world services_to_start
                         (interrupted_at 27)))
                   (final_state
                      ((startAll healthy_world services_to_start ;;
                        print (nl ++ str_times "=" 50) ;;
                        announce services_to_start) (interrupted_at 27)))
                   3 _ _ _ _)).
  - vm_compute. reflexivity.
  - vm_compute. reflexivity.
  - vm_compute. reflexivity.
  - lia.
Defined.

(** C7, refuted: Ctrl+C while the first health check waits, or between the
    two launches, leaves [main] through the exception, with no
    [terminate()] sent to the processes that were started. *)
Lemma interrupt_during_startup_leaves_processes :
  (exists st',
     main healthy_world 50 (interrupted_at 10) = Raise KeyboardInterrupt st'
     /\ launched (trace st') = [101; 102]%nat
     /\ requested (trace st') = ["http://localhost:5000/health"]
     /\ terminated (trace st') = [])
  /\ (exists st',
        main healthy_world 50 (interrupted_at 4) = Raise KeyboardInterrupt st'
        /\ launched (trace st') = [101]%nat
        /\ requested (trace st') = []
        /\ terminated (trace st') = []).
Proof.
  split; eexists; (split; [vm_compute; reflexivity|]); repeat split.
Qed.

(** ** The exit status *)

Lemma first_failure {A} (f : A -> bool) (l : list A) :
  Forall (fun x => f x = true) l
  \/ exists pre x post,
       l = pre ++ x :: post
       /\ Forall (fun x => f x = true) pre /\ f x = false.
Proof.
  induction l as [|x l [IH | (pre & y & post & -> & Hpre & Hy)]].
  - left. constructor.
  - destruct (f x) eqn:Hx.
    + left. now constructor.
    + right. exists [], x, l. repeat split; auto.
  - destruct (f x) eqn:Hx.
    + right. exists (x :: pre), y, post. repeat split; auto.
    + right. exists [], x, (pre ++ y :: post). repeat split; auto.
Qed.

(** ** The scenarios of the two services *)


(** ** The chatbot *)

(** C8: the application registers one route, [POST /chat], and listens on
    port 5001; the supervisor checks Chatbot at port 5000 under [/health],
    a path that no rule of the URL map matches, whatever the method. *)
Theorem chatbot_has_no_health_route :
  routes = [ {| rule := Exact "/chat"; methods := ["POST"%string];
                endpoint := "chat" |} ]
  /\ List.length routes = 1%nat
  /\ run_port = 5001
  /\ (exists s,
        nth_error services_to_start 0 = Some s
        /\ name s = "Chatbot"%string
        /\ url s = "http://localhost:5000/health"%string
        /\ url_port (url s) = Some 5000
        /\ url_port (url s) <> Some run_port
        /\ url_path (url s) = "/health"%string
        /\ forall method, dispatch url_map method (url_path (url s)) = NotFound)
  /\ dispatch url_map "POST" "/chat" = Handled "chat".
Proof.
  repeat split.
  eexists. repeat split; try reflexivity.
  vm_compute. discriminate.
Qed.




(** * Further properties of the supervisor *)

(** ** Runs without Ctrl+C *)

Section Uninterrupted.

Variable w : World.

Lemma runs_print_urls services :
  runs (print_urls services) tt 0
    (map (fun s => EPrint ("  " ++ name s ++ ": "
                          ++ str_replace (url s) "/health" "")%string)
       services).
Proof.
  induction services as [|s rest IH]; simpl; [apply runs_ret|].
  eapply runs_eq; [eapply runs_bind; [apply runs_print | exact IH] | |];
    reflexivity.
Qed.

Lemma runs_announce services :
  exists evs, runs (announce services) tt 0 evs.
Proof.
  eexists. unfold announce. eapply runs_eq.
  - eapply runs_bind; [apply runs_print|].
    eapply runs_bind; [apply runs_print|].
    eapply runs_bind; [apply runs_print_urls | apply runs_print].
  - reflexivity.
  - reflexivity.
Qed.


End Uninterrupted.


(** ** What a verdict of check_service tells *)

Lemma requested_print line : requested [EPrint line] = [].
Proof. reflexivity. Qed.

Lemma slept_app a b : slept (a ++ b) = slept a ++ slept b.
Proof.
  induction a as [|[l|c d o|t|z|p] a IH]; simpl; auto. now rewrite IH.
Qed.

Lemma ret_Ok {A} (a b : A) st st' : ret a st = Ok b st' -> a = b /\ st = st'.
Proof. intros [= -> ->]. now split. Qed.

Section Verdict.

Variable w : World.

Lemma get_Ok a target st r st' :
  requests_get a target st = Ok r st' ->
  r = reply a /\ trace st' = trace st ++ [EGet target]
  /\ now st' = now st + cost a.
Proof.
  intros H. unfold requests_get in H.
  apply bind_Ok in H as (u & st1 & He & Hr).
  apply ret_Ok in Hr as [<- <-]. apply effect_Ok in He as [Ht Hn]. auto.
Qed.

(** The loop gives up only when the timeout has passed. *)
Lemma poll_false script target service_name timeout start_time :
  forall st st',
    poll w script target service_name timeout start_time st = Ok false st' ->
    timeout * ticks_per_second w <= now st' - start_time.
Proof.
  induction script as [|a rest IH]; intros st st' H; simpl poll in H;
    rewrite bind_time_time in H;
    destruct (Z.ltb_spec (now st - start_time)
                (timeout * ticks_per_second w)) as [Hlt|Hge];
    try discriminate;
    try (apply bind_Ok in H as (u & st1 & Hp & Hr);
         apply ret_Ok in Hr as [_ <-]; apply effect_Ok in Hp as [_ Hn];
         lia).
  apply bind_Ok in H as (r & st1 & Hg & H).
  apply get_Ok in Hg as (-> & _ & _).
  destruct (reply a) as [code| |e].
  - destruct (code =? 200); [|now apply IH in H].
    apply bind_Ok in H as (u & st2 & _ & Hr). now apply ret_Ok in Hr.
  - apply bind_Ok in H as (u & st2 & _ & H). now apply IH in H.
  - apply bind_Ok in H as (u & st2 & _ & H).
    apply bind_Ok in H as (u' & st3 & _ & H). now apply IH in H.
Qed.

(** X3: [check_service] never reports a failure early: when it returns
    False, at least [timeout] seconds have passed since the call. *)
Theorem check_service_false_only_after_timeout
    (target service_name : string) (timeout : Z) (st st' : State) :
  check_service w target service_name timeout st = Ok false st' ->
  timeout * ticks_per_second w <= now st' - now st.
Proof.
  intros H. unfold check_service in H. rewrite bind_time_time in H.
  apply bind_Ok in H as (u & st1 & _ & H). now apply poll_false in H.
Qed.

(** The loop says True at the first reply with status 200, having made one
    request for it and one for each reply before it. *)
Lemma poll_true script target service_name timeout start_time :
  forall st st',
    poll w script target service_name timeout start_time st = Ok true st' ->
    exists n a evs,
      nth_error script n = Some a
      /\ reply a = Status 200
      /\ (forall i b, (i < n)%nat -> nth_error script i = Some b ->
                      reply b <> Status 200)
      /\ trace st' = trace st ++ evs
      /\ requested evs = repeat target (S n).
Proof.
  induction script as [|a rest IH]; intros st st' H; simpl poll in H;
    rewrite bind_time_time in H;
    destruct (Z.ltb_spec (now st - start_time)
                (timeout * ticks_per_second w)) as [Hlt|Hge];
    try discriminate;
    try (apply bind_Ok in H as (u & st1 & Hp & Hr);
         now apply ret_Ok in Hr).
  apply bind_Ok in H as (r & st1 & Hg & H).
  apply get_Ok in Hg as (-> & Hg & _).
  assert (Hstep : forall st2 evs0,
             trace st2 = trace st1 ++ evs0 -> requested evs0 = [] ->
             reply a <> Status 200 ->
             poll w rest target service_name timeout start_time st2
             = Ok true st' ->
             exists n b evs,
               nth_error (a :: rest) n = Some b
               /\ reply b = Status 200
               /\ (forall i c, (i < n)%nat ->
                     nth_error (a :: rest) i = Some c ->
                     reply c <> Status 200)
               /\ trace st' = trace st ++ evs
               /\ requested evs = repeat target (S n)).
  { intros st2 evs0 Ht Hr Ha Hp.
    apply IH in Hp as (n & b & evs & Hn & Hb & Hmin & Hevs & Hreq).
    exists (S n), b, ([EGet target] ++ evs0 ++ evs).
    split; [exact Hn|]. split; [exact Hb|]. split; [|split].
    - intros [|i] c Hi Hc; simpl in Hc.
      + now injection Hc as <-.
      + apply (Hmin i c); [lia | exact Hc].
    - rewrite Hevs, Ht, Hg. now rewrite <- !app_assoc.
    - rewrite !requested_app, Hr, Hreq. reflexivity. }
  destruct (reply a) as [code| |e] eqn:Ha.
  - destruct (Z.eqb_spec code 200) as [->|Hne].
    + apply bind_Ok in H as (u & st2 & Hp & Hr).
      apply ret_Ok in Hr as [_ <-]. apply effect_Ok in Hp as [Hp _].
      exists O, a, [EGet target; EPrint ("✓ " ++ service_name
                                         ++ " is running")%string].
      split; [reflexivity|]. split; [exact Ha|]. split; [|split].
      * intros i b Hi. lia.
      * rewrite Hp, Hg. now rewrite <- app_assoc.
      * reflexivity.
    + apply (Hstep st1 []); auto.
      * now rewrite app_nil_r.
      * intros [= E]. contradiction.
  - apply bind_Ok in H as (u & st2 & Hs & H).
    apply effect_Ok in Hs as [Hs _].
    apply (Hstep st2 [ESleep 2]); auto. discriminate.
  - apply bind_Ok in H as (u & st2 & Hp & H).
    apply bind_Ok in H as (u' & st3 & Hs & H).
    apply effect_Ok in Hp as [Hp _]. apply effect_Ok in Hs as [Hs _].
    apply (Hstep st3 [EPrint ("An error occurred while checking "
                              ++ service_name ++ ": " ++ e)%string;
                      ESleep 2]); auto.
    + rewrite Hs, Hp. now rewrite <- app_assoc.
    + discriminate.
Qed.

(** X4: [check_service] returns True only for a reply with status 200, and
    at the first one: every reply before it had another status or was an
    exception, and the requests made are one for each of them and one for
    the 200. *)
Theorem check_service_true_at_first_200
    (target service_name : string) (timeout : Z) (st st' : State) :
  check_service w target service_name timeout st = Ok true st' ->
  exists n a evs,
    nth_error (http w target) n = Some a
    /\ reply a = Status 200
    /\ (forall i b, (i < n)%nat -> nth_error (http w target) i = Some b ->
                    reply b <> Status 200)
    /\ trace st' = trace st ++ evs
    /\ requested evs = repeat target (S n).
Proof.
  intros H. unfold check_service in H. rewrite bind_time_time in H.
  apply bind_Ok in H as (u & st1 & Hp & H). apply effect_Ok in Hp as [Hp _].
  apply poll_true in H as (n & a & evs & Hn & Ha & Hmin & Hevs & Hreq).
  exists n, a, ([EPrint ("Checking " ++ service_name ++ " at " ++ target
                         ++ "...")%string] ++ evs).
  split; [exact Hn|]. split; [exact Ha|]. split; [exact Hmin|]. split.
  - rewrite Hevs, Hp. now rewrite <- app_assoc.
  - rewrite requested_app, Hreq. reflexivity.
Qed.


End Verdict.

Lemma check_service_false_only_after_timeout_witness :
  30 * ticks_per_second deaf_backend_world
  <= now (final_state
            (check_service deaf_backend_world "http://localhost:8080/health"
               "Backend" 30 fresh))
     - now fresh.
Proof.
  apply (check_service_false_only_after_timeout deaf_backend_world
           "http://localhost:8080/health" "Backend" 30 fresh).
  vm_compute. reflexivity.
Defined.

Lemma check_service_true_at_first_200_witness :
  exists n a evs,
    nth_error (http warming_world "http://localhost:5000/health") n = Some a
    /\ reply a = Status 200
    /\ (forall i b, (i < n)%nat ->
          nth_error (http warming_world "http://localhost:5000/health") i
          = Some b ->
          reply b <> Status 200)
    /\ trace (final_state
                (check_service warming_world "http://localhost:5000/health"
                   "Chatbot" 30 fresh))
       = trace fresh ++ evs
    /\ requested evs = repeat "http://localhost:5000/health"%string (S n).
Proof.
  apply (check_service_true_at_first_200 warming_world
           "http://localhost:5000/health" "Chatbot" 30 fresh).
  vm_compute. reflexivity.
Defined.


(** ** Where the time of check_service goes *)

Section Account.

Variable w : World.

Lemma accounted_none script target st st' line :
  trace st' = trace st ++ [EPrint line] ->
  now st' = now st + 0 ->
  accounted w script target 0 st st'.
Proof.
  intros Ht Hn. split; [lia|]. exists [EPrint line].
  cbn [firstn filter List.length total_cost repeat Z.of_nat].
  repeat split; auto. lia.
Qed.

Lemma accounted_next a rest target n st st1 st2 st' mid :
  trace st1 = trace st ++ [EGet target] ->
  now st1 = now st + cost a ->
  trace st2 = trace st1 ++ mid ->
  requested mid = [] ->
  slept mid = (if raised a then [2] else []) ->
  now st2 = now st1 + (if raised a then 2 * ticks_per_second w else 0) ->
  accounted w rest target n st2 st' ->
  accounted w (a :: rest) target (S n) st st'.
Proof.
  intros Ht1 Hn1 Ht2 Hreq Hsl Hn2 (Hle & evs & Ht & Hr & Hs & Hn).
  split; [simpl; lia|].
  exists ([EGet target] ++ mid ++ evs).
  cbn [firstn filter total_cost].
  split; [|split; [|split]].
  - rewrite Ht, Ht2, Ht1. now rewrite <- !app_assoc.
  - rewrite !requested_app, Hreq, Hr. reflexivity.
  - rewrite !slept_app, Hsl, Hs. now destruct (raised a).
  - destruct (raised a); cbn [List.length]; [rewrite Nat2Z.inj_succ|]; lia.
Qed.

Lemma poll_accounted script target service_name timeout start_time :
  forall st b st',
    poll w script target service_name timeout start_time st = Ok b st' ->
    exists n, accounted w script target n st st'.
Proof.
  induction script as [|a rest IH]; intros st b st' H; simpl poll in H;
    rewrite bind_time_time in H;
    destruct (Z.ltb_spec (now st - start_time)
                (timeout * ticks_per_second w)) as [Hlt|Hge];
    try discriminate;
    try (apply bind_Ok in H as (u & st1 & Hp & Hr);
         apply ret_Ok in Hr as [_ <-]; apply effect_Ok in Hp as [Ht Hn];
         exists O; eapply accounted_none; eassumption).
  apply bind_Ok in H as (r & st1 & Hg & H).
  apply get_Ok in Hg as (-> & Ht1 & Hn1).
  destruct (reply a) as [code| |e] eqn:Ha.
  - destruct (code =? 200).
    + apply bind_Ok in H as (u & st2 & Hp & Hr).
      apply ret_Ok in Hr as [_ <-]. apply effect_Ok in Hp as [Ht2 Hn2].
      exists 1%nat.
      apply (accounted_next a rest target 0 st st1 st1 st2 []); auto.
      * now rewrite app_nil_r.
      * unfold raised. now rewrite Ha.
      * unfold raised. rewrite Ha. lia.
      * eapply accounted_none; eassumption.
    + apply IH in H as (n & Hacc). exists (S n).
      apply (accounted_next a rest target n st st1 st1 st' []); auto.
      * now rewrite app_nil_r.
      * unfold raised. now rewrite Ha.
      * unfold raised. rewrite Ha. lia.
  - apply bind_Ok in H as (u & st2 & Hs & H).
    apply effect_Ok in Hs as [Ht2 Hn2].
    apply IH in H as (n & Hacc). exists (S n).
    apply (accounted_next a rest target n st st1 st2 st' [ESleep 2]); auto.
    + unfold raised. now rewrite Ha.
    + unfold raised. now rewrite Ha.
  - apply bind_Ok in H as (u & st2 & Hp & H).
    apply bind_Ok in H as (u' & st3 & Hs & H).
    apply effect_Ok in Hp as [Htp Hnp]. apply effect_Ok in Hs as [Ht2 Hn2].
    apply IH in H as (n & Hacc). exists (S n).
    apply (accounted_next a rest target n st st1 st3 st'
             [EPrint ("An error occurred while checking " ++ service_name
                      ++ ": " ++ e)%string; ESleep 2]); auto.
    + rewrite Ht2, Htp. now rewrite <- app_assoc.
    + unfold raised. now rewrite Ha.
    + unfold raised. rewrite Ha. lia.
Qed.

(** X6: whenever [check_service] returns, it has slept two seconds once
    for every attempt that ended in an exception and not at all after an
    attempt that got a response, whatever its status; the time the call took
    is the time of its requests plus those sleeps. *)
Theorem check_service_sleeps_once_per_exception
    (target service_name : string) (timeout : Z) (st : State) (b : bool)
    (st' : State) :
  check_service w target service_name timeout st = Ok b st' ->
  exists n evs,
    (n <= List.length (http w target))%nat
    /\ trace st' = trace st ++ evs
    /\ requested evs = repeat target n
    /\ slept evs
       = repeat 2 (List.length (filter raised (firstn n (http w target))))
    /\ now st' - now st
       = total_cost (firstn n (http w target))
         + Z.of_nat (List.length (filter raised (firstn n (http w target))))
           * (2 * ticks_per_second w).
Proof.
  intros H. unfold check_service in H. rewrite bind_time_time in H.
  apply bind_Ok in H as (u & st1 & Hp & H). apply effect_Ok in Hp as [Ht1 Hn1].
  apply poll_accounted in H as (n & Hle & evs & Ht & Hr & Hs & Hn).
  exists n, ([EPrint ("Checking " ++ service_name ++ " at " ++ target
                      ++ "...")%string] ++ evs).
  split; [exact Hle|]. split; [|split; [|split]].
  - rewrite Ht, Ht1. now rewrite <- app_assoc.
  - rewrite requested_app, Hr. reflexivity.
  - rewrite slept_app, Hs. reflexivity.
  - lia.
Qed.

End Account.

Lemma check_service_sleeps_once_per_exception_witness :
  exists n evs,
    (n <= List.length (http warming_world "http://localhost:5000/health"))%nat
    /\ trace (final_state
                (check_service warming_world "http://localhost:5000/health"
                   "Chatbot" 30 fresh))
       = trace fresh ++ evs
    /\ requested evs = repeat "http://localhost:5000/health"%string n
    /\ slept evs
       = repeat 2
           (List.length
              (filter raised
                 (firstn n
                    (http warming_world "http://localhost:5000/health"))))
    /\ now (final_state
              (check_service warming_world "http://localhost:5000/health"
                 "Chatbot" 30 fresh))
       - now fresh
       = total_cost
           (firstn n (http warming_world "http://localhost:5000/health"))
         + Z.of_nat
             (List.length
                (filter raised
                   (firstn n
                      (http warming_world "http://localhost:5000/health"))))
           * (2 * ticks_per_second warming_world).
Proof.
  apply (check_service_sleeps_once_per_exception warming_world
           "http://localhost:5000/health" "Chatbot" 30 fresh true).
  vm_compute. reflexivity.
Defined.

(** ** Runs that Ctrl+C cuts short *)

Lemma raises_ret {A} (a : A) Q : raises (ret a) Q.
Proof. intros st e st' H. discriminate H. Qed.

Lemma raises_unfinished {A} Q : raises (@unfinished A) Q.
Proof. intros st e st' H. discriminate H. Qed.

Lemma raises_effect ev dt (Q : list Event -> Prop) :
  Q [] -> raises (effect ev dt) Q.
Proof.
  intros HQ st e st' H. apply effect_Raise in H.
  exists []. now rewrite app_nil_r.
Qed.

Lemma raises_bind {A B} (m : M A) (f : A -> M B) P Q1 Q2
    (Q : list Event -> Prop) :
  yields m P ->
  raises m Q1 ->
  (forall a, raises (f a) (Q2 a)) ->
  (forall e1, Q1 e1 -> Q e1) ->
  (forall a e1 e2, P a e1 -> Q2 a e2 -> Q (e1 ++ e2)) ->
  raises (bind m f) Q.
Proof.
  intros Hy Hr Hf H1 H2 st e st' H. unfold bind in H.
  destruct (m st) as [a st1|e1 st1|] eqn:E; [| |discriminate].
  - apply Hy in E as (ev1 & E1 & P1). apply Hf in H as (ev2 & E2 & P2).
    exists (ev1 ++ ev2). split; [now rewrite E2, E1, app_assoc|].
    now apply (H2 a).
  - injection H as <- <-. apply Hr in E as (ev1 & E1 & P1).
    exists ev1. auto.
Qed.

Lemma raises_weaken {A} (m : M A) (Q Q' : list Event -> Prop) :
  raises m Q -> (forall evs, Q evs -> Q' evs) -> raises m Q'.
Proof.
  intros Hm HQ st e st' H. apply Hm in H as (evs & E & HP).
  exists evs. auto.
Qed.

Lemma raises_time_bind {A} (f : Z -> M A) Q :
  (forall t, raises (f t) Q) -> raises (bind time_time f) Q.
Proof. intros Hf st e st' H. rewrite bind_time_time in H. now apply Hf in H. Qed.

(** A computation that starts and terminates nothing in front of one
    that may do so. *)
Lemma raises_after_quiet {A B} (m : M A) (f : A -> M B)
    (Q : list Event -> Prop) :
  quietly m ->
  hushed m ->
  (forall a, raises (f a) Q) ->
  (forall e1, silent e1 -> Q e1) ->
  (forall e1 e2, silent e1 -> Q e2 -> Q (e1 ++ e2)) ->
  raises (bind m f) Q.
Proof.
  intros Hy Hr Hf H1 H2.
  apply raises_bind with
    (P := fun _ evs => silent evs) (Q1 := silent) (Q2 := fun _ => Q);
    [exact Hy | exact Hr | exact Hf | exact H1 |].
  intros a e1 e2. apply H2.
Qed.

Lemma hushed_bind {A B} (m : M A) (f : A -> M B) :
  quietly m -> hushed m -> (forall a, hushed (f a)) -> hushed (bind m f).
Proof.
  intros Hy Hr Hf. apply raises_after_quiet; auto.
  intros; now apply silent_app.
Qed.

Lemma hushed_effect ev dt : hushed (effect ev dt).
Proof. apply raises_effect, silent_nil. Qed.

Lemma hushed_ret {A} (a : A) : hushed (ret a).
Proof. apply raises_ret. Qed.

Lemma hushed_get a target : hushed (requests_get a target).
Proof.
  unfold requests_get. eapply raises_bind with
    (P := fun _ _ => True) (Q2 := fun _ _ => False);
    [|apply hushed_effect | intros; apply raises_ret | auto | intros; tauto].
  intros st u st' H. apply effect_Ok in H as [H _]. eauto.
Qed.

Lemma hushed_poll w script target service_name timeout start_time :
  hushed (poll w script target service_name timeout start_time).
Proof.
  induction script as [|a rest IH]; simpl; apply raises_time_bind; intros t;
    destruct (t - start_time <? timeout * ticks_per_second w);
    try apply raises_unfinished;
    try (apply hushed_bind;
         [apply quietly_print | apply hushed_effect
         | intros; apply hushed_ret]).
  apply hushed_bind; [apply quietly_get | apply hushed_get|].
  intros [code| |e].
  - destruct (code =? 200); [|exact IH].
    apply hushed_bind;
      [apply quietly_print | apply hushed_effect | intros; apply hushed_ret].
  - apply hushed_bind;
      [apply quietly_sleep | apply hushed_effect | intros; exact IH].
  - apply hushed_bind; [apply quietly_print | apply hushed_effect | intros].
    apply hushed_bind;
      [apply quietly_sleep | apply hushed_effect | intros; exact IH].
Qed.

Lemma hushed_check_service w target service_name timeout :
  hushed (check_service w target service_name timeout).
Proof.
  unfold check_service. apply raises_time_bind; intros t.
  apply hushed_bind;
    [apply quietly_print | apply hushed_effect | intros; apply hushed_poll].
Qed.

Lemma hushed_probe_loop w todo : hushed (probe_loop w todo).
Proof.
  induction todo as [|s rest IH]; simpl; [apply hushed_ret|].
  apply hushed_bind;
    [apply quietly_check_service | apply hushed_check_service|].
  intros [|]; [exact IH | apply hushed_ret].
Qed.

Lemma hushed_print_urls services : hushed (print_urls services).
Proof.
  induction services as [|s rest IH]; simpl; [apply hushed_ret|].
  apply hushed_bind;
    [apply quietly_print | apply hushed_effect | intros; exact IH].
Qed.

Lemma hushed_announce services : hushed (announce services).
Proof.
  unfold announce.
  apply hushed_bind; [apply quietly_print | apply hushed_effect | intros].
  apply hushed_bind; [apply quietly_print | apply hushed_effect | intros].
  apply hushed_bind;
    [apply quietly_print_urls | apply hushed_print_urls | intros].
  apply hushed_effect.
Qed.

Lemma prefix_of_nil {A} (l : list A) : prefix_of [] l.
Proof. now exists l. Qed.

Lemma prefix_of_firstn {A B} (f : A -> B) k (l : list A) :
  prefix_of (map f (firstn k l)) (map f l).
Proof.
  exists (map f (skipn k l)). now rewrite <- map_app, firstn_skipn.
Qed.

Lemma stops_only_started_silent evs : silent evs -> stops_only_started evs.
Proof. intros [L T]. unfold stops_only_started. rewrite T. apply prefix_of_nil. Qed.

Lemma stops_only_started_prefix e1 e2 :
  silent e1 -> stops_only_started e2 -> stops_only_started (e1 ++ e2).
Proof.
  intros H1 H2. destruct (silent_prefix e1 e2 H1) as [L T].
  unfold stops_only_started. now rewrite L, T.
Qed.

Section CutShort.

Variable w : World.

Lemma yields_Popen cmd cwd :
  yields (Popen w cmd cwd)
    (fun r evs =>
       terminated evs = [] /\
       launched evs = match r with inl p => [p] | inr _ => [] end).
Proof.
  unfold Popen.
  eapply yields_bind with
    (P := fun _ evs =>
       evs = [EPopen cmd cwd
                match popen w cmd cwd with
                | inl p => Some p
                | inr _ => None
                end])
    (Q := fun _ r evs => evs = [] /\ r = popen w cmd cwd).
  - now apply yields_effect.
  - intros u. now apply yields_ret.
  - intros u r e1 e2 -> [-> ->]. now destruct (popen w cmd cwd).
Qed.

Lemma hushed_Popen cmd cwd : hushed (Popen w cmd cwd).
Proof.
  unfold Popen. eapply raises_bind with
    (P := fun _ _ => True) (Q2 := fun _ _ => False);
    [|apply hushed_effect | intros; apply raises_ret | auto | intros; tauto].
  intros st u st' H. apply effect_Ok in H as [H _]. eauto.
Qed.

Lemma hushed_start_service cmd cwd service_name :
  hushed (start_service w cmd cwd service_name).
Proof.
  unfold start_service.
  apply hushed_bind; [apply quietly_print | apply hushed_effect | intros _].
  apply raises_bind with
    (P := fun r evs =>
       terminated evs = [] /\
       launched evs = match r with inl p => [p] | inr _ => [] end)
    (Q1 := silent)
    (Q2 := fun (r : Process + string) evs =>
       match r with inl _ => False | inr _ => silent evs end);
    [apply yields_Popen | apply hushed_Popen | | auto |].
  - intros [p|e]; [apply raises_ret|].
    apply hushed_bind;
      [apply quietly_print | apply hushed_effect | intros; apply hushed_ret].
  - intros [p|e] e1 e2 [T1 L1] H2; [contradiction|].
    apply silent_app; [now split | exact H2].
Qed.

Lemma raises_terminate_loop processes :
  raises (terminate_loop processes)
    (fun evs => exists k, evs = stops (firstn k processes)).
Proof.
  induction processes as [|p rest IH]; simpl; [apply raises_ret|].
  apply raises_bind with
    (P := fun _ evs => evs = [ETerminate (process p)])
    (Q1 := fun evs => evs = [])
    (Q2 := fun _ evs => exists k, evs = stops (firstn k rest)).
  - now apply yields_effect.
  - now apply raises_effect.
  - intros _. exact IH.
  - intros e1 ->. now exists O.
  - intros _ e1 e2 -> [k ->]. now exists (S k).
Qed.

Lemma partly_stopped_silent processes evs :
  silent evs -> partly_stopped processes evs.
Proof. intros [L T]. split; [exact L|]. exists O. now rewrite T. Qed.

Lemma partly_stopped_prefix processes e1 e2 :
  silent e1 -> partly_stopped processes e2 ->
  partly_stopped processes (e1 ++ e2).
Proof.
  intros H1 [L2 [k T2]]. destruct (silent_prefix e1 e2 H1) as [L T].
  split; [now rewrite L|]. exists k. now rewrite T.
Qed.

(** [terminate_loop processes] followed by something that starts and
    terminates nothing. *)
Lemma raises_teardown {A} processes (m : M A) :
  hushed m ->
  raises (terminate_loop processes ;; m) (partly_stopped processes).
Proof.
  intros Hm.
  apply raises_bind with
    (P := fun _ evs => evs = stops processes)
    (Q1 := fun evs => exists k, evs = stops (firstn k processes))
    (Q2 := fun _ => silent).
  - apply yields_terminate_loop.
  - apply raises_terminate_loop.
  - intros _. exact Hm.
  - intros e1 [k ->]. split; [apply launched_stops|].
    exists k. apply terminated_stops.
  - intros _ e1 e2 -> H2.
    destruct (silent_suffix (stops processes) e2 H2) as [L T].
    split; [now rewrite L, launched_stops|].
    exists (List.length processes).
    now rewrite T, terminated_stops, firstn_all.
Qed.

Lemma raises_launch_loop todo : forall processes,
  raises (launch_loop w todo processes)
    (fun evs =>
       prefix_of (terminated evs) (map process processes ++ launched evs)).
Proof.
  induction todo as [|s rest IH]; intros processes; simpl;
    [apply raises_ret|].
  apply raises_bind with
    (P := fun r evs =>
       terminated evs = [] /\
       launched evs = match r with Some p => [p] | None => [] end)
    (Q1 := silent)
    (Q2 := fun o evs =>
       match o with
       | Some p =>
           prefix_of (terminated evs)
             ((map process processes ++ [p]) ++ launched evs)
       | None => partly_stopped processes evs
       end).
  - apply yields_start_service.
  - apply hushed_start_service.
  - intros [p|].
    + eapply raises_weaken; [apply IH|].
      intros evs. now rewrite map_app.
    + apply raises_teardown.
      apply hushed_bind;
        [apply quietly_print | apply hushed_effect | intros; apply hushed_ret].
  - intros e1 [_ T]. rewrite T. apply prefix_of_nil.
  - intros [p|] e1 e2 [T1 L1]; rewrite terminated_app, launched_app, T1, L1;
      simpl.
    + intros [r E]. exists r. rewrite <- E, <- app_assoc. reflexivity.
    + intros [L2 [k T2]]. rewrite L2, T2, app_nil_r.
      apply prefix_of_firstn.
Qed.

Lemma raises_startAll services :
  raises (startAll w services) stops_only_started.
Proof.
  unfold startAll.
  apply raises_after_quiet;
    [apply quietly_print | apply hushed_effect | intros _
    | apply stops_only_started_silent | apply stops_only_started_prefix].
  apply raises_after_quiet;
    [apply quietly_print | apply hushed_effect | intros _
    | apply stops_only_started_silent | apply stops_only_started_prefix].
  apply raises_bind with
    (P := fun r evs =>
       match r with
       | inr processes' =>
           terminated evs = [] /\
           map process processes' = map process [] ++ launched evs
       | inl _ => terminated evs = map process [] ++ launched evs
       end)
    (Q1 := fun evs =>
       prefix_of (terminated evs) (map process [] ++ launched evs))
    (Q2 := fun (r : string + list PInfo) evs =>
       match r with inl _ => False | inr _ => silent evs end).
  - apply (yields_launch_loop w services []).
  - apply (raises_launch_loop services []).
  - intros [n|processes]; [apply raises_ret|].
    apply hushed_bind; [apply quietly_print | apply hushed_effect | intros _].
    apply hushed_bind; [apply quietly_print | apply hushed_effect | intros _].
    apply hushed_bind;
      [apply quietly_probe_loop | apply hushed_probe_loop
      | intros; apply hushed_ret].
  - intros e1 H. exact H.
  - intros [n|processes] e1 e2 H1 H2; [contradiction|].
    destruct H1 as [T1 _]. destruct (silent_suffix e1 e2 H2) as [L T].
    unfold stops_only_started. rewrite T, T1. apply prefix_of_nil.
Qed.

Lemma effect_interrupted ev dt st x st' :
  effect ev dt st = Raise x st' -> x = KeyboardInterrupt.
Proof.
  unfold effect. destruct (sigint st) as [[|k]|]; try discriminate.
  now intros [= <- _].
Qed.

Lemma idle_wait_interrupt fuel : forall st x st',
  idle_wait w fuel st = Raise x st' -> x = KeyboardInterrupt.
Proof.
  induction fuel as [|k IH]; intros st x st' H; simpl in H; [discriminate|].
  unfold bind in H.
  destruct (time_sleep w 1 st) as [u st1|x1 st1|] eqn:E; try discriminate.
  - now apply IH in H.
  - injection H as <- _. now apply effect_interrupted in E.
Qed.

Lemma raises_try_idle (Q' Q : list Event -> Prop) fuel (h : M unit) :
  raises h Q' ->
  (forall e1 e2, silent e1 -> Q' e2 -> Q (e1 ++ e2)) ->
  raises (try_except (idle_wait w fuel) h) Q.
Proof.
  intros Hh HQ st e st' H. unfold try_except in H.
  destruct (idle_wait w fuel st) as [u st1|x st1|] eqn:E; try discriminate.
  pose proof (idle_wait_interrupt _ _ _ _ E) as ->.
  apply idle_wait_Raise in E as (e1 & E1 & S1).
  apply Hh in H as (e2 & E2 & P2).
  exists (e1 ++ e2). split; [now rewrite E2, E1, app_assoc | auto].
Qed.

Lemma raises_main_with services fuel :
  raises (main_with w services fuel) stops_only_started.
Proof.
  unfold main_with.
  apply raises_bind with
    (P := startAll_post)
    (Q1 := stops_only_started)
    (Q2 := fun r evs =>
       match r with
       | Aborted _ => False
       | Probed processes _ => partly_stopped processes evs
       end).
  - apply yields_startAll.
  - apply raises_startAll.
  - intros [n|processes all_ready]; [apply raises_ret|].
    apply raises_after_quiet;
      [apply quietly_print | apply hushed_effect | intros _
      | apply partly_stopped_silent | apply partly_stopped_prefix].
    destruct all_ready.
    + apply raises_after_quiet;
        [apply quietly_announce | apply hushed_announce | intros _
        | apply partly_stopped_silent | apply partly_stopped_prefix].
      apply raises_try_idle with (Q' := partly_stopped processes);
        [|apply partly_stopped_prefix].
      apply raises_after_quiet;
        [apply quietly_print | apply hushed_effect | intros _
        | apply partly_stopped_silent | apply partly_stopped_prefix].
      apply raises_teardown, hushed_effect.
    + apply raises_after_quiet;
        [apply quietly_print | apply hushed_effect | intros _
        | apply partly_stopped_silent | apply partly_stopped_prefix].
      apply raises_after_quiet;
        [apply quietly_print | apply hushed_effect | intros _
        | apply partly_stopped_silent | apply partly_stopped_prefix].
      eapply raises_weaken; [apply raises_terminate_loop|].
      intros evs [k ->]. split; [apply launched_stops|].
      exists k. apply terminated_stops.
  - auto.
  - intros [n|processes b] e1 e2 H1 H2; [contradiction|].
    destruct H1 as [T1 H1], H2 as [L2 [k T2]].
    unfold stops_only_started.
    rewrite terminated_app, launched_app, T1, L2, T2, app_nil_r, <- H1.
    apply prefix_of_firstn.
Qed.

(** X7: when Ctrl+C cuts [main] short, at whatever point, the
    [terminate()] calls made until then went to processes [main] had
    started, each once and in the order of their start; no process that was
    not started is ever sent [terminate()]. *)
Theorem interrupted_main_stops_only_what_it_started
    (services : list Service) (fuel : nat) (st : State) (e : Exn)
    (st' : State) :
  main_with w services fuel st = Raise e st' ->
  exists evs,
    trace st' = trace st ++ evs
    /\ exists rest, launched evs = terminated evs ++ rest.
Proof. intros H. exact (raises_main_with services fuel st e st' H). Qed.

End CutShort.

Lemma interrupted_main_stops_only_what_it_started_witness :
  exists evs,
    trace (final_state (main deaf_backend_world 50 (interrupted_at 49)))
    = trace (interrupted_at 49) ++ evs
    /\ exists rest, launched evs = terminated evs ++ rest.
Proof.
  apply (interrupted_main_stops_only_what_it_started deaf_backend_world
           services_to_start 50 (interrupted_at 49) KeyboardInterrupt).
  vm_compute. reflexivity.
Defined.

(** ** The order of launches and health checks, whatever cuts the run *)

Section Always.

Variable S : list Event -> Prop.
Hypothesis S_nil : S [].
Hypothesis S_app : forall a b, S a -> S b -> S (a ++ b).

Lemma always_ret {A} (a : A) : always S (ret a).
Proof. split; [now apply yields_ret | apply raises_ret]. Qed.

Lemma always_unfinished {A} : always S (@unfinished A).
Proof. split; [apply yields_unfinished | apply raises_unfinished]. Qed.

Lemma always_effect ev dt : S [ev] -> always S (effect ev dt).
Proof. intros H. split; [now apply yields_effect | now apply raises_effect]. Qed.

Lemma always_bind {A B} (m : M A) (f : A -> M B) :
  always S m -> (forall a, always S (f a)) -> always S (bind m f).
Proof.
  intros [Hy Hr] Hf. split.
  - apply yields_bind with
      (P := fun _ evs => S evs) (Q := fun _ _ evs => S evs);
      [exact Hy | intros a; apply Hf | intros; now apply S_app].
  - apply raises_bind with
      (P := fun _ evs => S evs) (Q1 := S) (Q2 := fun _ => S);
      [exact Hy | exact Hr | intros a; apply Hf | auto
      | intros; now apply S_app].
Qed.

Lemma always_time_bind {A} (f : Z -> M A) :
  (forall t, always S (f t)) -> always S (bind time_time f).
Proof.
  intros Hf. split.
  - intros st a st' H. rewrite bind_time_time in H. now apply Hf in H.
  - apply raises_time_bind. intros t. apply Hf.
Qed.

Lemma always_try_except {A} (m h : M A) :
  always S m -> always S h -> always S (try_except m h).
Proof.
  intros [Hmy Hmr] [Hhy Hhr]. split.
  - intros st a st' H. unfold try_except in H.
    destruct (m st) as [a1 st1|[] st1|] eqn:E; try discriminate.
    + injection H as <- <-. now apply Hmy in E.
    + apply Hmr in E as (e1 & E1 & S1). apply Hhy in H as (e2 & E2 & S2).
      exists (e1 ++ e2). split; [now rewrite E2, E1, app_assoc | auto].
  - intros st e st' H. unfold try_except in H.
    destruct (m st) as [a1 st1|[] st1|] eqn:E; try discriminate;
      try (injection H as <- <-; now apply Hmr in E).
    apply Hmr in E as (e1 & E1 & S1). apply Hhr in H as (e2 & E2 & S2).
    exists (e1 ++ e2). split; [now rewrite E2, E1, app_assoc | auto].
Qed.

Hypothesis S_print : forall line, S [EPrint line].
Hypothesis S_sleep : forall seconds, S [ESleep seconds].
Hypothesis S_terminate : forall p, S [ETerminate p].

Lemma always_print line : always S (print line).
Proof. apply always_effect, S_print. Qed.

Lemma always_terminate_loop processes : always S (terminate_loop processes).
Proof.
  induction processes as [|p rest IH]; simpl; [apply always_ret|].
  apply always_bind; [apply always_effect, S_terminate | intros _; exact IH].
Qed.

Lemma always_print_urls services : always S (print_urls services).
Proof.
  induction services as [|s rest IH]; simpl; [apply always_ret|].
  apply always_bind; [apply always_print | intros _; exact IH].
Qed.

Lemma always_announce services : always S (announce services).
Proof.
  unfold announce.
  apply always_bind; [apply always_print | intros _].
  apply always_bind; [apply always_print | intros _].
  apply always_bind; [apply always_print_urls | intros _].
  apply always_print.
Qed.

Lemma always_idle_wait w fuel : always S (idle_wait w fuel).
Proof.
  induction fuel as [|k IH]; simpl; [apply always_unfinished|].
  apply always_bind; [apply always_effect, S_sleep | intros _; exact IH].
Qed.

(** What [main] does once the startup phase is over. *)
Lemma always_after_startup w services fuel processes (all_ready : bool) :
  always S
    (print (nl ++ str_times "=" 50) ;;
     if all_ready then
       announce services ;;
       try_except (idle_wait w fuel)
         (print (nl ++ nl ++ "Stopping services...") ;;
          terminate_loop processes ;;
          print "Services stopped.")
     else
       print "❌ Some services failed to start" ;;
       print "Check the logs above for more information" ;;
       terminate_loop processes).
Proof.
  apply always_bind; [apply always_print | intros _].
  destruct all_ready.
  - apply always_bind; [apply always_announce | intros _].
    apply always_try_except; [apply always_idle_wait|].
    apply always_bind; [apply always_print | intros _].
    apply always_bind; [apply always_terminate_loop | intros _].
    apply always_print.
  - apply always_bind; [apply always_print | intros _].
    apply always_bind; [apply always_print | intros _].
    apply always_terminate_loop.
Qed.

Hypothesis S_get : forall target, S [EGet target].

Lemma always_poll w script target service_name timeout start_time :
  always S (poll w script target service_name timeout start_time).
Proof.
  induction script as [|a rest IH]; simpl; apply always_time_bind; intros t;
    destruct (t - start_time <? timeout * ticks_per_second w);
    try apply always_unfinished;
    try (apply always_bind; [apply always_print | intros; apply always_ret]).
  apply always_bind.
  - unfold requests_get.
    apply always_bind; [apply always_effect, S_get | intros; apply always_ret].
  - intros [code| |e].
    + destruct (code =? 200); [|exact IH].
      apply always_bind; [apply always_print | intros; apply always_ret].
    + apply always_bind; [apply always_effect, S_sleep | intros; exact IH].
    + apply always_bind; [apply always_print | intros].
      apply always_bind; [apply always_effect, S_sleep | intros; exact IH].
Qed.

Lemma always_probe_loop w todo : always S (probe_loop w todo).
Proof.
  induction todo as [|s rest IH]; simpl; [apply always_ret|].
  apply always_bind.
  - unfold check_service. apply always_time_bind; intros t.
    apply always_bind; [apply always_print | intros; apply always_poll].
  - intros [|]; [exact IH | apply always_ret].
Qed.

End Always.

Lemma launched_of_no_popen evs : popen_calls evs = [] -> launched evs = [].
Proof.
  induction evs as [|[l|c d [p|]|t|z|p] evs IH]; simpl; auto; discriminate.
Qed.

Lemma no_popen_nil : no_popen [].
Proof. reflexivity. Qed.

Lemma no_popen_app a b : no_popen a -> no_popen b -> no_popen (a ++ b).
Proof. unfold no_popen. intros Ha Hb. now rewrite popen_calls_app, Ha, Hb. Qed.

Lemma calm_nil : calm [].
Proof. now split. Qed.

Lemma calm_app a b : calm a -> calm b -> calm (a ++ b).
Proof.
  intros [Pa Ra] [Pb Rb]. split.
  - now rewrite popen_calls_app, Pa, Pb.
  - now rewrite requested_app, Ra, Rb.
Qed.

Lemma prefix_of_refl {A} (l : list A) : prefix_of l l.
Proof. exists []. now rewrite app_nil_r. Qed.

Lemma prefix_of_cons {A} (x : A) l1 l2 :
  prefix_of l1 l2 -> prefix_of (x :: l1) (x :: l2).
Proof. intros [r ->]. now exists r. Qed.

Lemma prefix_of_one {A} (x : A) l more :
  prefix_of l [x] -> prefix_of l (x :: more).
Proof.
  intros [r E]. destruct l as [|y l]; [apply prefix_of_nil|].
  injection E as <- E. destruct l; [|discriminate].
  apply prefix_of_cons, prefix_of_nil.
Qed.

Lemma in_order_after services e1 e2 :
  popen_calls e1 = map popen_call services ->
  List.length (launched e1) = List.length services ->
  no_popen e2 ->
  in_order services (e1 ++ e2)
  /\ popen_calls (e1 ++ e2) = map popen_call services
  /\ List.length (launched (e1 ++ e2)) = List.length services.
Proof.
  intros Hp Hl H2. unfold in_order.
  rewrite popen_calls_app, launched_app, H2, (launched_of_no_popen e2 H2),
    !app_nil_r, Hp, Hl.
  repeat split; auto. apply prefix_of_refl.
Qed.

Lemma in_order_calm_prefix services e1 e2 :
  calm e1 -> in_order services e2 -> in_order services (e1 ++ e2).
Proof.
  intros [P1 R1] H2. unfold in_order in *.
  now rewrite popen_calls_app, requested_app, launched_app, P1, R1,
    (launched_of_no_popen e1 P1).
Qed.

Lemma in_order_calm_suffix services e1 e2 :
  in_order services e1 -> calm e2 -> in_order services (e1 ++ e2).
Proof.
  intros H1 [P2 R2]. unfold in_order in *.
  now rewrite popen_calls_app, requested_app, launched_app, P2, R2,
    (launched_of_no_popen e2 P2), !app_nil_r.
Qed.

Section Order.

Variable w : World.

Lemma start_service_Ok cmd cwd service_name :
  yields (start_service w cmd cwd service_name)
    (fun r evs =>
       requested evs = []
       /\ popen_calls evs = [(cmd, cwd)]
       /\ launched evs = match r with Some p => [p] | None => [] end).
Proof.
  intros st r st' H. unfold start_service, Popen in H.
  apply bind_Ok in H as (u1 & st1 & H1 & H).
  apply bind_Ok in H as (r1 & st2 & H2 & H).
  apply bind_Ok in H2 as (u2 & st3 & H2 & H3).
  apply ret_Ok in H3 as [<- <-].
  apply effect_Ok in H1 as [H1 _]. apply effect_Ok in H2 as [H2 _].
  destruct (popen w cmd cwd) as [p|e].
  - apply ret_Ok in H as [<- <-]. eexists. split.
    + rewrite H2, H1, <- app_assoc. reflexivity.
    + now repeat split.
  - apply bind_Ok in H as (u3 & st4 & H3 & H).
    apply ret_Ok in H as [<- <-]. apply effect_Ok in H3 as [H3 _].
    eexists. split.
    + rewrite H3, H2, H1, <- !app_assoc. reflexivity.
    + now repeat split.
Qed.

Lemma start_service_Raise cmd cwd service_name :
  raises (start_service w cmd cwd service_name)
    (fun evs =>
       requested evs = [] /\ prefix_of (popen_calls evs) [(cmd, cwd)]).
Proof.
  unfold start_service, Popen.
  apply raises_bind with
    (P := fun _ evs => calm evs)
    (Q1 := calm)
    (Q2 := fun _ evs =>
       requested evs = [] /\ prefix_of (popen_calls evs) [(cmd, cwd)]).
  - now apply yields_effect.
  - apply raises_effect, calm_nil.
  - intros _.
    apply raises_bind with
      (P := fun (_ : Process + string) evs =>
         requested evs = [] /\ popen_calls evs = [(cmd, cwd)])
      (Q1 := calm)
      (Q2 := fun _ evs => calm evs).
    + apply yields_bind with
        (P := fun _ evs => requested evs = []
                           /\ popen_calls evs = [(cmd, cwd)])
        (Q := fun _ _ evs => evs = []).
      * now apply yields_effect.
      * intros u. now apply yields_ret.
      * intros u r e1 e2 H ->. now rewrite app_nil_r.
    + apply raises_bind with
        (P := fun _ _ => True) (Q1 := calm) (Q2 := fun _ _ => False);
        [|apply raises_effect, calm_nil | intros; apply raises_ret | auto
         | intros; tauto].
      intros st u st' H. apply effect_Ok in H as [H _]. eauto.
    + intros [p|e]; [apply raises_ret|].
      apply (always_bind calm calm_app);
        [apply (always_effect calm calm_nil); now split
         | intros; apply (always_ret calm calm_nil)].
    + intros e1 [P1 R1]. rewrite P1. split; [exact R1 | apply prefix_of_nil].
    + intros _ e1 e2 [R1 P1] [P2 R2].
      rewrite requested_app, popen_calls_app, R1, P1, R2, P2.
      split; [reflexivity | apply prefix_of_refl].
  - intros e1 [P1 R1]. rewrite P1. split; [exact R1 | apply prefix_of_nil].
  - intros _ e1 e2 [P1 R1] [R2 P2].
    now rewrite requested_app, popen_calls_app, R1, P1, R2.
Qed.

(** The rollback of the launch loop. *)
Lemma always_rollback processes line :
  always calm (terminate_loop processes ;; print line).
Proof.
  apply (always_bind calm calm_app).
  - apply (always_terminate_loop calm calm_nil calm_app). now split.
  - intros _. apply (always_effect calm calm_nil). now split.
Qed.

Lemma launch_loop_Ok todo : forall processes,
  yields (launch_loop w todo processes) (launch_post todo).
Proof.
  induction todo as [|s rest IH]; intros processes; simpl.
  - apply yields_ret. repeat split.
  - apply yields_bind with
      (P := fun r evs =>
         requested evs = []
         /\ popen_calls evs = [popen_call s]
         /\ launched evs = match r with Some p => [p] | None => [] end)
      (Q := fun (o : option Process) r evs =>
         match o with
         | Some _ => launch_post rest r evs
         | None => calm evs /\ exists n, r = inl n
         end).
    + apply start_service_Ok.
    + intros [p|]; [apply IH|].
      apply yields_bind with
        (P := fun _ evs => calm evs)
        (Q := fun _ r evs =>
           calm evs /\ exists n : string, r = @inl _ (list PInfo) n).
      * apply (always_terminate_loop calm calm_nil calm_app). now split.
      * intros _.
        apply yields_bind with
          (P := fun _ evs => calm evs)
          (Q := fun _ r evs => evs = [] /\ r = inl (name s)).
        -- apply yields_effect. now split.
        -- intros _. now apply yields_ret.
        -- intros _ r e1 e2 H1 [-> ->]. rewrite app_nil_r. eauto.
      * intros _ r e1 e2 H1 [H2 Hr]. split; [now apply calm_app | exact Hr].
    + intros [p|] r e1 e2 (R1 & P1 & L1).
      * intros [R2 H2]. split; [now rewrite requested_app, R1, R2|].
        rewrite popen_calls_app, launched_app, P1, L1.
        destruct r as [n|ps].
        -- now apply prefix_of_cons.
        -- destruct H2 as [P2 L2]. simpl. now rewrite P2, L2.
      * intros [[P2 R2] [n ->]]. split; [now rewrite requested_app, R1, R2|].
        rewrite popen_calls_app, P1, P2. apply prefix_of_cons, prefix_of_nil.
Qed.

Lemma launch_loop_Raise todo : forall processes,
  raises (launch_loop w todo processes) (launch_cut todo).
Proof.
  induction todo as [|s rest IH]; intros processes; simpl.
  - apply raises_ret.
  - apply raises_bind with
      (P := fun r evs =>
         requested evs = []
         /\ popen_calls evs = [popen_call s]
         /\ launched evs = match r with Some p => [p] | None => [] end)
      (Q1 := fun evs =>
         requested evs = []
         /\ prefix_of (popen_calls evs) [popen_call s])
      (Q2 := fun (o : option Process) evs =>
         match o with
         | Some _ => launch_cut rest evs
         | None => calm evs
         end).
    + apply start_service_Ok.
    + apply start_service_Raise.
    + intros [p|]; [apply IH|].
      apply (always_bind calm calm_app).
      * apply (always_terminate_loop calm calm_nil calm_app). now split.
      * intros _. apply (always_bind calm calm_app);
          [apply (always_effect calm calm_nil); now split
         | intros; apply (always_ret calm calm_nil)].
    + intros e1 [R1 P1]. split; [exact R1 | now apply prefix_of_one].
    + intros [p|] e1 e2 (R1 & P1 & L1).
      * intros [R2 P2]. split; [now rewrite requested_app, R1, R2|].
        rewrite popen_calls_app, P1. now apply prefix_of_cons.
      * intros [P2 R2]. split; [now rewrite requested_app, R1, R2|].
        rewrite popen_calls_app, P1, P2. apply prefix_of_cons, prefix_of_nil.
Qed.

Lemma calm_print line : calm [EPrint line].
Proof. now split. Qed.

Lemma no_popen_probe_loop todo : always no_popen (probe_loop w todo).
Proof.
  apply (always_probe_loop no_popen no_popen_nil no_popen_app);
    intros; reflexivity.
Qed.

Lemma in_order_cut services evs : launch_cut services evs -> in_order services evs.
Proof. intros [R P]. split; [exact P|]. intros H. now rewrite R in H. Qed.

(** The part of the startup phase from the launch loop on. *)
Lemma launch_and_probe_Ok services :
  yields
    (launched <- launch_loop w services [] ;;
     match launched with
     | inl service_name => ret (Aborted service_name)
     | inr processes =>
         print (nl ++ "Waiting for services to start...") ;;
         print (str_times "-" 30) ;;
         all_ready <- probe_loop w services ;;
         ret (Probed processes all_ready)
     end)
    (startup_order services).
Proof.
  apply yields_bind with
    (P := launch_post services)
    (Q := fun (l : string + list PInfo) r evs =>
       match l with
       | inl _ => evs = [] /\ exists n, r = Aborted n
       | inr _ => no_popen evs /\ exists ps b, r = Probed ps b
       end).
  - apply launch_loop_Ok.
  - intros [n|ps].
    + apply yields_ret. eauto.
    + apply yields_bind with
        (P := fun _ evs => no_popen evs)
        (Q := fun _ r evs => no_popen evs /\ exists ps b, r = Probed ps b);
        [now apply yields_effect | intros _ |].
      * apply yields_bind with
          (P := fun _ evs => no_popen evs)
          (Q := fun _ r evs =>
             no_popen evs /\ exists ps b, r = Probed ps b);
          [now apply yields_effect | intros _ |].
        -- apply yields_bind with
             (P := fun _ evs => no_popen evs)
             (Q := fun b r evs => evs = [] /\ r = Probed ps b);
             [apply no_popen_probe_loop | intros b; now apply yields_ret |].
           intros b r e1 e2 H1 [-> ->]. rewrite app_nil_r. eauto.
        -- intros _ r e1 e2 H1 [H2 Hr].
           split; [now apply no_popen_app | exact Hr].
      * intros _ r e1 e2 H1 [H2 Hr].
        split; [now apply no_popen_app | exact Hr].
  - intros [n|ps] r e1 e2 [R1 H1].
    + intros [-> [n' ->]]. rewrite app_nil_r.
      split; [|exact I]. now apply in_order_cut.
    + intros [H2 (ps' & b & ->)]. destruct H1 as [P1 L1].
      destruct (in_order_after services e1 e2 P1 L1 H2) as (H & HP & HL).
      split; [exact H | split; [exact HP | exact HL]].
Qed.

Lemma launch_and_probe_Raise services :
  raises
    (launched <- launch_loop w services [] ;;
     match launched with
     | inl service_name => ret (Aborted service_name)
     | inr processes =>
         print (nl ++ "Waiting for services to start...") ;;
         print (str_times "-" 30) ;;
         all_ready <- probe_loop w services ;;
         ret (Probed processes all_ready)
     end)
    (in_order services).
Proof.
  apply raises_bind with
    (P := launch_post services)
    (Q1 := launch_cut services)
    (Q2 := fun (l : string + list PInfo) evs =>
       match l with
       | inl _ => False
       | inr _ => no_popen evs
       end).
  - apply launch_loop_Ok.
  - apply launch_loop_Raise.
  - intros [n|ps]; [apply raises_ret|].
    apply (always_bind no_popen no_popen_app);
      [apply (always_effect no_popen no_popen_nil); reflexivity | intros _].
    apply (always_bind no_popen no_popen_app);
      [apply (always_effect no_popen no_popen_nil); reflexivity | intros _].
    apply (always_bind no_popen no_popen_app);
      [apply no_popen_probe_loop
      | intros; apply (always_ret no_popen no_popen_nil)].
  - apply in_order_cut.
  - intros [n|ps] e1 e2 [R1 H1] H2; [contradiction|].
    destruct H1 as [P1 L1].
    now destruct (in_order_after services e1 e2 P1 L1 H2) as (H & _).
Qed.

Lemma startup_order_calm_prefix services r e1 e2 :
  calm e1 -> startup_order services r e2 ->
  startup_order services r (e1 ++ e2).
Proof.
  intros H1 [H2 Hr]. split; [now apply in_order_calm_prefix|].
  destruct r; [exact I|]. destruct H1 as [P1 R1].
  now rewrite popen_calls_app, launched_app, P1,
    (launched_of_no_popen e1 P1).
Qed.

Lemma in_order_calm services evs : calm evs -> in_order services evs.
Proof.
  intros [P R]. split; [rewrite P; apply prefix_of_nil|].
  intros H. now rewrite R in H.
Qed.

Lemma startAll_in_order_Ok services :
  yields (startAll w services) (startup_order services).
Proof.
  unfold startAll.
  apply yields_bind with
    (P := fun _ evs => calm evs) (Q := fun _ => startup_order services);
    [now apply yields_effect | intros _
    | intros; now apply startup_order_calm_prefix].
  apply yields_bind with
    (P := fun _ evs => calm evs) (Q := fun _ => startup_order services);
    [now apply yields_effect | intros _
    | intros; now apply startup_order_calm_prefix].
  apply launch_and_probe_Ok.
Qed.

Lemma startAll_in_order_Raise services :
  raises (startAll w services) (in_order services).
Proof.
  unfold startAll.
  apply raises_bind with
    (P := fun _ evs => calm evs) (Q1 := calm)
    (Q2 := fun _ => in_order services);
    [now apply yields_effect | apply raises_effect, calm_nil | intros _
    | apply in_order_calm | intros; now apply in_order_calm_prefix].
  apply raises_bind with
    (P := fun _ evs => calm evs) (Q1 := calm)
    (Q2 := fun _ => in_order services);
    [now apply yields_effect | apply raises_effect, calm_nil | intros _
    | apply in_order_calm | intros; now apply in_order_calm_prefix].
  apply launch_and_probe_Raise.
Qed.

Lemma calm_after_startup services fuel processes (all_ready : bool) :
  always calm
    (print (nl ++ str_times "=" 50) ;;
     if all_ready then
       announce services ;;
       try_except (idle_wait w fuel)
         (print (nl ++ nl ++ "Stopping services...") ;;
          terminate_loop processes ;;
          print "Services stopped.")
     else
       print "❌ Some services failed to start" ;;
       print "Check the logs above for more information" ;;
       terminate_loop processes).
Proof.
  apply (always_after_startup calm calm_nil calm_app); intros; now split.
Qed.

Lemma main_in_order_Ok services fuel :
  yields (main_with w services fuel) (fun _ evs => in_order services evs).
Proof.
  unfold main_with.
  apply yields_bind with
    (P := startup_order services)
    (Q := fun (r : Startup) (_ : unit) evs => calm evs).
  - apply startAll_in_order_Ok.
  - intros [n|processes all_ready].
    + apply yields_ret, calm_nil.
    + apply calm_after_startup.
  - intros r _ e1 e2 [H1 _] H2. now apply in_order_calm_suffix.
Qed.

Lemma main_in_order_Raise services fuel :
  raises (main_with w services fuel) (in_order services).
Proof.
  unfold main_with.
  apply raises_bind with
    (P := startup_order services)
    (Q1 := in_order services)
    (Q2 := fun (r : Startup) evs => calm evs).
  - apply startAll_in_order_Ok.
  - apply startAll_in_order_Raise.
  - intros [n|processes all_ready].
    + apply raises_ret.
    + apply calm_after_startup.
  - auto.
  - intros r e1 e2 [H1 _] H2. now apply in_order_calm_suffix.
Qed.

Lemma main_in_order services fuel st :
  main_with w services fuel st <> Unfinished ->
  exists evs,
    trace (final_state (main_with w services fuel st)) = trace st ++ evs
    /\ in_order services evs.
Proof.
  intros H. destruct (main_with w services fuel st) as [[] st'|e st'|] eqn:E.
  - now apply main_in_order_Ok in E.
  - now apply main_in_order_Raise in E.
  - contradiction.
Qed.

(** X8: however a run of [main] ends, by a return or by Ctrl+C at any
    point, the [Popen] calls it has made are those of the first services of
    the list, one call each, in the order of the list: no service is started
    twice and none is started before the ones listed ahead of it. *)
Theorem main_starts_services_once_in_list_order
    (services : list Service) (fuel : nat) (st : State) :
  main_with w services fuel st <> Unfinished ->
  exists evs rest,
    trace (final_state (main_with w services fuel st)) = trace st ++ evs
    /\ map (fun s => (command s, dir s)) services = popen_calls evs ++ rest.
Proof.
  intros H. destruct (main_in_order services fuel st H) as (evs & E & [r P] & _).
  exists evs, r. split; [exact E | exact P].
Qed.

(** X9: however a run of [main] ends, a health request has been made only
    if [Popen] had been called for every service of the list and had started
    every one of them: the health checks begin when the launches are
    complete. *)
Theorem main_checks_health_only_after_all_launches
    (services : list Service) (fuel : nat) (st : State) :
  main_with w services fuel st <> Unfinished ->
  exists evs,
    trace (final_state (main_with w services fuel st)) = trace st ++ evs
    /\ (requested evs <> [] ->
        popen_calls evs = map (fun s => (command s, dir s)) services
        /\ List.length (launched evs) = List.length services).
Proof.
  intros H. destruct (main_in_order services fuel st H) as (evs & E & _ & P).
  exists evs. split; [exact E | exact P].
Qed.

End Order.

Lemma main_starts_services_once_in_list_order_witness :
  exists evs rest,
    trace (final_state (main healthy_world 50 (interrupted_at 4)))
    = trace (interrupted_at 4) ++ evs
    /\ map (fun s => (command s, dir s)) services_to_start
       = popen_calls evs ++ rest.
Proof.
  apply (main_starts_services_once_in_list_order healthy_world
           services_to_start 50 (interrupted_at 4)).
  vm_compute. discriminate.
Defined.

Lemma main_checks_health_only_after_all_launches_witness :
  exists evs,
    trace (final_state (main healthy_world 50 (interrupted_at 10)))
    = trace (interrupted_at 10) ++ evs
    /\ (requested evs <> [] ->
        popen_calls evs
        = map (fun s => (command s, dir s)) services_to_start
        /\ List.length (launched evs) = List.length services_to_start).
Proof.
  apply (main_checks_health_only_after_all_launches healthy_world
           services_to_start 50 (interrupted_at 10)).
  vm_compute. discriminate.
Defined.

(** * The lint scripts *)

(** ** split and join *)

Lemma split_nl_not_nil s : split_nl s <> [].
Proof.
  destruct s as [|c rest]; simpl; [discriminate|].
  destruct (Ascii.eqb c (ascii_of_nat 10)); [discriminate|].
  destruct (split_nl rest); discriminate.
Qed.

Lemma join_split s : join_nl (split_nl s) = s.
Proof.
  induction s as [|c rest IH]; [reflexivity|]. simpl split_nl.
  destruct (Ascii.eqb_spec c (ascii_of_nat 10)) as [->|Hc].
  - pose proof (split_nl_not_nil rest) as Hn.
    destruct (split_nl rest) as [|line lines]; [contradiction|].
    change (join_nl (EmptyString :: line :: lines))
      with (nl ++ join_nl (line :: lines))%string.
    now rewrite IH.
  - pose proof (split_nl_not_nil rest) as Hn.
    destruct (split_nl rest) as [|line lines]; [contradiction|].
    destruct lines as [|line' lines]; simpl in *; now rewrite <- IH.
Qed.

Lemma split_one_line l : one_line l = true -> split_nl l = [l].
Proof.
  induction l as [|c rest IH]; simpl; [reflexivity|].
  destruct (Ascii.eqb c (ascii_of_nat 10)); simpl; [discriminate|].
  intros H. now rewrite (IH H).
Qed.

Lemma split_line_nl l rest :
  one_line l = true -> split_nl (l ++ nl ++ rest) = l :: split_nl rest.
Proof.
  induction l as [|c l IH]; intros H; [reflexivity|].
  simpl in H.
  destruct (Ascii.eqb c (ascii_of_nat 10)) eqn:Hc; [discriminate|].
  change (String c l ++ nl ++ rest)%string
    with (String c (l ++ nl ++ rest))%string.
  cbn [split_nl]. now rewrite Hc, (IH H).
Qed.

Lemma split_join lines :
  lines <> [] ->
  Forall (fun l => one_line l = true) lines ->
  split_nl (join_nl lines) = lines.
Proof.
  induction lines as [|l lines IH]; intros Hne Hall; [contradiction|].
  inversion Hall as [|? ? Hl Hrest]; subst.
  destruct lines as [|l' lines].
  - simpl. now apply split_one_line.
  - change (join_nl (l :: l' :: lines))
      with (l ++ nl ++ join_nl (l' :: lines))%string.
    rewrite split_line_nl by exact Hl. f_equal.
    apply IH; [discriminate | exact Hrest].
Qed.

Lemma split_lines_one_line s : Forall (fun l => one_line l = true) (split_nl s).
Proof.
  induction s as [|c rest IH]; simpl; [repeat constructor|].
  destruct (Ascii.eqb c (ascii_of_nat 10)) eqn:Hc.
  - constructor; [reflexivity | exact IH].
  - destruct (split_nl rest) as [|line lines]; [repeat constructor; simpl;
      now rewrite Hc|].
    inversion IH as [|? ? Hl Hrest]; subst.
    constructor; [simpl; now rewrite Hc, Hl | exact Hrest].
Qed.

Lemma del_at_spec {A} i : forall (l : list A) x,
  nth_error l i = Some x ->
  del_at i l = Some (firstn i l ++ skipn (S i) l).
Proof.
  induction i as [|i IH]; intros [|y l] x H; try discriminate.
  - reflexivity.
  - simpl in H. simpl del_at. now rewrite (IH l x H).
Qed.

Lemma del_at_app {A} (l1 : list A) x r :
  del_at (List.length l1) (l1 ++ x :: r) = Some (l1 ++ r).
Proof.
  induction l1 as [|y l1 IH]; simpl; [reflexivity|]. now rewrite IH.
Qed.

Lemma firstn_exact {A} (l1 r : list A) :
  firstn (List.length l1) (l1 ++ r) = l1.
Proof. induction l1 as [|y l1 IH]; simpl; [now destruct r|]. now rewrite IH. Qed.

Lemma skipn_exact {A} (l1 r : list A) :
  skipn (List.length l1) (l1 ++ r) = r.
Proof. induction l1 as [|y l1 IH]; simpl; auto. Qed.

(** A list with elements at the indices 24 and 25. *)
Lemma two_at_24 {A} (l : list A) x y :
  nth_error l 24 = Some x -> nth_error l 25 = Some y ->
  exists l1 l3,
    l = l1 ++ x :: y :: l3 /\ List.length l1 = 24%nat.
Proof.
  intros Hx Hy. apply nth_error_split in Hx as (l1 & l2 & -> & Hlen).
  rewrite nth_error_app2 in Hy by lia. rewrite Hlen in Hy.
  change (25 - 24)%nat with 1%nat in Hy. simpl in Hy.
  destruct l2 as [|y' l3]; [discriminate|]. injection Hy as ->.
  now exists l1, l3.
Qed.

(** ** fix_lint.py *)

(** X11: the redis.js block of fix_lint.py writes the text back as it
    read it unless line 25 contains [retryDelayOnFailover: 100] and line 26
    contains [maxRetriesPerRequest: 3]: splitting at the newlines and joining
    again changes nothing. *)
Theorem fix_redis_keeps_text_without_the_duplicates
    (content line25 : string) :
  nth_error (split_nl content) 24 = Some line25 ->
  (contains "retryDelayOnFailover: 100" line25 = false
   \/ exists line26,
        nth_error (split_nl content) 25 = Some line26
        /\ contains "maxRetriesPerRequest: 3" line26 = false) ->
  fix_redis content = inl content.
Proof.
  intros H24 H. unfold fix_redis. rewrite H24.
  destruct (contains "retryDelayOnFailover: 100" line25) eqn:Hc.
  - destruct H as [H | (line26 & H25 & Hm)]; [discriminate|].
    rewrite H25, Hm. now rewrite join_split.
  - now rewrite join_split.
Qed.

(** X12: when line 25 contains [retryDelayOnFailover: 100] and line 26
    contains [maxRetriesPerRequest: 3], the redis.js block of fix_lint.py
    writes a text whose lines are those of the text read without these two,
    the others unchanged and in their order. *)
Theorem fix_redis_removes_lines_25_and_26
    (content line25 line26 : string) :
  nth_error (split_nl content) 24 = Some line25 ->
  nth_error (split_nl content) 25 = Some line26 ->
  contains "retryDelayOnFailover: 100" line25 = true ->
  contains "maxRetriesPerRequest: 3" line26 = true ->
  exists content',
    fix_redis content = inl content'
    /\ split_nl content'
       = firstn 24 (split_nl content) ++ skipn 26 (split_nl content).
Proof.
  intros H24 H25 Hr Hm. unfold fix_redis. rewrite H24, Hr, H25, Hm.
  pose proof (split_lines_one_line content) as Hall.
  destruct (two_at_24 _ _ _ H24 H25) as (l1 & l3 & E & Hlen).
  rewrite E in *. clear E H24 H25.
  assert (E25 : del_at 25 (l1 ++ line25 :: line26 :: l3)
                = Some (l1 ++ line25 :: l3)).
  { replace (l1 ++ line25 :: line26 :: l3)
      with ((l1 ++ [line25]) ++ line26 :: l3) by now rewrite <- app_assoc.
    replace 25%nat with (List.length (l1 ++ [line25]))
      by (rewrite length_app, Hlen; reflexivity).
    rewrite del_at_app. now rewrite <- app_assoc. }
  assert (E24 : del_at 24 (l1 ++ line25 :: l3) = Some (l1 ++ l3))
    by (rewrite <- Hlen; apply del_at_app).
  assert (F : firstn 24 (l1 ++ line25 :: line26 :: l3) = l1)
    by (rewrite <- Hlen; apply firstn_exact).
  assert (K : skipn 26 (l1 ++ line25 :: line26 :: l3) = l3).
  { replace (l1 ++ line25 :: line26 :: l3)
      with ((l1 ++ [line25; line26]) ++ l3) by now rewrite <- app_assoc.
    replace 26%nat with (List.length (l1 ++ [line25; line26]))
      by (rewrite length_app, Hlen; reflexivity).
    apply skipn_exact. }
  rewrite E25, E24, F, K.
  eexists. split; [reflexivity|].
  apply split_join.
  - destruct l1; [discriminate Hlen | discriminate].
  - apply Forall_app in Hall as [H1 H3].
    apply Forall_app. split; [exact H1|].
    now apply Forall_inv_tail, Forall_inv_tail in H3.
Qed.

Lemma del_at_lt {A} i : forall l : list A,
  (i < List.length l)%nat ->
  exists l', del_at i l = Some l' /\ List.length l = S (List.length l').
Proof.
  induction i as [|i IH]; intros [|x l] H; simpl in H; try lia.
  - exists l. now split.
  - destruct (IH l) as (l' & E & L); [lia|].
    exists (x :: l'). simpl. rewrite E. split; [reflexivity | now rewrite L].
Qed.

(** The redis.js block ends in an IndexError when [lines[24]] is missing,
    and when [lines[24]] has the first key and [lines[25]] is missing. *)
Lemma fix_redis_IndexError content e :
  fix_redis content = inr e <->
  e = IndexError
  /\ ((List.length (split_nl content) <= 24)%nat
      \/ (List.length (split_nl content) = 25%nat
          /\ exists line25,
               nth_error (split_nl content) 24 = Some line25
               /\ contains "retryDelayOnFailover: 100" line25 = true)).
Proof.
  unfold fix_redis. split.
  - destruct (nth_error (split_nl content) 24) as [line25|] eqn:H24.
    + assert (L24 : (24 < List.length (split_nl content))%nat)
        by (apply nth_error_Some; now rewrite H24).
      destruct (contains "retryDelayOnFailover: 100" line25) eqn:Hc;
        [|discriminate].
      destruct (nth_error (split_nl content) 25) as [line26|] eqn:H25.
      * assert (L25 : (25 < List.length (split_nl content))%nat)
          by (apply nth_error_Some; now rewrite H25).
        destruct (contains "maxRetriesPerRequest: 3" line26);
          [|discriminate].
        destruct (del_at_lt 25 _ L25) as (l1 & E1 & Len1). rewrite E1.
        destruct (del_at_lt 24 l1) as (l2 & E2 & _); [lia|]. rewrite E2.
        discriminate.
      * apply nth_error_None in H25. intros [= <-]. split; [reflexivity|].
        right. split; [lia|]. now exists line25.
    + apply nth_error_None in H24. intros [= <-]. split; [reflexivity|].
      now left.
  - intros [-> [Hlen | (Hlen & line25 & H24 & Hc)]].
    + apply nth_error_None in Hlen. now rewrite Hlen.
    + rewrite H24, Hc.
      assert (H25 : nth_error (split_nl content) 25 = None)
        by (apply nth_error_None; lia).
      now rewrite H25.
Qed.

Lemma rewrite_file_no_IndexError path edit message r :
  (forall content, exists content', edit content = inl content') ->
  failure r <> Some IndexError ->
  failure (rewrite_file path edit message r) <> Some IndexError.
Proof.
  intros He Hr. unfold rewrite_file.
  destruct (failure r) eqn:F; [now rewrite F|].
  destruct (disk r path) as [content|]; [|cbn; discriminate].
  destruct (He content) as [content' ->]. cbn. discriminate.
Qed.

Lemma say_failure message r : failure (say message r) = failure r.
Proof. unfold say. now destruct (failure r) eqn:F. Qed.

(** X13: fix_lint.py ends in an IndexError exactly when the text of
    redis.js splits at its newlines into fewer than 25 pieces, or into 25 of
    which the last contains [retryDelayOnFailover: 100], so that
    [lines[25]] is missing; it has then written and printed nothing.  (A
    text of 24 lines that ends in a newline splits into 25 pieces, the last
    one empty, and is not stopped.) *)
Theorem fix_lint_stops_on_short_redis (d : Disk) (content : string) :
  d redis_js = Some content ->
  (failure (fix_lint d) = Some IndexError <->
   (List.length (split_nl content) <= 24)%nat
   \/ (List.length (split_nl content) = 25%nat
       /\ exists line25,
            nth_error (split_nl content) 24 = Some line25
            /\ contains "retryDelayOnFailover: 100" line25 = true))
  /\ (failure (fix_lint d) = Some IndexError ->
      fix_lint d = {| disk := d; out := []; failure := Some IndexError |}).
Proof.
  intros Hd.
  assert (Hstop : fix_redis content = inr IndexError ->
                  fix_lint d
                  = {| disk := d; out := []; failure := Some IndexError |}).
  { intros E. unfold fix_lint, rewrite_file at 4. cbn [failure disk out].
    rewrite Hd, E. reflexivity. }
  assert (Hiff : failure (fix_lint d) = Some IndexError
                 <-> fix_redis content = inr IndexError).
  { split; [|intros E; now rewrite (Hstop E)].
    destruct (fix_redis content) as [content'|e] eqn:E.
    - intros H. exfalso. revert H. unfold fix_lint. rewrite say_failure.
      apply rewrite_file_no_IndexError; [intros c; eexists; reflexivity|].
      apply rewrite_file_no_IndexError; [intros c; eexists; reflexivity|].
      apply rewrite_file_no_IndexError; [intros c; eexists; reflexivity|].
      unfold rewrite_file. cbn [failure disk out]. rewrite Hd, E. cbn.
      discriminate.
    - intros _. apply fix_redis_IndexError in E as [-> _]. reflexivity. }
  split.
  - rewrite Hiff, fix_redis_IndexError. tauto.
  - intros H. apply Hstop, Hiff, H.
Qed.

Lemma rewrite_file_other path edit message r p :
  String.eqb p path = false ->
  disk (rewrite_file path edit message r) p = disk r p.
Proof.
  intros Hp. unfold rewrite_file.
  destruct (failure r); [reflexivity|].
  destruct (disk r path) as [content|]; [|reflexivity].
  destruct (edit content); [|reflexivity].
  cbn [disk]. unfold write_file. now rewrite Hp.
Qed.

Lemma say_disk message r : disk (say message r) = disk r.
Proof. unfold say. now destruct (failure r). Qed.

(** X14: fix_lint.py touches no file but its four: whatever is on the
    disk and however the run ends, every other path holds afterwards what it
    held before. *)
Theorem fix_lint_touches_only_its_four_files (d : Disk) (p : string) :
  p <> redis_js -> p <> security_js ->
  p <> security_service_js -> p <> players_js ->
  disk (fix_lint d) p = d p.
Proof.
  intros H1 H2 H3 H4. apply String.eqb_neq in H1, H2, H3, H4.
  unfold fix_lint. rewrite say_disk.
  now rewrite !rewrite_file_other by assumption.
Qed.

Lemma rewrite_file_failed path edit message r e :
  failure r = Some e -> rewrite_file path edit message r = r.
Proof. intros H. unfold rewrite_file. now rewrite H. Qed.

Lemma rewrite_file_cases path edit message r :
  failure r = None ->
  (failure (rewrite_file path edit message r) = None
   /\ out (rewrite_file path edit message r) = out r ++ [message]
   /\ disk r path <> None)
  \/ (exists e,
        failure (rewrite_file path edit message r) = Some e
        /\ out (rewrite_file path edit message r) = out r).
Proof.
  intros H. unfold rewrite_file. rewrite H.
  destruct (disk r path) as [content|];
    [|right; eexists; split; reflexivity].
  destruct (edit content) as [content'|e];
    [|right; eexists; split; reflexivity].
  left. split; [reflexivity | split; [reflexivity | discriminate]].
Qed.

Lemma in_firstn {A} (x : A) k l : In x (firstn k l) -> In x l.
Proof.
  intros H. rewrite <- (firstn_skipn k l). apply in_or_app. now left.
Qed.

Lemma say_failed message r e : failure r = Some e -> say message r = r.
Proof. intros H. unfold say. now rewrite H. Qed.

Lemma rewrite_file_step path edit message r :
  failure r = None ->
  (exists content content',
     disk r path = Some content /\ edit content = inl content'
     /\ rewrite_file path edit message r
        = {| disk := write_file (disk r) path content';
             out := out r ++ [message]; failure := None |})
  \/ (exists e,
        rewrite_file path edit message r
        = {| disk := disk r; out := out r; failure := Some e |}).
Proof.
  intros H. unfold rewrite_file. rewrite H.
  destruct (disk r path) as [content|];
    [|right; eexists; reflexivity].
  destruct (edit content) as [content'|e] eqn:E;
    [|right; eexists; reflexivity].
  left. now exists content, content'.
Qed.

(** X15: the lines fix_lint.py prints tell what it has done to the files.
    It runs its four blocks in order until one ends in an exception: the
    files of the blocks it got through hold their edit, the files of the
    others are as they were, and it has printed the report of each block it
    got through and no other; [All files fixed!] follows the four reports
    when and only when no exception stopped the run. *)
Theorem fix_lint_reports_what_it_did (d : Disk) :
  exists k,
    (k <= 4)%nat
    /\ Forall (rewritten d (disk (fix_lint d))) (firstn k lint_blocks)
    /\ Forall (untouched d (disk (fix_lint d))) (skipn k lint_blocks)
    /\ out (fix_lint d)
       = map snd (firstn k lint_blocks)
         ++ (if (k =? 4)%nat then ["All files fixed!"%string] else [])
    /\ (failure (fix_lint d) = None <-> k = 4%nat).
Proof.
  unfold fix_lint.
  set (r0 := {| disk := d; out := []; failure := None |}).
  assert (Hdone : forall (k : nat) (r : LintRun),
             (k <= 4)%nat ->
             Forall (rewritten d (disk r)) (firstn k lint_blocks) ->
             Forall (untouched d (disk r)) (skipn k lint_blocks) ->
             out r
             = map snd (firstn k lint_blocks)
               ++ (if (k =? 4)%nat then ["All files fixed!"%string] else []) ->
             (failure r = None <-> k = 4%nat) ->
             exists k,
               (k <= 4)%nat
               /\ Forall (rewritten d (disk r)) (firstn k lint_blocks)
               /\ Forall (untouched d (disk r)) (skipn k lint_blocks)
               /\ out r
                  = map snd (firstn k lint_blocks)
                    ++ (if (k =? 4)%nat then ["All files fixed!"%string]
                        else [])
               /\ (failure r = None <-> k = 4%nat))
    by (intros k r; exists k; auto).
  destruct (rewrite_file_step redis_js fix_redis "Fixed redis.js" r0 eq_refl)
    as [(c1 & c1' & D1 & E1 & ->) | (e & ->)].
  2:{ apply (Hdone 0%nat); unfold lint_blocks; cbn;
        [lia | constructor | repeat constructor | reflexivity
        | split; discriminate]. }
  change (disk r0 redis_js) with (d redis_js) in D1.
  assert (R1 : forall d', d' redis_js = Some c1' ->
                 rewritten d d' (redis_js, fix_redis, "Fixed redis.js"%string))
    by (intros d' H; now exists c1, c1').
  match goal with
  | |- context [rewrite_file security_js _ _ ?r] => set (r1 := r)
  end.
  destruct (rewrite_file_step security_js fix_security "Fixed security.js"
              r1 eq_refl)
    as [(c2 & c2' & D2 & E2 & ->) | (e & ->)].
  2:{ apply (Hdone 1%nat); unfold lint_blocks; cbn;
        [lia | repeat constructor; now apply R1 | repeat constructor
        | reflexivity | split; discriminate]. }
  change (disk r1 security_js) with (d security_js) in D2.
  assert (R2 : forall d', d' security_js = Some c2' ->
                 rewritten d d'
                   (security_js, fix_security, "Fixed security.js"%string))
    by (intros d' H; now exists c2, c2').
  match goal with
  | |- context [rewrite_file security_service_js _ _ ?r] => set (r2 := r)
  end.
  destruct (rewrite_file_step security_service_js fix_security_service
              "Fixed securityService.js" r2 eq_refl)
    as [(c3 & c3' & D3 & E3 & ->) | (e & ->)].
  2:{ apply (Hdone 2%nat); unfold lint_blocks; cbn;
        [lia | repeat constructor; [now apply R1 | now apply R2]
        | repeat constructor | reflexivity | split; discriminate]. }
  change (disk r2 security_service_js) with (d security_service_js) in D3.
  assert (R3 : forall d', d' security_service_js = Some c3' ->
                 rewritten d d'
                   (security_service_js, fix_security_service,
                    "Fixed securityService.js"%string))
    by (intros d' H; now exists c3, c3').
  match goal with
  | |- context [rewrite_file players_js _ _ ?r] => set (r3 := r)
  end.
  destruct (rewrite_file_step players_js fix_players
              "Fixed playersEnhanced.js" r3 eq_refl)
    as [(c4 & c4' & D4 & E4 & ->) | (e & ->)].
  2:{ apply (Hdone 3%nat); unfold lint_blocks; cbn;
        [lia | repeat constructor; [now apply R1 | now apply R2 | now apply R3]
        | repeat constructor | reflexivity | split; discriminate]. }
  change (disk r3 players_js) with (d players_js) in D4.
  assert (R4 : forall d', d' players_js = Some c4' ->
                 rewritten d d'
                   (players_js, fix_players,
                    "Fixed playersEnhanced.js"%string))
    by (intros d' H; now exists c4, c4').
  apply (Hdone 4%nat); unfold lint_blocks; cbn;
    [lia
    | repeat constructor;
        [now apply R1 | now apply R2 | now apply R3 | now apply R4]
    | constructor | reflexivity | split; reflexivity].
Qed.

Lemma replace_from_absent old new s :
  contains old s = false -> replace_from old new s 0 = s.
Proof.
  induction s as [|c rest IH]; intros H; [reflexivity|].
  cbn [contains] in H. apply orb_false_iff in H as [Hp Hc].
  cbn [replace_from]. rewrite Hp. now rewrite (IH Hc).
Qed.

Lemma str_replace_absent s old new :
  contains old s = false -> str_replace s old new = s.
Proof.
  intros H. unfold str_replace. destruct old; [reflexivity|].
  now apply replace_from_absent.
Qed.

(** X16: the [replace] edits of fix_lint.py change nothing in a text that
    does not contain what they look for: security.js, securityService.js
    and playersEnhanced.js are written back as they were read. *)
Theorem fix_lint_replacements_keep_text_without_pattern (content : string) :
  (contains ("/(\'|(\\-\\-)|(;)|(\\||\\|)|(\\*|\\*" ++ "))/i") content
   = false ->
   fix_security content = inl content)
  /\ (contains
        ("sqlInjection: /('|(\\-\\-)|(;)|(\\||\\|)|(\\*|\\*" ++ "))/i,")
        content = false ->
      contains "pathTraversal: /(\\.\\.[\\/\\\\]|\\.\\.%2f|\\.\\.%5c)/i,"
        content = false ->
      fix_security_service content = inl content)
  /\ (contains "updateData = restrictedUpdate;" content = false ->
      fix_players content = inl content).
Proof.
  split; [|split].
  - intros H. unfold fix_security. now rewrite str_replace_absent.
  - intros H1 H2. unfold fix_security_service.
    rewrite (str_replace_absent content _ _ H1).
    now rewrite str_replace_absent.
  - intros H. unfold fix_players. now rewrite str_replace_absent.
Qed.

Lemma fix_redis_keeps_text_without_the_duplicates_witness :
  fix_redis redis_without_duplicates = inl redis_without_duplicates.
Proof.
  apply (fix_redis_keeps_text_without_the_duplicates
           redis_without_duplicates "  host: process.env.REDIS_HOST,").
  - vm_compute. reflexivity.
  - left. vm_compute. reflexivity.
Defined.

Lemma fix_redis_removes_lines_25_and_26_witness :
  exists content',
    fix_redis redis_with_duplicates = inl content'
    /\ split_nl content'
       = firstn 24 (split_nl redis_with_duplicates)
         ++ skipn 26 (split_nl redis_with_duplicates).
Proof.
  apply (fix_redis_removes_lines_25_and_26 redis_with_duplicates
           "  retryDelayOnFailover: 100," "  maxRetriesPerRequest: 3,");
    vm_compute; reflexivity.
Defined.

Lemma fix_lint_stops_on_short_redis_witness :
  fix_lint (lint_disk "module.exports = {};")
  = {| disk := lint_disk "module.exports = {};"; out := [];
       failure := Some IndexError |}
  /\ failure (fix_lint (lint_disk (str_times (ascii_of_nat 10) 24)))
     <> Some IndexError.
Proof.
  split.
  - apply (proj2 (fix_lint_stops_on_short_redis
                    (lint_disk "module.exports = {};")
                    "module.exports = {};" eq_refl)).
    vm_compute. reflexivity.
  - intros H.
    apply (proj1 (fix_lint_stops_on_short_redis
                    (lint_disk (str_times (ascii_of_nat 10) 24))
                    (str_times (ascii_of_nat 10) 24) eq_refl)) in H.
    destruct H as [H | (_ & line25 & H24 & Hc)].
    + vm_compute in H. lia.
    + vm_compute in H24. injection H24 as <-. discriminate Hc.
Defined.

Lemma fix_lint_touches_only_its_four_files_witness :
  disk (fix_lint (lint_disk redis_with_duplicates)) "package.json"
  = lint_disk redis_with_duplicates "package.json".
Proof.
  apply (fix_lint_touches_only_its_four_files
           (lint_disk redis_with_duplicates) "package.json");
    vm_compute; discriminate.
Defined.

Lemma fix_lint_replacements_keep_text_without_pattern_witness :
  fix_security "const x = 1;" = inl "const x = 1;"
  /\ fix_security_service "const x = 1;" = inl "const x = 1;"
  /\ fix_players "const x = 1;" = inl "const x = 1;".
Proof.
  pose proof (fix_lint_replacements_keep_text_without_pattern "const x = 1;")
    as (H1 & H2 & H3).
  split; [|split].
  - apply H1. vm_compute. reflexivity.
  - apply H2; vm_compute; reflexivity.
  - apply H3. vm_compute. reflexivity.
Defined.

(** ** fix_lint_v2.py *)

Lemma prefix_app_l a b s : prefix (a ++ b) s = true -> prefix a s = true.
Proof.
  revert s. induction a as [|c a IH]; intros s H; [now destruct s|].
  destruct s as [|c' s]; [discriminate H|]. simpl in *.
  destruct (ascii_dec c c'); [now apply IH | discriminate].
Qed.

Lemma contains_app_l a b s : contains (a ++ b) s = true -> contains a s = true.
Proof.
  induction s as [|c s IH]; cbn [contains]; intros H;
    apply orb_true_iff in H as [H|H]; apply orb_true_iff.
  - left. now apply prefix_app_l in H.
  - discriminate.
  - left. now apply prefix_app_l in H.
  - right. now apply IH.
Qed.

Lemma dedupe_from_after lines : forall i seen_retry seen_max,
  (54 <= i)%nat -> dedupe_from i seen_retry seen_max lines = lines.
Proof.
  induction lines as [|line rest IH]; intros i sr sm Hi; [reflexivity|].
  cbn [dedupe_from].
  replace (i <=? 53)%nat with false by (symmetry; apply Nat.leb_gt; lia).
  rewrite andb_false_r. f_equal. apply IH. lia.
Qed.

Lemma dedupe_from_before lines : forall i seen_retry seen_max,
  (i <= 42)%nat ->
  dedupe_from i seen_retry seen_max lines
  = firstn (42 - i) lines
    ++ dedupe_from 42 seen_retry seen_max (skipn (42 - i) lines).
Proof.
  induction lines as [|line rest IH]; intros i sr sm Hi.
  - now rewrite firstn_nil, skipn_nil.
  - destruct (Nat.eq_dec i 42) as [->|Hne]; [reflexivity|].
    replace (42 - i)%nat with (S (42 - S i)) by lia.
    cbn [dedupe_from firstn skipn].
    replace (42 <=? i)%nat with false by (symmetry; apply Nat.leb_gt; lia).
    cbn [andb app]. f_equal. apply IH. lia.
Qed.

(** The loop inside its window: what it keeps of the lines up to index 53,
    and the lines from index 54 on as they are. *)
Lemma dedupe_from_window lines : forall i seen_retry seen_max,
  (42 <= i <= 54)%nat ->
  exists kept,
    dedupe_from i seen_retry seen_max lines
    = kept ++ skipn (54 - i) lines
    /\ subseq kept (firstn (54 - i) lines)
    /\ (List.length (filter (contains "retryDelayOnFailover: 100") kept)
        <= if seen_retry then 0 else 1)%nat
    /\ (List.length (filter (contains "maxRetriesPerRequest: 3") kept)
        <= if seen_max then 0 else 1)%nat.
Proof.
  induction lines as [|line rest IH]; intros i sr sm Hi.
  - exists []. rewrite firstn_nil, skipn_nil.
    repeat split; try constructor; simpl; destruct sr, sm; lia.
  - destruct (Nat.eq_dec i 54) as [->|Hne].
    + exists []. rewrite dedupe_from_after by lia.
      repeat split; try constructor; simpl; destruct sr, sm; lia.
    + replace (54 - i)%nat with (S (54 - S i)) by lia.
      cbn [dedupe_from firstn skipn].
      replace (42 <=? i)%nat with true by (symmetry; apply Nat.leb_le; lia).
      replace (i <=? 53)%nat with true by (symmetry; apply Nat.leb_le; lia).
      cbn [andb].
      destruct (contains "retryDelayOnFailover: 100" line && sr) eqn:Hr.
      { destruct (IH (S i) sr sm) as (kept & E & Hs & Hcr & Hcm); [lia|].
        exists kept. repeat split; auto. now constructor. }
      destruct (contains "maxRetriesPerRequest: 3" line && sm) eqn:Hm.
      { destruct (IH (S i) sr sm) as (kept & E & Hs & Hcr & Hcm); [lia|].
        exists kept. repeat split; auto. now constructor. }
      destruct (IH (S i)
                  (if contains "retryDelayOnFailover" line then true else sr)
                  (if contains "maxRetriesPerRequest" line then true else sm))
        as (kept & E & Hs & Hcr & Hcm); [lia|].
      exists (line :: kept). rewrite E.
      split; [reflexivity|]. split; [now constructor|].
      cbn [filter]. split.
      * destruct (contains "retryDelayOnFailover: 100" line) eqn:H100.
        -- rewrite (contains_app_l "retryDelayOnFailover" ": 100" line H100)
             in Hcr.
           cbv iota beta in Hcr.
           destruct sr; [discriminate Hr|]. cbn [List.length]. lia.
        -- destruct sr, (contains "retryDelayOnFailover" line);
             cbv iota beta in Hcr; lia.
      * destruct (contains "maxRetriesPerRequest: 3" line) eqn:H3.
        -- rewrite (contains_app_l "maxRetriesPerRequest" ": 3" line H3)
             in Hcm.
           cbv iota beta in Hcm.
           destruct sm; [discriminate Hm|]. cbn [List.length]. lia.
        -- destruct sm, (contains "maxRetriesPerRequest" line);
             cbv iota beta in Hcm; lia.
Qed.

Lemma skipn_skipn_add {A} a b (l : list A) :
  skipn a (skipn b l) = skipn (a + b) l.
Proof.
  revert l. induction b as [|b IH]; intros l.
  - now rewrite Nat.add_0_r.
  - destruct l as [|x l]; [now rewrite !skipn_nil|].
    rewrite Nat.add_succ_r. simpl. apply IH.
Qed.

(** X17: the loop of fix_lint_v2.py only leaves lines out, and only among
    the lines of index 42 to 53: the 42 lines before and all the lines after
    come out as they went in, what is kept in between keeps its order, and
    of the lines kept there at most one contains
    [retryDelayOnFailover: 100] and at most one [maxRetriesPerRequest: 3]. *)
Theorem dedupe_only_thins_the_window (lines : list string) :
  exists kept,
    dedupe lines = firstn 42 lines ++ kept ++ skipn 54 lines
    /\ subseq kept (firstn 12 (skipn 42 lines))
    /\ (List.length (filter (contains "retryDelayOnFailover: 100") kept)
        <= 1)%nat
    /\ (List.length (filter (contains "maxRetriesPerRequest: 3") kept)
        <= 1)%nat.
Proof.
  unfold dedupe. rewrite dedupe_from_before by lia.
  destruct (dedupe_from_window (skipn 42 lines) 42 false false)
    as (kept & E & Hs & Hr & Hm); [lia|].
  exists kept. change (42 - 0)%nat with 42%nat. rewrite E.
  change (54 - 42)%nat with 12%nat in *.
  rewrite (skipn_skipn_add 12 42). auto.
Qed.

Lemma concat_readlines s : String.concat "" (readlines s) = s.
Proof.
  induction s as [|c rest IH]; [reflexivity|]. cbn [readlines].
  destruct (Ascii.eqb c (ascii_of_nat 10)).
  - destruct (readlines rest) as [|line lines]; simpl in *; now rewrite <- IH.
  - destruct (readlines rest) as [|line lines]; [simpl in *; now rewrite <- IH|].
    destruct lines as [|line' lines]; simpl in *; now rewrite <- IH.
Qed.

(** X18: fix_lint_v2.py writes a redis.js of at most 42 lines back as it
    read it: its loop looks at no line before the one of index 42. *)
Theorem fix_redis_v2_keeps_short_file (content : string) :
  (List.length (readlines content) <= 42)%nat ->
  fix_redis_v2 content = content.
Proof.
  intros H. unfold fix_redis_v2, dedupe.
  rewrite dedupe_from_before by lia. change (42 - 0)%nat with 42%nat.
  rewrite (firstn_all2 _ H), (skipn_all2 _ H). cbn [dedupe_from].
  rewrite app_nil_r. apply concat_readlines.
Qed.

Lemma dedupe_from_clean lines : forall i seen_retry seen_max,
  (42 <= i)%nat ->
  Forall (fun l => contains "retryDelayOnFailover: 100" l = false
                   /\ contains "maxRetriesPerRequest: 3" l = false)
    (firstn (54 - i) lines) ->
  dedupe_from i seen_retry seen_max lines = lines.
Proof.
  induction lines as [|line rest IH]; intros i sr sm Hi Hall; [reflexivity|].
  destruct (Nat.le_gt_cases 54 i) as [Hge|Hlt].
  - now apply dedupe_from_after.
  - replace (54 - i)%nat with (S (54 - S i)) in Hall by lia.
    cbn [firstn] in Hall. inversion Hall as [|? ? [Hr Hm] Hrest]; subst.
    cbn [dedupe_from]. rewrite Hr, Hm. cbn [andb].
    destruct ((42 <=? i)%nat && (i <=? 53)%nat); f_equal; apply IH;
      auto; lia.
Qed.

(** X19: fix_lint_v2.py writes redis.js back as it read it when none of
    the lines of index 42 to 53 contains [retryDelayOnFailover: 100] or
    [maxRetriesPerRequest: 3]: the flags alone make it leave out nothing. *)
Theorem fix_redis_v2_keeps_file_without_the_keys (content : string) :
  Forall (fun l => contains "retryDelayOnFailover: 100" l = false
                   /\ contains "maxRetriesPerRequest: 3" l = false)
    (firstn 12 (skipn 42 (readlines content))) ->
  fix_redis_v2 content = content.
Proof.
  intros H. unfold fix_redis_v2, dedupe.
  rewrite dedupe_from_before by lia. change (42 - 0)%nat with 42%nat.
  rewrite dedupe_from_clean by (auto; exact H).
  rewrite firstn_skipn. apply concat_readlines.
Qed.

Lemma fix_redis_v2_keeps_short_file_witness :
  fix_redis_v2 redis_with_duplicates = redis_with_duplicates.
Proof.
  apply (fix_redis_v2_keeps_short_file redis_with_duplicates).
  vm_compute. repeat constructor.
Defined.

Lemma fix_redis_v2_keeps_file_without_the_keys_witness :
  fix_redis_v2 (join_nl
                  (repeat "  host: process.env.REDIS_HOST," 44
                   ++ ["  retryDelayOnFailover: 200,"; "};"]))
  = join_nl
      (repeat "  host: process.env.REDIS_HOST," 44
       ++ ["  retryDelayOnFailover: 200,"; "};"]).
Proof.
  apply (fix_redis_v2_keeps_file_without_the_keys
           (join_nl
              (repeat "  host: process.env.REDIS_HOST," 44
               ++ ["  retryDelayOnFailover: 200,"; "};"]))).
  vm_compute. repeat constructor.
Defined.

(** * Further property of the chatbot *)

(** X10: [chat] answers 200 only for a JSON object with a prompt that
    Python takes for true, after exactly one call of the client with that
    prompt, as it came, in a single user message, and the body then carries
    the text the client returned; a body that is no object is answered by
    no response of [chat] at all. *)
Theorem chat_answers_200_with_the_client_text
    (client : Client) (data body : JSON) (calls : list ChatRequest) :
  chat client data = (Respond 200 body, calls) ->
  exists d request text,
    data = JDict d
    /\ truthy (dict_get d "prompt") = true
    /\ calls = [request]
    /\ messages request
       = [ [("role"%string, JStr "user");
            ("content"%string, dict_get d "prompt")] ]
    /\ client request = Content text
    /\ body = JDict [("response"%string, JStr text)].
Proof.
  intros H. unfold chat in H.
  destruct data as [| | | | | |d]; try discriminate.
  destruct (truthy (dict_get d "prompt")) eqn:Ht; simpl in H;
    try discriminate.
  match type of H with
  | context [client ?r] => destruct (client r) as [text|e|e] eqn:E
  end; try discriminate.
  injection H as <- <-. do 3 eexists. repeat split; eauto.
Qed.

Lemma chat_answers_200_with_the_client_text_witness :
  exists d request text,
    JDict [("prompt"%string, JInt 7)] = JDict d
    /\ truthy (dict_get d "prompt") = true
    /\ [ {| model := "gemma2-9b-it";
            messages := [ [("role"%string, JStr "user");
                           ("content"%string, JInt 7)] ];
            temperature := (7, 10);
            max_tokens := 1000 |} ] = [request]
    /\ messages request
       = [ [("role"%string, JStr "user");
            ("content"%string, dict_get d "prompt")] ]
    /\ (fun _ : ChatRequest => Content "Seven.") request = Content text
    /\ JDict [("response"%string, JStr "Seven.")]
       = JDict [("response"%string, JStr text)].
Proof.
  apply (chat_answers_200_with_the_client_text (fun _ => Content "Seven.")
           (JDict [("prompt"%string, JInt 7)])).
  reflexivity.
Defined.

(** * Further properties: the clock of check_service, the files of
      fix_lint.py *)

(** X20: [check_service] measures the time that has passed since its
    call, not the time of day: called [d] ticks later, after the effects
    [pre], it makes the same requests, sleeps the same and returns the same
    verdict, with its log and its clock moved by as much. *)
Theorem check_service_depends_on_elapsed_time_only
    (w : World) (target service_name : string) (timeout d : Z)
    (pre : list Event) (st : State) :
  check_service w target service_name timeout
    {| now := now st + d; trace := pre ++ trace st; sigint := sigint st |}
  = match check_service w target service_name timeout st with
    | Ok b st' =>
        Ok b {| now := now st' + d; trace := pre ++ trace st';
                sigint := sigint st' |}
    | Raise e st' =>
        Raise e {| now := now st' + d; trace := pre ++ trace st';
                   sigint := sigint st' |}
    | Unfinished => Unfinished
    end.
Proof. exact (check_service_shift w target service_name timeout d pre st). Qed.

Section Lint.

Variable d : Disk.

Lemma rewrite_file_done path edit message r content content' :
  failure r = None ->
  disk r path = Some content ->
  edit content = inl content' ->
  rewrite_file path edit message r
  = {| disk := write_file (disk r) path content';
       out := out r ++ [message]; failure := None |}.
Proof. intros Hf Hd He. unfold rewrite_file. now rewrite Hf, Hd, He. Qed.

(** X21: fix_lint.py does not undo what it has done when it stops: if
    security.js is missing, redis.js has been rewritten and reported by the
    time the FileNotFoundError ends the run. *)
Theorem fix_lint_keeps_earlier_rewrites_on_failure (redis redis' : string) :
  d redis_js = Some redis ->
  fix_redis redis = inl redis' ->
  d security_js = None ->
  fix_lint d
  = {| disk := write_file d redis_js redis';
       out := ["Fixed redis.js"%string];
       failure := Some (FileNotFoundError security_js) |}.
Proof.
  intros H1 E1 H2. unfold fix_lint.
  rewrite (rewrite_file_done redis_js fix_redis _ _ redis redis')
    by (auto; exact H1).
  cbn [disk out].
  assert (E : write_file d redis_js redis' security_js = None) by exact H2.
  unfold rewrite_file at 3. cbn [failure disk out]. rewrite E.
  reflexivity.
Qed.

(** X22: on a disk that holds the four files, with a redis.js the first
    block accepts, fix_lint.py runs to its end and leaves in each file the
    edit of what that file held: the four blocks do not interfere. *)
Theorem fix_lint_rewrites_each_file_with_its_own_edit
    (redis redis' security security' service service' players players'
       : string) :
  d redis_js = Some redis -> fix_redis redis = inl redis' ->
  d security_js = Some security -> fix_security security = inl security' ->
  d security_service_js = Some service ->
  fix_security_service service = inl service' ->
  d players_js = Some players -> fix_players players = inl players' ->
  failure (fix_lint d) = None
  /\ disk (fix_lint d) redis_js = Some redis'
  /\ disk (fix_lint d) security_js = Some security'
  /\ disk (fix_lint d) security_service_js = Some service'
  /\ disk (fix_lint d) players_js = Some players'.
Proof.
  intros H1 E1 H2 E2 H3 E3 H4 E4. unfold fix_lint.
  rewrite (rewrite_file_done redis_js fix_redis _ _ redis redis')
    by (auto; exact H1).
  rewrite (rewrite_file_done security_js fix_security _ _ security security')
    by (auto; exact H2).
  rewrite (rewrite_file_done security_service_js fix_security_service _ _
             service service') by (auto; exact H3).
  rewrite (rewrite_file_done players_js fix_players _ _ players players')
    by (auto; exact H4).
  repeat split.
Qed.

End Lint.

Lemma fix_lint_keeps_earlier_rewrites_on_failure_witness :
  fix_lint (fun p => if String.eqb p redis_js
                     then Some redis_without_duplicates else None)
  = {| disk :=
         write_file
           (fun p => if String.eqb p redis_js
                     then Some redis_without_duplicates else None)
           redis_js redis_without_duplicates;
       out := ["Fixed redis.js"%string];
       failure := Some (FileNotFoundError security_js) |}.
Proof.
  apply (fix_lint_keeps_earlier_rewrites_on_failure
           (fun p => if String.eqb p redis_js
                     then Some redis_without_duplicates else None)
           redis_without_duplicates redis_without_duplicates).
  - reflexivity.
  - vm_compute. reflexivity.
  - reflexivity.
Defined.

Lemma fix_lint_rewrites_each_file_with_its_own_edit_witness :
  failure (fix_lint (lint_disk redis_without_duplicates)) = None
  /\ disk (fix_lint (lint_disk redis_without_duplicates)) redis_js
     = Some redis_without_duplicates
  /\ disk (fix_lint (lint_disk redis_without_duplicates)) security_js
     = Some "const x = 1;"%string
  /\ disk (fix_lint (lint_disk redis_without_duplicates)) security_service_js
     = Some "const y = 2;"%string
  /\ disk (fix_lint (lint_disk redis_without_duplicates)) players_js
     = Some "Object.keys(restrictedUpdate).forEach(key => { updateData[key] = restrictedUpdate[key]; });"%string.
Proof.
  apply (fix_lint_rewrites_each_file_with_its_own_edit
           (lint_disk redis_without_duplicates)
           redis_without_duplicates redis_without_duplicates
           "const x = 1;" "const x = 1;" "const y = 2;" "const y = 2;"
           "updateData = restrictedUpdate;");
    vm_compute; reflexivity.
Defined.

(** * Health checks, from what the URLs answer *)

Section Answers.

Variable w : World.

Hypothesis clock : 0 <= ticks_per_second w.

Lemma spent_cons a l :
  spent w (a :: l)
  = cost a + (if raised a then 2 * ticks_per_second w else 0) + spent w l.
Proof.
  unfold spent. cbn [total_cost filter].
  destruct (raised a); cbn [List.length]; [rewrite Nat2Z.inj_succ|]; lia.
Qed.

Lemma spent_nonneg l : Forall (fun a => 0 <= cost a) l -> 0 <= spent w l.
Proof.
  induction 1 as [|a l Ha _ IH]; [unfold spent; simpl; lia|].
  rewrite spent_cons. destruct (raised a); lia.
Qed.

(** The loop with a script that has its 200 in time: a request for every
    attempt before, with the sleep where the attempt raised, then the
    request that is answered 200. *)
Lemma poll_healthy script target service_name timeout start_time : forall st,
  sigint st = None ->
  existsb answers_200 script = true ->
  Forall (fun a => 0 <= cost a) (before_200 script) ->
  now st - start_time + spent w (before_200 script)
    < timeout * ticks_per_second w ->
  exists dt,
    poll w script target service_name timeout start_time st
    = Ok true
        (advance st dt
           (flat_map (attempt_events target service_name) (before_200 script)
            ++ [ EGet target;
                 EPrint ("✓ " ++ service_name ++ " is running")%string ])).
Proof.
  induction script as [|a rest IH]; intros st Hq Hex Hc Hlt;
    [discriminate Hex|].
  cbn [before_200] in Hc, Hlt |- *. cbn [existsb] in Hex.
  assert (Hnow : now st - start_time < timeout * ticks_per_second w).
  { destruct (answers_200 a).
    - unfold spent in Hlt. simpl in Hlt. lia.
    - pose proof (spent_nonneg _ Hc). lia. }
  simpl poll. rewrite bind_time_time.
  apply Z.ltb_lt in Hnow. rewrite Hnow. apply Z.ltb_lt in Hnow.
  rewrite (bind_runs (runs_get a target)) by exact Hq.
  unfold answers_200 in *. unfold attempt_events at 1.
  destruct (reply a) as [code| |message] eqn:Ha.
  - destruct (code =? 200) eqn:Hcode.
    + rewrite (bind_runs (runs_print _)) by exact Hq.
      exists (cost a + 0). unfold ret. now rewrite advance_advance.
    + inversion Hc as [|? ? Ha0 Hrest]; subst.
      rewrite spent_cons in Hlt. unfold raised in Hlt. rewrite Ha in Hlt.
      destruct (IH (advance st (cost a) [EGet target])) as [dt Hdt]; auto.
      { unfold advance; cbn [now]. lia. }
      rewrite Hdt. exists (cost a + dt). rewrite advance_advance.
      cbn [flat_map]. unfold attempt_events at 1. rewrite Ha.
      now rewrite <- app_assoc.
  - inversion Hc as [|? ? Ha0 Hrest]; subst.
    rewrite spent_cons in Hlt. unfold raised in Hlt. rewrite Ha in Hlt.
    rewrite (bind_runs (runs_sleep w 2)) by exact Hq.
    rewrite advance_advance.
    destruct (IH (advance st (cost a + 2 * ticks_per_second w)
                    ([EGet target] ++ [ESleep 2]))) as [dt Hdt]; auto.
    { unfold advance; cbn [now]. lia. }
    rewrite Hdt. exists (cost a + 2 * ticks_per_second w + dt).
    rewrite advance_advance. cbn [flat_map]. unfold attempt_events at 1.
    rewrite Ha. now rewrite <- !app_assoc.
  - inversion Hc as [|? ? Ha0 Hrest]; subst.
    rewrite spent_cons in Hlt. unfold raised in Hlt. rewrite Ha in Hlt.
    rewrite (bind_runs (runs_print _)) by exact Hq.
    rewrite (bind_runs (runs_sleep w 2)) by exact Hq.
    rewrite !advance_advance.
    match goal with
    | |- exists _, poll _ _ _ _ _ _ ?s = _ =>
        destruct (IH s) as [dt Hdt]; auto
    end.
    { unfold advance; cbn [now]. lia. }
    rewrite Hdt. eexists. rewrite advance_advance.
    cbn [flat_map]. unfold attempt_events at 1. rewrite Ha.
    rewrite <- !app_assoc. reflexivity.
Qed.

(** The loop with a script that lets the timeout pass without a 200. *)
Lemma poll_times_out script target service_name timeout start_time : forall st,
  sigint st = None ->
  timeout * ticks_per_second w - (now st - start_time)
    <= spent w (before_200 script) ->
  exists st',
    poll w script target service_name timeout start_time st = Ok false st'.
Proof.
  induction script as [|a rest IH]; intros st Hq Hle;
    simpl poll; rewrite bind_time_time;
    destruct (Z.ltb_spec (now st - start_time)
                (timeout * ticks_per_second w)) as [Hlt|Hge];
    try (rewrite (bind_runs (runs_print _)) by exact Hq;
         eexists; reflexivity).
  - unfold spent in Hle. simpl in Hle. lia.
  - cbn [before_200] in Hle.
    rewrite (bind_runs (runs_get a target)) by exact Hq.
    unfold answers_200 in *.
    destruct (reply a) as [code| |message] eqn:Ha.
    + destruct (code =? 200) eqn:Hcode.
      * unfold spent in Hle. simpl in Hle. lia.
      * rewrite spent_cons in Hle. unfold raised in Hle. rewrite Ha in Hle.
        apply IH; auto. unfold advance; cbn [now]. lia.
    + rewrite spent_cons in Hle. unfold raised in Hle. rewrite Ha in Hle.
      rewrite (bind_runs (runs_sleep w 2)) by exact Hq.
      apply IH; auto. unfold advance; cbn [now]. lia.
    + rewrite spent_cons in Hle. unfold raised in Hle. rewrite Ha in Hle.
      rewrite (bind_runs (runs_print _)) by exact Hq.
      rewrite (bind_runs (runs_sleep w 2)) by exact Hq.
      apply IH; auto. unfold advance; cbn [now]. lia.
Qed.

Lemma probe_healthy s :
  healthy_in_time w s ->
  probe_verdict w s = Some true /\ probe_events w s = healthy_events w s.
Proof.
  intros (Hex & Hc & Hlt).
  unfold probe_verdict, probe_events, probe, check_service.
  rewrite bind_time_time.
  rewrite (bind_runs (runs_print _)) by reflexivity.
  match goal with
  | |- context [poll w ?sc ?t ?n ?to ?s0 ?st1] =>
      destruct (poll_healthy sc t n to s0 st1) as [dt Hdt]; auto;
        try (unfold advance, fresh; cbn [now]; lia)
  end.
  rewrite Hdt. split; [reflexivity|].
  unfold healthy_events, advance, fresh. cbn [trace app]. reflexivity.
Qed.

Lemma probe_times_out s : times_out w s -> probe_verdict w s = Some false.
Proof.
  intros Hle. unfold times_out in Hle.
  unfold probe_verdict, probe, check_service.
  rewrite bind_time_time.
  rewrite (bind_runs (runs_print _)) by reflexivity.
  match goal with
  | |- context [poll w ?sc ?t ?n ?to ?s0 ?st1] =>
      destruct (poll_times_out sc t n to s0 st1) as [st' Hst']; auto;
        try (unfold advance, fresh; cbn [now]; lia)
  end.
  now rewrite Hst'.
Qed.



Lemma healthy_probes l :
  Forall (healthy_in_time w) l ->
  Forall (fun s => probe_verdict w s = Some true) l
  /\ flat_map (probe_events w) l = flat_map (healthy_events w) l.
Proof.
  induction 1 as [|s l Hs _ [IH1 IH2]]; [now split|].
  destruct (probe_healthy s Hs) as [Hv He]. split; [now constructor|].
  cbn [flat_map]. now rewrite He, IH2.
Qed.

End Answers.

(** * The script with its exceptions *)

(** ** On a console that takes every line *)

Lemma bind_ext {A B} (m m' : M A) (f f' : A -> M B) st :
  m st = m' st ->
  (forall a st1, f a st1 = f' a st1) ->
  bind m f st = bind m' f' st.
Proof.
  intros Hm Hf. unfold bind. rewrite Hm. destruct (m' st); auto.
Qed.

Lemma effect_cases ev dt st :
  (exists st1, effect ev dt st = Ok tt st1)
  \/ (exists st1, effect ev dt st = Raise KeyboardInterrupt st1).
Proof.
  unfold effect. destruct (sigint st) as [[|k]|]; eauto.
Qed.

Section Utf8.

Variable e : Console.Env.

Hypothesis console : encodes_all e.

Lemma print_utf8 line : Console.print e line = print line.
Proof. unfold Console.print. now rewrite console. Qed.

Lemma start_service_utf8 cmd working_dir service_name st :
  Console.start_service e cmd working_dir service_name st
  = start_service e cmd working_dir service_name st.
Proof.
  unfold Console.start_service, start_service. rewrite print_utf8.
  apply bind_ext; [reflexivity|]. intros _ st1.
  unfold Console.try_with, Console.Popen, Popen, bind, ret, Console.throw.
  destruct (popen e cmd working_dir) as [p|message];
    match goal with
    | |- context [effect ?ev ?dt st1] =>
        destruct (effect_cases ev dt st1) as [[st2 E]|[st2 E]]; rewrite E
    end; try reflexivity.
  cbn [Console.str]. now rewrite print_utf8.
Qed.

Ltac step_effect :=
  match goal with
  | |- context [effect ?ev ?dt ?s] =>
      let E := fresh "E" in
      destruct (effect_cases ev dt s) as [[? E]|[? E]]; rewrite E; clear E;
      cbv beta iota
  end.

Lemma poll_utf8 script target service_name timeout start_time : forall st,
  Console.poll e script target service_name timeout start_time st
  = poll e script target service_name timeout start_time st.
Proof.
  induction script as [|a rest IH]; intros st;
    cbn [Console.poll poll]; rewrite !bind_time_time;
    destruct (now st - start_time <? timeout * ticks_per_second e);
    try reflexivity; try (now rewrite print_utf8).
  unfold Console.requests_get, requests_get, Console.try_with, bind, ret,
    Console.throw, time_sleep.
  step_effect; [|reflexivity].
  destruct (reply a) as [code| |message]; cbv beta iota.
  - destruct (code =? 200); [|apply IH].
    rewrite print_utf8. unfold print. step_effect; reflexivity.
  - step_effect; [apply IH | reflexivity].
  - cbn [Console.str]. rewrite print_utf8. unfold print.
    step_effect; [|reflexivity]. step_effect; [apply IH | reflexivity].
Qed.

Lemma check_service_utf8 target service_name timeout st :
  Console.check_service e target service_name timeout st
  = check_service e target service_name timeout st.
Proof.
  unfold Console.check_service, check_service. rewrite !bind_time_time.
  rewrite print_utf8. apply bind_ext; [reflexivity|]. intros _ st1.
  apply poll_utf8.
Qed.

Lemma launch_loop_utf8 todo : forall processes st,
  Console.launch_loop e todo processes st = launch_loop e todo processes st.
Proof.
  induction todo as [|s rest IH]; intros processes st; [reflexivity|].
  cbn [Console.launch_loop launch_loop].
  apply bind_ext; [apply start_service_utf8|].
  intros [p|] st1; [apply IH|]. now rewrite print_utf8.
Qed.

Lemma probe_loop_utf8 todo : forall st,
  Console.probe_loop e todo st = probe_loop e todo st.
Proof.
  induction todo as [|s rest IH]; intros st; [reflexivity|].
  cbn [Console.probe_loop probe_loop].
  apply bind_ext; [apply check_service_utf8|].
  intros [|] st1; [apply IH | reflexivity].
Qed.

Lemma startAll_utf8 services st :
  Console.startAll e services st = startAll e services st.
Proof.
  unfold Console.startAll, startAll. rewrite !print_utf8.
  apply bind_ext; [reflexivity | intros _ st1].
  apply bind_ext; [reflexivity | intros _ st2].
  apply bind_ext; [apply launch_loop_utf8|].
  intros [service_name|processes] st3; [reflexivity|].
  apply bind_ext; [reflexivity | intros _ st4].
  apply bind_ext; [reflexivity | intros _ st5].
  apply bind_ext; [apply probe_loop_utf8 | reflexivity].
Qed.

Lemma print_urls_utf8 services :
  Console.print_urls e services = print_urls services.
Proof.
  induction services as [|s rest IH]; [reflexivity|].
  cbn [Console.print_urls print_urls]. now rewrite print_utf8, IH.
Qed.

Lemma announce_utf8 services : Console.announce e services = announce services.
Proof.
  unfold Console.announce, announce.
  now rewrite !print_utf8, print_urls_utf8.
Qed.

Lemma main_with_utf8 services fuel st :
  Console.main_with e services fuel st = main_with e services fuel st.
Proof.
  unfold Console.main_with, main_with.
  apply bind_ext; [apply startAll_utf8|].
  intros [service_name|processes all_ready] st1; [reflexivity|].
  now rewrite !print_utf8, announce_utf8.
Qed.

End Utf8.

(** ** The exceptions that leave main *)

Lemma ends_ret R {A} (a : A) : ends R (ret a).
Proof. intros st H. exact H. Qed.

Lemma ends_effect R ev dt : ends R (effect ev dt).
Proof. intros st H. unfold effect. now rewrite H. Qed.

Lemma ends_throw (R : Exn -> Prop) {A} x : R x -> ends R (@Console.throw A x).
Proof. intros Hx st H. now split. Qed.

Lemma ends_unfinished R {A} : ends R (@unfinished A).
Proof. intros st H. exact I. Qed.

Lemma ends_bind R {A B} (m : M A) (f : A -> M B) :
  ends R m -> (forall a, ends R (f a)) -> ends R (bind m f).
Proof.
  intros Hm Hf st H. unfold bind. specialize (Hm st H).
  destruct (m st) as [a st1|x st1|]; auto. now apply Hf.
Qed.

Lemma ends_time_bind R {A} (f : Z -> M A) :
  (forall t, ends R (f t)) -> ends R (bind time_time f).
Proof. intros Hf st H. rewrite bind_time_time. now apply Hf. Qed.

Lemma ends_try_with (R0 R : Exn -> Prop) {A} (m : M A) clauses :
  ends R0 m ->
  (forall x, R0 x ->
     match clauses x with
     | Some block => ends R block
     | None => R x
     end) ->
  ends R (Console.try_with m clauses).
Proof.
  intros Hm Hc st H. unfold Console.try_with. specialize (Hm st H).
  destruct (m st) as [a st1|x st1|]; auto.
  destruct Hm as [H1 Hx]. specialize (Hc x Hx).
  destruct (clauses x) as [block|]; [now apply Hc | now split].
Qed.

Lemma ends_try_except R {A} (m h : M A) :
  ends R m -> ends R h -> ends R (try_except m h).
Proof.
  intros Hm Hh st H. unfold try_except. specialize (Hm st H).
  destruct (m st) as [a st1|[] st1|]; auto. now apply Hh.
Qed.

Section Escapes.

Variable e : Console.Env.

Lemma ends_print line : ends (from_print e) (Console.print e line).
Proof.
  unfold Console.print. destruct (Console.stdout e line) as [message|] eqn:E.
  - apply ends_throw. now exists line, message.
  - apply ends_effect.
Qed.


Lemma ends_start_service cmd working_dir service_name :
  ends (from_print e)
    (Console.start_service e cmd working_dir service_name).
Proof.
  unfold Console.start_service.
  apply ends_bind; [apply ends_print | intros _].
  apply ends_try_with with (R0 := is_Exception).
  - apply ends_bind; [|intros p; apply ends_ret].
    unfold Console.Popen.
    destruct (popen e cmd working_dir) as [p|message]; cbv beta iota.
    + apply ends_bind; [apply ends_effect | intros _; apply ends_ret].
    + apply ends_bind; [apply ends_effect | intros _].
      apply ends_throw. discriminate.
  - intros [| |message] Hx; [now elim Hx| |];
      (apply ends_bind; [apply ends_print | intros _; apply ends_ret]).
Qed.

Lemma ends_sleep R seconds : ends R (time_sleep e seconds).
Proof. apply ends_effect. Qed.

Lemma ends_poll script target service_name timeout start_time :
  ends (from_print e)
    (Console.poll e script target service_name timeout start_time).
Proof.
  induction script as [|a rest IH]; cbn [Console.poll];
    apply ends_time_bind; intros t;
    destruct (t - start_time <? timeout * ticks_per_second e);
    try apply ends_unfinished;
    try (apply ends_bind; [apply ends_print | intros _; apply ends_ret]).
  apply ends_bind.
  - apply ends_try_with with (R0 := is_Exception).
    + unfold Console.requests_get.
      apply ends_bind.
      * apply ends_bind; [apply ends_effect | intros _].
        destruct (reply a) as [code| |message]; cbv beta iota;
          [apply ends_ret | apply ends_throw; discriminate
          | apply ends_throw; discriminate].
      * intros code. destruct (code =? 200); [|apply ends_ret].
        apply ends_bind; [|intros _; apply ends_ret].
        unfold Console.print.
        destruct (Console.stdout e _) as [message|];
          [apply ends_throw; discriminate | apply ends_effect].
    + intros [| |message] Hx; [now elim Hx| |].
      * apply ends_bind; [apply ends_sleep | intros _; apply ends_ret].
      * apply ends_bind; [apply ends_print | intros _].
        apply ends_bind; [apply ends_sleep | intros _; apply ends_ret].
  - intros [b|]; [apply ends_ret | exact IH].
Qed.

Lemma ends_check_service target service_name timeout :
  ends (from_print e) (Console.check_service e target service_name timeout).
Proof.
  unfold Console.check_service. apply ends_time_bind. intros t.
  apply ends_bind; [apply ends_print | intros _; apply ends_poll].
Qed.

Lemma ends_terminate_loop R processes : ends R (terminate_loop processes).
Proof.
  induction processes as [|p rest IH]; cbn [terminate_loop];
    [apply ends_ret|].
  apply ends_bind; [apply ends_effect | intros _; exact IH].
Qed.

Lemma ends_launch_loop todo : forall processes,
  ends (from_print e) (Console.launch_loop e todo processes).
Proof.
  induction todo as [|s rest IH]; intros processes; cbn [Console.launch_loop];
    [apply ends_ret|].
  apply ends_bind; [apply ends_start_service|].
  intros [p|]; [apply IH|].
  apply ends_bind; [apply ends_terminate_loop | intros _].
  apply ends_bind; [apply ends_print | intros _; apply ends_ret].
Qed.

Lemma ends_probe_loop todo : ends (from_print e) (Console.probe_loop e todo).
Proof.
  induction todo as [|s rest IH]; cbn [Console.probe_loop]; [apply ends_ret|].
  apply ends_bind; [apply ends_check_service|].
  intros [|]; [exact IH | apply ends_ret].
Qed.

Lemma ends_startAll services : ends (from_print e) (Console.startAll e services).
Proof.
  unfold Console.startAll.
  apply ends_bind; [apply ends_print | intros _].
  apply ends_bind; [apply ends_print | intros _].
  apply ends_bind; [apply ends_launch_loop|].
  intros [service_name|processes]; [apply ends_ret|].
  apply ends_bind; [apply ends_print | intros _].
  apply ends_bind; [apply ends_print | intros _].
  apply ends_bind; [apply ends_probe_loop | intros b; apply ends_ret].
Qed.

Lemma ends_print_urls services : ends (from_print e) (Console.print_urls e services).
Proof.
  induction services as [|s rest IH]; cbn [Console.print_urls];
    [apply ends_ret|].
  apply ends_bind; [apply ends_print | intros _; exact IH].
Qed.

Lemma ends_idle_wait R fuel : ends R (idle_wait e fuel).
Proof.
  induction fuel as [|k IH]; cbn [idle_wait]; [apply ends_unfinished|].
  apply ends_bind; [apply ends_sleep | intros _; exact IH].
Qed.

Lemma ends_main_with services fuel :
  ends (from_print e) (Console.main_with e services fuel).
Proof.
  unfold Console.main_with.
  apply ends_bind; [apply ends_startAll|].
  intros [service_name|processes all_ready]; [apply ends_ret|].
  apply ends_bind; [apply ends_print | intros _].
  destruct all_ready.
  - apply ends_bind.
    + unfold Console.announce.
      apply ends_bind; [apply ends_print | intros _].
      apply ends_bind; [apply ends_print | intros _].
      apply ends_bind; [apply ends_print_urls | intros _; apply ends_print].
    + intros _. apply ends_try_except; [apply ends_idle_wait|].
      apply ends_bind; [apply ends_print | intros _].
      apply ends_bind; [apply ends_terminate_loop | intros _; apply ends_print].
  - apply ends_bind; [apply ends_print | intros _].
    apply ends_bind; [apply ends_print | intros _].
    apply ends_terminate_loop.
Qed.

End Escapes.

(** X1: as long as no Ctrl+C arrives, no exception of [Popen] and none of
    [requests.get] leaves [main], whatever the services, the commands and
    the URLs do: the [try] blocks of [start_service] and [check_service]
    catch them.  An exception that ends [main] is the UnicodeEncodeError of
    a [print], for a line the console cannot encode; on a console that takes
    every line [main] ends in no exception at all. *)
Theorem main_lets_only_print_errors_escape
    (e : Console.Env) (services : list Service) (fuel : nat)
    (st : State) (x : Exn) (st' : State) :
  sigint st = None ->
  Console.main_with e services fuel st = Raise x st' ->
  from_print e x /\ ~ encodes_all e.
Proof.
  intros H E. pose proof (ends_main_with e services fuel st H) as Hx.
  rewrite E in Hx. destruct Hx as [_ Hx]. split; [exact Hx|].
  destruct Hx as (line & message & Hl & _). intros Hall.
  now rewrite Hall in Hl.
Qed.

Lemma main_lets_only_print_errors_escape_witness :
  from_print (legacy deaf_world) (Exception "'charmap' codec can't encode character")
  /\ ~ encodes_all (legacy deaf_world).
Proof.
  apply (main_lets_only_print_errors_escape (legacy deaf_world)
           services_to_start 50 fresh _
           (final_state (Console.main (legacy deaf_world) 50 fresh))).
  - reflexivity.
  - vm_compute. reflexivity.
Defined.

(** ** The startup phase, from what the URLs answer *)







Lemma first_other {A} (P Q : A -> Prop) (l : list A) :
  Forall (fun x => P x \/ Q x) l ->
  Forall P l
  \/ exists pre x post, l = pre ++ x :: post /\ Forall P pre /\ Q x.
Proof.
  induction 1 as [|x l [Hx|Hx] _ [IH | (pre & y & post & -> & Hpre & Hy)]].
  - left. constructor.
  - left. now constructor.
  - right. exists (x :: pre), y, post. repeat split; auto.
  - right. exists [], x, l. repeat split; auto.
  - right. exists [], x, (pre ++ y :: post). repeat split; auto.
Qed.

(** C10, as the code has it: on a console that takes every line, and
    with the URLs answering as far as the health checks ask, a run of
    [main] without Ctrl+C either returns normally, so that the interpreter
    exits with status 0, after the line that tells of the failed startup
    ([Failed to start ... Aborting.] when a service does not start, [❌ Some
    services failed to start] when a health check fails), or finds every
    service healthy and waits; and Ctrl+C in that wait makes [main] return
    normally too, after [Services stopped.]. *)
Theorem main_exits_with_status_zero_on_its_three_ways_out
    (e : Console.Env) (services : list Service) (fuel : nat) (st : State) :
  encodes_all e ->
  0 <= ticks_per_second e ->
  (sigint st = None ->
   (Forall (fun s => starts e s = true) services ->
    Forall (fun s => healthy_in_time e s \/ times_out e s) services) ->
   (exists dt evs line,
      Console.main_with e services fuel st = Ok tt (advance st dt evs)
      /\ exit_of (Console.main_with e services fuel st) = Some (ExitCode 0)
      /\ In (EPrint line) evs
      /\ (line = "❌ Some services failed to start"%string
          \/ exists s,
               In s services
               /\ line = ("Failed to start " ++ name s ++ ". Aborting.")%string))
   \/ (Forall (fun s => starts e s = true) services
       /\ Forall (healthy_in_time e) services
       /\ Console.main_with e services fuel st = Unfinished))
  /\ (forall processes st1 st2 j,
        Console.startAll e services st = Ok (Probed processes true) st1 ->
        (Console.print e (nl ++ str_times "=" 50) ;;
         Console.announce e services) st1 = Ok tt st2 ->
        sigint st2 = Some j ->
        (j < fuel)%nat ->
        exists st' evs,
          Console.main_with e services fuel st = Ok tt st'
          /\ exit_of (Console.main_with e services fuel st)
             = Some (ExitCode 0)
          /\ trace st' = trace st2 ++ evs ++ [EPrint "Services stopped."]).
Proof.
  intros Hc Hclock. split.
  - intros Hq Hanswers.
    destruct (first_failure (starts e) services)
      as [Hall | (pre & s & post & -> & Hpre & Hs)].
    + destruct (first_other _ _ _ (Hanswers Hall))
        as [Hh | (pre & s & post & -> & Hpre & Hs)].
      * right. split; [exact Hall|]. split; [exact Hh|].
        destruct (healthy_probes e Hclock services Hh) as [Hv _].
        destruct (probe_loop_runs e services Hv) as [dt Hdt].
        destruct (runs_announce services) as [evs Hevs].
        rewrite (main_with_utf8 e Hc). unfold main_with.
        rewrite (bind_runs (startAll_runs e services true dt _ Hall Hdt))
          by exact Hq.
        rewrite (bind_runs (runs_print _)) by exact Hq.
        rewrite (bind_runs Hevs) by exact Hq.
        unfold try_except. now rewrite idle_wait_forever.
      * left.
        destruct (healthy_probes e Hclock pre Hpre) as [Hv _].
        pose proof (probe_times_out e s Hs) as Hf.
        destruct (probe_loop_fails e pre s post Hv Hf) as [dt Hdt].
        rewrite (main_with_utf8 e Hc).
        rewrite (main_with_unhealthy e _ fuel dt _ Hall Hdt st Hq).
        exists dt. eexists.
        exists "❌ Some services failed to start"%string.
        split; [reflexivity|]. split; [reflexivity|]. split; [|now left].
        apply in_or_app. left. do 4 (apply in_or_app; right).
        right. now left.
    + left. rewrite (main_with_utf8 e Hc).
      rewrite (main_with_aborts e pre s post fuel Hpre Hs st Hq).
      exists 0. eexists.
      exists ("Failed to start " ++ name s ++ ". Aborting.")%string.
      split; [reflexivity|]. split; [reflexivity|]. split.
      * do 4 (apply in_or_app; right). now left.
      * right. exists s. split; [|reflexivity].
        apply in_or_app. right. now left.
  - intros processes st1 st2 j H1 H2 Hj Hf.
    rewrite (startAll_utf8 e Hc) in H1.
    rewrite (print_utf8 e Hc), (announce_utf8 e Hc) in H2.
    rewrite (main_with_utf8 e Hc).
    rewrite (main_with_interrupted_idle e services fuel st processes
               st1 st2 j H1 H2 Hj Hf).
    eexists. exists (repeat (ESleep 1) j
                     ++ [EPrint (nl ++ nl ++ "Stopping services...")%string]
                     ++ stops processes).
    split; [reflexivity|]. split; [reflexivity|].
    cbn [trace]. now rewrite <- !app_assoc.
Qed.

(** ** The two services on the two consoles *)





(** C10, refuted: Ctrl+C during the first health check, and a line the
    console cannot encode, each end [main] in an exception nobody catches:
    the interpreter prints the traceback and exits with a status that is
    not 0. *)
Lemma main_ends_in_a_traceback :
  exit_of (Console.main (utf8 healthy_world) 50 (interrupted_at 10))
  = Some (Traceback KeyboardInterrupt)
  /\ exit_of (Console.main (legacy deaf_world) 50 fresh)
     = Some (Traceback (Exception "'charmap' codec can't encode character")).
Proof. split; vm_compute; reflexivity. Qed.

Lemma main_exits_with_status_zero_on_its_three_ways_out_witness :
  ((exists dt evs line,
      Console.main (utf8 bad_backend_world) 50 fresh
      = Ok tt (advance fresh dt evs)
      /\ exit_of (Console.main (utf8 bad_backend_world) 50 fresh)
         = Some (ExitCode 0)
      /\ In (EPrint line) evs
      /\ (line = "❌ Some services failed to start"%string
          \/ exists s,
               In s services_to_start
               /\ line
                  = ("Failed to start " ++ name s ++ ". Aborting.")%string))
   \/ (Forall (fun s => starts bad_backend_world s = true) services_to_start
       /\ Forall (healthy_in_time bad_backend_world) services_to_start
       /\ Console.main (utf8 bad_backend_world) 50 fresh = Unfinished))
  /\ ((exists dt evs line,
         Console.main (utf8 deaf_backend_world) 50 fresh
         = Ok tt (advance fresh dt evs)
         /\ exit_of (Console.main (utf8 deaf_backend_world) 50 fresh)
            = Some (ExitCode 0)
         /\ In (EPrint line) evs
         /\ (line = "❌ Some services failed to start"%string
             \/ exists s,
                  In s services_to_start
                  /\ line
                     = ("Failed to start " ++ name s ++ ". Aborting.")%string))
      \/ (Forall (fun s => starts deaf_backend_world s = true)
            services_to_start
          /\ Forall (healthy_in_time deaf_backend_world) services_to_start
          /\ Console.main (utf8 deaf_backend_world) 50 fresh = Unfinished))
  /\ exists st' evs,
       Console.main (utf8 healthy_world) 50 (interrupted_at 27) = Ok tt st'
       /\ exit_of (Console.main (utf8 healthy_world) 50 (interrupted_at 27))
          = Some (ExitCode 0)
       /\ trace st'
          = trace (final_state
                     ((Console.startAll (utf8 healthy_world) services_to_start ;;
                       Console.print (utf8 healthy_world)
                         (nl ++ str_times "=" 50) ;;
                       Console.announce (utf8 healthy_world) services_to_start)
                        (interrupted_at 27)))
            ++ evs ++ [EPrint "Services stopped."].
Proof.
  split; [|split].
  - apply (proj1 (main_exits_with_status_zero_on_its_three_ways_out
                    (utf8 bad_backend_world) services_to_start 50 fresh
                    (fun line => eq_refl) ltac:(vm_compute; discriminate))).
    + reflexivity.
    + intros H. apply Forall_inv_tail, Forall_inv in H.
      vm_compute in H. discriminate.
  - apply (proj1 (main_exits_with_status_zero_on_its_three_ways_out
                    (utf8 deaf_backend_world) services_to_start 50 fresh
                    (fun line => eq_refl) ltac:(vm_compute; discriminate))).
    + reflexivity.
    + intros _. constructor; [left | constructor; [right | constructor]].
      * repeat constructor; vm_compute; (reflexivity || discriminate).
      * vm_compute. discriminate.
  - apply (proj2 (main_exits_with_status_zero_on_its_three_ways_out
                    (utf8 healthy_world) services_to_start 50
                    (interrupted_at 27)
                    (fun line => eq_refl) ltac:(vm_compute; discriminate))
             [ {| process := 101%nat; pname := "Chatbot" |};
               {| process := 102%nat; pname := "Backend" |} ]
             (final_state
                (Console.startAll (utf8 healthy_world) services_to_start
                   (interrupted_at 27)))
             (final_state
                ((Console.startAll (utf8 healthy_world) services_to_start ;;
                  Console.print (utf8 healthy_world) (nl ++ str_times "=" 50) ;;
                  Console.announce (utf8 healthy_world) services_to_start)
                   (interrupted_at 27)))
             3%nat).
    + vm_compute. reflexivity.
    + vm_compute. reflexivity.
    + vm_compute. reflexivity.
    + lia.
Defined.

(** ** A console without the check mark *)

Section NoCheckMark.

Variable e : Console.Env.
Variable service_name : string.

Hypothesis no_check_mark :
  Console.stdout e ("✓ " ++ service_name ++ " is running") <> None.

Lemma poll_never_true script target timeout start_time : forall st st',
  Console.poll e script target service_name timeout start_time st
  <> Ok true st'.
Proof.
  induction script as [|a rest IH]; intros st st' H;
    cbn [Console.poll] in H; rewrite bind_time_time in H;
    destruct (now st - start_time <? timeout * ticks_per_second e);
    try discriminate;
    try (apply bind_Ok in H as (u & st1 & _ & H); discriminate H).
  apply bind_Ok in H as (returned & st1 & Ht & H).
  destruct returned as [b|]; [|now apply IH in H].
  apply ret_Ok in H as [-> _].
  unfold Console.try_with in Ht.
  match type of Ht with
  | match ?body st with _ => _ end = _ =>
      destruct (body st) as [r st2|x st2|] eqn:Hb
  end; try discriminate.
  - injection Ht as -> ->.
    apply bind_Ok in Hb as (code & st3 & _ & Hb).
    destruct (code =? 200); [|discriminate Hb].
    apply bind_Ok in Hb as (u & st4 & Hp & _).
    unfold Console.print in Hp.
    destruct (Console.stdout e _) as [message|]; [discriminate Hp|].
    now elim no_check_mark.
  - destruct x as [| |message]; try discriminate.
    + apply bind_Ok in Ht as (u & st3 & _ & Ht). discriminate Ht.
    + apply bind_Ok in Ht as (u & st3 & _ & Ht).
      apply bind_Ok in Ht as (u' & st4 & _ & Ht). discriminate Ht.
Qed.

End NoCheckMark.

(** X23: on a console that cannot encode the check mark of line 32,
    [check_service] never returns True, whatever the URL answers and however
    long the timeout: the [print] of the success raises inside the [try],
    [except Exception] takes the error for a failed attempt, and the loop
    goes on. *)
Theorem check_service_never_true_without_check_mark
    (e : Console.Env) (target service_name : string) (timeout : Z)
    (st st' : State) :
  Console.stdout e ("✓ " ++ service_name ++ " is running") <> None ->
  Console.check_service e target service_name timeout st <> Ok true st'.
Proof.
  intros Hm H. unfold Console.check_service in H.
  rewrite bind_time_time in H.
  apply bind_Ok in H as (u & st1 & _ & H).
  now apply poll_never_true in H.
Qed.

Lemma check_service_never_true_without_check_mark_witness :
  Console.check_service (legacy steady_world) "http://localhost:5000/health"
    "Chatbot" 30 fresh
  <> Ok true
       (final_state
          (Console.check_service (legacy steady_world)
             "http://localhost:5000/health" "Chatbot" 30 fresh)).
Proof.
  apply (check_service_never_true_without_check_mark (legacy steady_world)
           "http://localhost:5000/health" "Chatbot" 30 fresh).
  vm_compute. discriminate.
Defined.

(** ** The two readings of the script *)

(** X24: on a console that can encode every line, the script with its
    exceptions raised and caught does what the first reading of it does,
    in which [print] always writes its line and the failures of [Popen] and
    [requests.get] are values: [start_service], [check_service] and [main]
    give the same result with the same log and the same clock, from every
    state, interrupted or not. *)
Theorem console_that_encodes_every_line_agrees (e : Console.Env) :
  encodes_all e ->
  (forall cmd working_dir service_name st,
     Console.start_service e cmd working_dir service_name st
     = start_service e cmd working_dir service_name st)
  /\ (forall target service_name timeout st,
        Console.check_service e target service_name timeout st
        = check_service e target service_name timeout st)
  /\ (forall services fuel st,
        Console.main_with e services fuel st = main_with e services fuel st).
Proof.
  intros H. split; [|split]; intros.
  - now apply start_service_utf8.
  - now apply check_service_utf8.
  - now apply main_with_utf8.
Qed.

Lemma console_that_encodes_every_line_agrees_witness :
  (forall cmd working_dir service_name st,
     Console.start_service (utf8 bad_backend_world) cmd working_dir
       service_name st
     = start_service bad_backend_world cmd working_dir service_name st)
  /\ (forall target service_name timeout st,
        Console.check_service (utf8 bad_backend_world) target service_name
          timeout st
        = check_service bad_backend_world target service_name timeout st)
  /\ (forall services fuel st,
        Console.main_with (utf8 bad_backend_world) services fuel st
        = main_with bad_backend_world services fuel st).
Proof.
  apply (console_that_encodes_every_line_agrees (utf8 bad_backend_world)).
  intros line. reflexivity.
Defined.
